(** * Pointer grace-area tracker of bits-ui: geometry kernel and state machine

    Shallow embedding of [packages/bits-ui/src/lib/internal/useGraceArea.svelte.ts].

    Numbers.  A JavaScript [number] that is finite is a rational; the
    embedding takes [Q] for [number] and exact rational arithmetic for
    [+ - * /].  [NaN], the infinities and the rounding of IEEE-754 doubles
    are outside the model: every statement below is a statement about
    finite coordinates combined without rounding error.  Comparisons
    [< > >= ===] are the decidable comparisons of [Q] ([===] on numbers is
    numeric equality, [Qeq_bool]).

    Arrays.  The pure part models a JavaScript array by the list of its
    elements in index order.  The module [Imp] models arrays as objects in a
    store, with aliasing, to say what a call does to the array it is given.

    Reactivity.  An effect of the tracker is taken to have run as soon as
    the state it reads has changed: a listener is attached exactly while the
    condition of its effect holds. *)

From Stdlib Require Import QArith Qabs Qminmax Qfield Lqa List Bool Lia String.
From Stdlib Require Import Sorted Permutation.
From stdpp Require Import base option list gmap.

(** ** Numbers *)

Module Num.

Definition number : Type := Q.

(** [a < b] *)
Definition lt (a b : number) : bool := negb (Qle_bool b a).
(** [a > b] *)
Definition gt (a b : number) : bool := lt b a.
(** [a >= b] *)
Definition ge (a b : number) : bool := Qle_bool b a.
(** [a === b] *)
Definition strictEq (a b : number) : bool := Qeq_bool a b.

(** [Math.abs] *)
Definition Math_abs (a : number) : number := Qabs a.

(** [Math.min(a, b, c, d)]: the arguments are folded from the left. *)
Definition Math_min (a b c d : number) : number :=
  Qmin (Qmin (Qmin a b) c) d.

End Num.

Bind Scope Q_scope with Num.number.

(** ** Data model *)

(** [type Point = { x: number; y: number }] *)
Record Point : Type := { x : Num.number; y : Num.number }.

(** [type Polygon = Point[]] *)
Definition Polygon : Type := list Point.

(** [type Side = "top" | "right" | "bottom" | "left"] *)
Inductive Side : Type := top_side | right_side | bottom_side | left_side.

(** The four edges of a [DOMRect] that the tracker reads. *)
Record DOMRect : Type :=
  { top : Num.number; right : Num.number;
    bottom : Num.number; left : Num.number }.

(** Outcome of a function that can throw. *)
Inductive Result (A : Type) : Type :=
| Ok (a : A)
| Throw (msg : string).
Arguments Ok {A} a.
Arguments Throw {A} msg.

(** ** Geometry kernel *)

(** [getExitSideFromRect]: the side of [rect] nearest to [point].  The
    [switch] compares its discriminant with the case values by [===], in
    the order the cases are written. *)
Definition getExitSideFromRect (point : Point) (rect : DOMRect) : Result Side :=
  let top := Num.Math_abs (top rect - y point)%Q in
  let bottom := Num.Math_abs (bottom rect - y point)%Q in
  let right := Num.Math_abs (right rect - x point)%Q in
  let left := Num.Math_abs (left rect - x point)%Q in
  let d := Num.Math_min top bottom right left in
  if Num.strictEq d left then Ok left_side
  else if Num.strictEq d right then Ok right_side
  else if Num.strictEq d top then Ok top_side
  else if Num.strictEq d bottom then Ok bottom_side
  else Throw "unreachable".

(** [getPaddedExitPoints(exitPoint, exitSide, padding = 5)]: an omitted
    third argument is [None]. *)
Definition getPaddedExitPoints
    (exitPoint : Point) (exitSide : Side) (padding_arg : option Num.number)
    : list Point :=
  let padding := default 5%Q padding_arg in
  match exitSide with
  | top_side =>
      [ {| x := (x exitPoint - padding)%Q; y := (y exitPoint + padding)%Q |};
        {| x := (x exitPoint + padding)%Q; y := (y exitPoint + padding)%Q |} ]
  | bottom_side =>
      [ {| x := (x exitPoint - padding)%Q; y := (y exitPoint - padding)%Q |};
        {| x := (x exitPoint + padding)%Q; y := (y exitPoint - padding)%Q |} ]
  | left_side =>
      [ {| x := (x exitPoint + padding)%Q; y := (y exitPoint - padding)%Q |};
        {| x := (x exitPoint + padding)%Q; y := (y exitPoint + padding)%Q |} ]
  | right_side =>
      [ {| x := (x exitPoint - padding)%Q; y := (y exitPoint - padding)%Q |};
        {| x := (x exitPoint - padding)%Q; y := (y exitPoint + padding)%Q |} ]
  end.

(** [getPointsFromRect] *)
Definition getPointsFromRect (rect : DOMRect) : list Point :=
  [ {| x := left rect; y := top rect |};
    {| x := right rect; y := top rect |};
    {| x := right rect; y := bottom rect |};
    {| x := left rect; y := bottom rect |} ].

(** The edge test of [isPointInPolygon]; [&&] evaluates its right operand,
    and so the division, only when the left one is true. *)
Definition intersect (point pi pj : Point) : bool :=
  let xi := x pi in let yi := y pi in
  let xj := x pj in let yj := y pj in
  if negb (Bool.eqb (Num.gt yi (y point)) (Num.gt yj (y point)))
  then Num.lt (x point) ((xj - xi) * (y point - yi) / (yj - yi) + xi)%Q
  else false.

(** The loop [for (let i = 0, j = polygon.length - 1; i < polygon.length; j = i++)]
    with [todo] iterations left.  [polygon[i]!.x] on a missing element is a
    [TypeError]: [None]. *)
Fixpoint isPointInPolygon_loop
    (point : Point) (polygon : Polygon) (todo i j : nat) (inside : bool)
    : option bool :=
  match todo with
  | O => Some inside
  | S todo' =>
      match polygon !! i, polygon !! j with
      | Some pi, Some pj =>
          isPointInPolygon_loop point polygon todo' (S i) i
            (if intersect point pi pj then negb inside else inside)
      | _, _ => None
      end
  end.

(** [isPointInPolygon] *)
Definition isPointInPolygon (point : Point) (polygon : Polygon) : option bool :=
  isPointInPolygon_loop point polygon
    (length polygon) 0 (length polygon - 1) false.

(** ** Convex hull *)

(** The comparator that [getHull] passes to [sort]. *)
Definition comparePoints (a b : Point) : Z :=
  if Num.lt (x a) (x b) then (-1)%Z
  else if Num.gt (x a) (x b) then 1%Z
  else if Num.lt (y a) (y b) then (-1)%Z
  else if Num.gt (y a) (y b) then 1%Z
  else 0%Z.

(** [Array.prototype.sort(compareFn)].  The language fixes the result for a
    consistent comparator: the sorted permutation that keeps elements that
    compare equal in their original order.  Insertion from the right
    computes it. *)
Fixpoint sort_insert (compareFn : Point -> Point -> Z) (a : Point) (l : list Point)
    : list Point :=
  match l with
  | [] => [a]
  | b :: l' =>
      if (compareFn a b <=? 0)%Z then a :: b :: l'
      else b :: sort_insert compareFn a l'
  end.

Definition Array_sort (compareFn : Point -> Point -> Z) (l : list Point)
    : list Point :=
  foldr (sort_insert compareFn) [] l.

(** [Array.prototype.pop]: on an empty array nothing is removed. *)
Definition Array_pop (l : list Point) : list Point := removelast l.

(** The test of the inner loops of [getHullPresorted],
    [(q.x - r.x) * (p.y - r.y) >= (q.y - r.y) * (p.x - r.x)]. *)
Definition nonLeftTurn (r q p : Point) : bool :=
  Num.ge ((x q - x r) * (y p - y r))%Q ((y q - y r) * (x p - x r))%Q.

(** The inner loop [while (hull.length >= 2) { ... pop or break }].  [fuel]
    bounds the number of iterations; [None] is a run that ran out of fuel or
    read a missing element. *)
Fixpoint hull_while (fuel : nat) (hull : list Point) (p : Point)
    : option (list Point) :=
  if (2 <=? length hull)%nat then
    match fuel with
    | O => None
    | S fuel' =>
        match hull !! (length hull - 1)%nat, hull !! (length hull - 2)%nat with
        | Some q, Some r =>
            if nonLeftTurn r q p then hull_while fuel' (Array_pop hull) p
            else Some hull
        | _, _ => None
        end
    end
  else Some hull.

(** [for (let i = 0; i < points.length; i++)] with [todo] iterations left. *)
Fixpoint upper_loop (points : list Point) (todo i : nat) (upperHull : list Point)
    : option (list Point) :=
  match todo with
  | O => Some upperHull
  | S todo' =>
      p ← points !! i;
      hull ← hull_while (length upperHull) upperHull p;
      upper_loop points todo' (S i) (hull ++ [p])
  end.

(** [for (let i = points.length - 1; i >= 0; i--)]: the argument is [i + 1]. *)
Fixpoint lower_loop (points : list Point) (todo : nat) (lowerHull : list Point)
    : option (list Point) :=
  match todo with
  | O => Some lowerHull
  | S i =>
      p ← points !! i;
      hull ← hull_while (length lowerHull) lowerHull p;
      lower_loop points i (hull ++ [p])
  end.

(** [getHullPresorted] *)
Definition getHullPresorted (points : list Point) : option (list Point) :=
  if (length points <=? 1)%nat then Some points
  else
    upperHull ← upper_loop points (length points) 0 [];
    let upperHull := Array_pop upperHull in
    lowerHull ← lower_loop points (length points) [];
    let lowerHull := Array_pop lowerHull in
    match upperHull, lowerHull with
    | [u], [l] =>
        if Num.strictEq (x u) (x l) && Num.strictEq (y u) (y l)
        then Some upperHull
        else Some (upperHull ++ lowerHull)
    | _, _ => Some (upperHull ++ lowerHull)
    end.

(** [getHull] *)
Definition getHull (points : list Point) : option (list Point) :=
  let newPoints := Array_sort comparePoints points in
  getHullPresorted newPoints.

(** ** The tracker

    [useGraceArea(triggerNode, contentNode)].  The host environment is a
    parameter: the nodes that an event can have as its target, the elements
    that the two boxes hold, the two type guards of [./is.js], and the two
    DOM queries the handlers make. *)

Section Tracker.

(** What [e.target] and [e.currentTarget] can be: [EventTarget | null]. *)
Variable node : Type.
(** [HTMLElement] *)
Variable element : Type.
(** [isHTMLElement(v)]: the guard, giving the element when it holds. *)
Variable isHTMLElement : node -> option element.
(** [isElementOrSVGElement(v)] *)
Variable isElementOrSVGElement : node -> bool.

(** The layout at the time of an event: [el.contains(target)] and
    [el.getBoundingClientRect()]. *)
Record Dom : Type :=
  { contains : element -> node -> bool;
    getBoundingClientRect : element -> DOMRect }.

(** The fields of a [PointerEvent] that the handlers read. *)
Record PointerEvent : Type :=
  { clientX : Num.number; clientY : Num.number;
    currentTarget : node; target : node }.

(** Modelled from the spec: [boxAutoReset(false, 300)] of
    [./boxAutoReset.svelte.js], which is not among the sources.  A value
    and a pending timer: assigning [true] cancels the scheduled reset and
    schedules a new one, assigning [false] cancels it, and the timer, when
    it fires, puts the default [false] back. *)
Record AutoReset : Type := { value : bool; pending : bool }.

Definition boxAutoReset_set (v : bool) (b : AutoReset) : AutoReset :=
  {| value := v; pending := v |}.

Definition boxAutoReset_fire (b : AutoReset) : AutoReset :=
  if pending b then {| value := false; pending := false |} else b.

(** The state of one tracker: the two boxes it is given, and its own
    [isPointerInTransit] and [pointerGraceArea].  [$state<Polygon | null>()]
    starts undefined, which the code does not tell from [null]: [None]. *)
Record State : Type :=
  { triggerNode : option element;
    contentNode : option element;
    isPointerInTransit : AutoReset;
    pointerGraceArea : option Polygon }.

Definition initial : State :=
  {| triggerNode := None; contentNode := None;
     isPointerInTransit := {| value := false; pending := false |};
     pointerGraceArea := None |}.

(** [handleRemoveGraceArea] *)
Definition handleRemoveGraceArea (s : State) : State :=
  {| triggerNode := triggerNode s; contentNode := contentNode s;
     pointerGraceArea := None;
     isPointerInTransit := boxAutoReset_set false (isPointerInTransit s) |}.

(** [handleCreateGraceArea].  An exception leaves the state as it was. *)
Definition handleCreateGraceArea
    (dom : Dom) (e : PointerEvent) (hoverTarget : element) (s : State)
    : Result State :=
  match isHTMLElement (currentTarget e) with
  | None => Ok s
  | Some currentTarget =>
      let exitPoint := {| x := clientX e; y := clientY e |} in
      match getExitSideFromRect exitPoint
              (getBoundingClientRect dom currentTarget) with
      | Throw msg => Throw msg
      | Ok exitSide =>
          let paddedExitPoints := getPaddedExitPoints exitPoint exitSide None in
          let hoverTargetPoints :=
            getPointsFromRect (getBoundingClientRect dom hoverTarget) in
          match getHull (paddedExitPoints ++ hoverTargetPoints) with
          | None => Throw "TypeError"
          | Some graceArea =>
              Ok {| triggerNode := triggerNode s; contentNode := contentNode s;
                    pointerGraceArea := Some graceArea;
                    isPointerInTransit :=
                      boxAutoReset_set true (isPointerInTransit s) |}
          end
      end
  end.

(** [triggerNode.value?.contains(target) || contentNode.value?.contains(target)] *)
Definition hasEnteredTarget (dom : Dom) (e : PointerEvent) (s : State) : bool :=
  match triggerNode s with
  | Some t => contains dom t (target e)
  | None => false
  end
  || match contentNode s with
     | Some c => contains dom c (target e)
     | None => false
     end.

(** [handleTrackPointerGrace]: the new state and the number of times
    [pointerExit.trigger()] was called. *)
Definition handleTrackPointerGrace (dom : Dom) (e : PointerEvent) (s : State)
    : Result (State * nat) :=
  match pointerGraceArea s with
  | None => Ok (s, 0)
  | Some polygon =>
      if negb (isElementOrSVGElement (target e)) then Ok (s, 0)
      else
        let pointerPosition := {| x := clientX e; y := clientY e |} in
        let hasEnteredTarget := hasEnteredTarget dom e s in
        match isPointInPolygon pointerPosition polygon with
        | None => Throw "TypeError"
        | Some inside =>
            let isPointerOutsideGraceArea := negb inside in
            if hasEnteredTarget then Ok (handleRemoveGraceArea s, 0)
            else if isPointerOutsideGraceArea
                 then Ok (handleRemoveGraceArea s, 1)
                 else Ok (s, 0)
        end
  end.

(** What can happen to a tracker. *)
Inductive Event : Type :=
| TriggerPointerLeave (e : PointerEvent)
| ContentPointerLeave (e : PointerEvent)
| DocumentPointerMove (e : PointerEvent)
| AutoResetTimer
| SetTriggerNode (n : option element)
| SetContentNode (n : option element).

(** One event.  The first effect listens on the two nodes while both are
    there; the second listens on the document while a polygon is stored. *)
Definition step (dom : Dom) (ev : Event) (s : State) : Result (State * nat) :=
  match ev with
  | TriggerPointerLeave e =>
      match triggerNode s, contentNode s with
      | Some _, Some content =>
          match handleCreateGraceArea dom e content s with
          | Ok s' => Ok (s', 0)
          | Throw msg => Throw msg
          end
      | _, _ => Ok (s, 0)
      end
  | ContentPointerLeave _ =>
      match triggerNode s, contentNode s with
      | Some _, Some _ => Ok (handleRemoveGraceArea s, 0)
      | _, _ => Ok (s, 0)
      end
  | DocumentPointerMove e =>
      match pointerGraceArea s with
      | Some _ => handleTrackPointerGrace dom e s
      | None => Ok (s, 0)
      end
  | AutoResetTimer =>
      Ok ({| triggerNode := triggerNode s; contentNode := contentNode s;
             pointerGraceArea := pointerGraceArea s;
             isPointerInTransit := boxAutoReset_fire (isPointerInTransit s) |},
          0)
  | SetTriggerNode n =>
      Ok ({| triggerNode := n; contentNode := contentNode s;
             pointerGraceArea := pointerGraceArea s;
             isPointerInTransit := isPointerInTransit s |}, 0)
  | SetContentNode n =>
      Ok ({| triggerNode := triggerNode s; contentNode := n;
             pointerGraceArea := pointerGraceArea s;
             isPointerInTransit := isPointerInTransit s |}, 0)
  end.

(** A sequence of events, each with the layout of its time: the final
    state and the number of exit notifications.  An exception ends it. *)
Fixpoint run (evs : list (Dom * Event)) (s : State) : Result (State * nat) :=
  match evs with
  | [] => Ok (s, 0)
  | (dom, ev) :: evs' =>
      match step dom ev s with
      | Throw msg => Throw msg
      | Ok (s', n) =>
          match run evs' s' with
          | Throw msg => Throw msg
          | Ok (s'', n') => Ok (s'', n + n')
          end
      end
  end.

End Tracker.

Arguments Dom : clear implicits.
Arguments PointerEvent : clear implicits.
Arguments State : clear implicits.
Arguments Event : clear implicits.
Arguments contains {node element} d _ _.
Arguments getBoundingClientRect {node element} d _.
Arguments clientX {node} p.
Arguments clientY {node} p.
Arguments currentTarget {node} p.
Arguments target {node} p.
Arguments triggerNode {element} s.
Arguments contentNode {element} s.
Arguments isPointerInTransit {element} s.
Arguments pointerGraceArea {element} s.
Arguments initial {element}.
Arguments handleRemoveGraceArea {element} s.
Arguments hasEnteredTarget {node element} dom e s.
Arguments TriggerPointerLeave {node element} e.
Arguments ContentPointerLeave {node element} e.
Arguments DocumentPointerMove {node element} e.
Arguments AutoResetTimer {node element}.
Arguments SetTriggerNode {node element} n.
Arguments SetContentNode {node element} n.

(** ** Arrays as objects

    For what a call does to its argument, the arrays are objects in a store:
    a reference is a key of the store, two references to one array are one
    key, and [push], [pop] and [sort] change the array they are called on.
    A computation takes the store and gives a result and the store it
    leaves, or [None] when it throws (or runs out of fuel). *)

Module Imp.

(** A reference to an array. *)
Abbreviation ref := nat.

(** The elements of every allocated array, in index order. *)
Abbreviation store := (gmap nat (list Point)).

Definition M (A : Type) : Type := store -> option (A * store).

#[global] Instance M_ret : MRet M := fun A a h => Some (a, h).

#[global] Instance M_bind : MBind M := fun A B k m h =>
  match m h with
  | Some (a, h') => k a h'
  | None => None
  end.

Definition throw {A : Type} : M A := fun _ => None.

(** [[...]]: a new array, at a reference that no array has. *)
Definition new_array (v : list Point) : M ref := fun h =>
  let r := fresh (dom h) in Some (r, <[r := v]> h).

Definition read (a : ref) : M (list Point) := fun h =>
  match h !! a with
  | Some v => Some (v, h)
  | None => None
  end.

Definition write (a : ref) (v : list Point) : M unit := fun h =>
  match h !! a with
  | Some _ => Some (tt, <[a := v]> h)
  | None => None
  end.

(** [a.slice()] *)
Definition Array_slice (a : ref) : M ref := v ← read a; new_array v.

(** [a.sort(compareFn)], in place. *)
Definition Array_sort (a : ref) (compareFn : Point -> Point -> Z) : M unit :=
  v ← read a; write a (Array_sort compareFn v).

(** [a.length] *)
Definition Array_length (a : ref) : M nat := v ← read a; mret (length v).

(** [a[i]!], read for one of its fields. *)
Definition Array_get (a : ref) (i : nat) : M Point :=
  v ← read a;
  match v !! i with
  | Some p => mret p
  | None => throw
  end.

(** [a.push(p)] *)
Definition Array_push (a : ref) (p : Point) : M unit :=
  v ← read a; write a (v ++ [p]).

(** [a.pop()] *)
Definition Array_pop (a : ref) : M unit :=
  v ← read a; write a (Array_pop v).

(** [a.concat(b)] *)
Definition Array_concat (a b : ref) : M ref :=
  va ← read a; vb ← read b; new_array (va ++ vb).

(** The inner loop of [getHullPresorted], on the array [hull]. *)
Fixpoint hull_while (fuel : nat) (hull : ref) (p : Point) : M unit :=
  n ← Array_length hull;
  if (2 <=? n)%nat then
    match fuel with
    | O => throw
    | S fuel' =>
        q ← Array_get hull (n - 1);
        r ← Array_get hull (n - 2);
        if nonLeftTurn r q p
        then Array_pop hull;; hull_while fuel' hull p
        else mret tt
    end
  else mret tt.

Fixpoint upper_loop (points : ref) (todo i : nat) (upperHull : ref) : M unit :=
  match todo with
  | O => mret tt
  | S todo' =>
      p ← Array_get points i;
      n ← Array_length upperHull;
      hull_while n upperHull p;;
      Array_push upperHull p;;
      upper_loop points todo' (S i) upperHull
  end.

Fixpoint lower_loop (points : ref) (todo : nat) (lowerHull : ref) : M unit :=
  match todo with
  | O => mret tt
  | S i =>
      p ← Array_get points i;
      n ← Array_length lowerHull;
      hull_while n lowerHull p;;
      Array_push lowerHull p;;
      lower_loop points i lowerHull
  end.

(** [getHullPresorted] *)
Definition getHullPresorted (points : ref) : M ref :=
  n ← Array_length points;
  if (n <=? 1)%nat then Array_slice points
  else
    upperHull ← new_array [];
    upper_loop points n 0 upperHull;;
    Array_pop upperHull;;
    lowerHull ← new_array [];
    lower_loop points n lowerHull;;
    Array_pop lowerHull;;
    nu ← Array_length upperHull;
    nl ← Array_length lowerHull;
    if (nu =? 1)%nat && (nl =? 1)%nat then
      u ← Array_get upperHull 0;
      l ← Array_get lowerHull 0;
      if Num.strictEq (x u) (x l) && Num.strictEq (y u) (y l)
      then mret upperHull
      else Array_concat upperHull lowerHull
    else Array_concat upperHull lowerHull.

(** [getHull] *)
Definition getHull (points : ref) : M ref :=
  newPoints ← Array_slice points;
  Array_sort newPoints comparePoints;;
  getHullPresorted newPoints.

End Imp.

(** ** Vocabulary of the statements *)

(** The distance from a point to the boundary of a rectangle on a side. *)
Definition sideDistance (point : Point) (rect : DOMRect) (s : Side) : Num.number :=
  match s with
  | top_side => Qabs (top rect - y point)
  | bottom_side => Qabs (bottom rect - y point)
  | left_side => Qabs (left rect - x point)
  | right_side => Qabs (right rect - x point)
  end.

(** The order in which ties are resolved: left, right, top, bottom. *)
Definition sidePriority (s : Side) : nat :=
  match s with
  | left_side => 0
  | right_side => 1
  | top_side => 2
  | bottom_side => 3
  end.

(** A rectangle as the layout engine reports it: [left <= right] and
    [top <= bottom]. *)
Definition rect_wf (rect : DOMRect) : Prop :=
  (left rect <= right rect)%Q /\ (top rect <= bottom rect)%Q.

(** A point strictly inside a rectangle. *)
Definition strictlyInside (point : Point) (rect : DOMRect) : Prop :=
  (left rect < x point)%Q /\ (x point < right rect)%Q
  /\ (top rect < y point)%Q /\ (y point < bottom rect)%Q.

(** A point strictly outside a rectangle: off the closed rectangle. *)
Definition strictlyOutside (point : Point) (rect : DOMRect) : Prop :=
  (x point < left rect)%Q \/ (right rect < x point)%Q
  \/ (y point < top rect)%Q \/ (bottom rect < y point)%Q.

(** The cross product of [q - r] and [p - r].  The inner loops of
    [getHullPresorted] pop [q] exactly when it is not negative. *)
Definition cross (r q p : Point) : Num.number :=
  ((x q - x r) * (y p - y r) - (y q - y r) * (x p - x r))%Q.

(** Two points with the same coordinates. *)
Definition peq (a b : Point) : Prop := (x a == x b)%Q /\ (y a == y b)%Q.

(** The order of [comparePoints]: by [x], then by [y]. *)
Definition lexle (a b : Point) : Prop :=
  (x a < x b)%Q \/ ((x a == x b)%Q /\ (y a <= y b)%Q).

Definition lexge (a b : Point) : Prop := lexle b a.

(** Neighbours in a list: pairs and triples of consecutive elements. *)
Fixpoint adjPairs {A : Type} (l : list A) : list (A * A) :=
  match l with
  | a :: (b :: _) as t => (a, b) :: adjPairs t
  | _ => []
  end.

Fixpoint adjTriples {A : Type} (l : list A) : list (A * A * A) :=
  match l with
  | a :: (b :: c :: _) as t => (a, b, c) :: adjTriples t
  | _ => []
  end.

(** The edges of a polygon, the last vertex joined to the first, and its
    triples of consecutive vertices, going round. *)
Definition cyclicEdges (h : Polygon) : list (Point * Point) :=
  adjPairs (h ++ take 1 h).

Definition cyclicTriples (h : Polygon) : list (Point * Point * Point) :=
  adjTriples (h ++ take 2 h).

(** A point on or inside a polygon whose vertices turn the way the hull's
    do: it is on no edge's outer side. *)
Definition onOrInside (p : Point) (h : Polygon) : Prop :=
  forall a b, In (a, b) (cyclicEdges h) -> (cross a b p <= 0)%Q.

(** Every three consecutive vertices turn the same way, strictly. *)
Definition turnsConsistently (h : Polygon) : Prop :=
  forall a b c, In (a, b, c) (cyclicTriples h) -> (cross a b c < 0)%Q.

(** All the points of a list on one line. *)
Definition collinear (pts : list Point) : Prop :=
  forall p q r, In p pts -> In q pts -> In r pts -> (cross p q r == 0)%Q.

(** ** The scan on a stack

    The hull under construction, top of the stack first: the list is the
    array read from its last index down. *)
Fixpoint popWhile (stk : list Point) (p : Point) : list Point :=
  match stk with
  | q :: (r :: _) as rest => if nonLeftTurn r q p then popWhile rest p else stk
  | _ => stk
  end.

Definition scanStep (stk : list Point) (p : Point) : list Point :=
  p :: popWhile stk p.

Definition scan (pts : list Point) : list Point := fold_left scanStep pts [].

(** [getHullPresorted] with its two loops replaced by the scan. *)
Definition hullOfScans (points : list Point) : list Point :=
  if (length points <=? 1)%nat then points
  else
    let upperHull := rev (tl (scan points)) in
    let lowerHull := rev (tl (scan (rev points))) in
    match upperHull, lowerHull with
    | [u], [l] =>
        if Num.strictEq (x u) (x l) && Num.strictEq (y u) (y l)
        then upperHull
        else upperHull ++ lowerHull
    | _, _ => upperHull ++ lowerHull
    end.

(** The invariant of the scan of a sorted array: the stack [stk], top first,
    after the points [ps] were scanned, for the order [le] in which the
    scanned points advance. *)
Record ChainInv (le : Point -> Point -> Prop) (ps stk : list Point) : Prop :=
  { ci_turns : forall c b a, In (c, b, a) (adjTriples stk) -> (cross a b c < 0)%Q;
    ci_below : forall b a, In (b, a) (adjPairs stk) ->
                           forall p, In p ps -> (cross a b p <= 0)%Q;
    ci_sorted : forall b a, In (b, a) (adjPairs stk) -> le a b;
    ci_top : forall t, head stk = Some t -> forall p, In p ps -> le p t;
    ci_bot : forall z, last stk = Some z -> forall p, In p ps -> le z p;
    ci_sub : forall s, In s stk -> In s ps;
    ci_nonempty : ps <> [] -> stk <> [] }.

(** The two chains of a hull: the upper chain from [a] to [m] with inner
    vertices [us], the lower chain from [m] back to [a] with inner
    vertices [ls]. *)
Record ClosedChains (pts : list Point) (a m : Point) (us ls : list Point)
    : Prop :=
  { cc_turns_U : forall u v w,
      In (u, v, w) (adjTriples (a :: us ++ [m])) -> (cross u v w < 0)%Q;
    cc_turns_L : forall u v w,
      In (u, v, w) (adjTriples (m :: ls ++ [a])) -> (cross u v w < 0)%Q;
    cc_below_U : forall u v,
      In (u, v) (adjPairs (a :: us ++ [m])) ->
      forall p, In p pts -> (cross u v p <= 0)%Q;
    cc_below_L : forall u v,
      In (u, v) (adjPairs (m :: ls ++ [a])) ->
      forall p, In p pts -> (cross u v p <= 0)%Q;
    cc_sorted_U : forall u v, In (u, v) (adjPairs (a :: us ++ [m])) -> lexle u v;
    cc_sorted_L : forall u v, In (u, v) (adjPairs (m :: ls ++ [a])) -> lexle v u;
    cc_sub_U : forall v, In v (a :: us ++ [m]) -> In v pts;
    cc_sub_L : forall v, In v (m :: ls ++ [a]) -> In v pts;
    cc_least : forall p, In p pts -> lexle a p;
    cc_greatest : forall p, In p pts -> lexle p m }.

(** The flag and the polygon agree: [isPointerInTransit.value === true]
    exactly when a polygon is stored. *)
Definition inSync {element : Type} (s : State element) : Prop :=
  value (isPointerInTransit s) = true <-> pointerGraceArea s <> None.

(** ** A page to run the tracker on

    Elements are numbered; a node is an element or, as [None], the document
    itself, which is not an element.  The trigger is the square from (0,0)
    to (10,10), the content the square below it from (0,20) to (10,30). *)
Module Page.

Definition node : Type := option nat.
Definition element : Type := nat.

Definition isHTMLElement (n : node) : option element := n.

Definition isElementOrSVGElement (n : node) : bool :=
  match n with Some _ => true | None => false end.

Definition trigger : element := 1%nat.
Definition content : element := 2%nat.
Definition elsewhere : element := 3%nat.

Definition dom : Dom node element :=
  {| contains := fun el n =>
       match n with Some m => Nat.eqb el m | None => false end;
     getBoundingClientRect := fun el =>
       if Nat.eqb el trigger
       then {| top := 0; right := 10; bottom := 10; left := 0 |}
       else {| top := 20; right := 10; bottom := 30; left := 0 |} |}.

(** The pointer leaves the trigger through its lower edge. *)
Definition leave : PointerEvent node :=
  {| clientX := 5; clientY := 10;
     currentTarget := Some trigger; target := Some trigger |}.

(** The pointer far from both squares, over another element. *)
Definition moveAway : PointerEvent node :=
  {| clientX := 100; clientY := 100;
     currentTarget := None; target := Some elsewhere |}.

(** The same position, in an event dispatched on the document itself. *)
Definition moveOnDocument : PointerEvent node :=
  {| clientX := 100; clientY := 100;
     currentTarget := None; target := None |}.

(** The pointer between the two squares, over another element. *)
Definition moveBetween : PointerEvent node :=
  {| clientX := 5; clientY := 15;
     currentTarget := None; target := Some elsewhere |}.

Definition step := step node element isHTMLElement isElementOrSVGElement.
Definition run := run node element isHTMLElement isElementOrSVGElement.

(** Both nodes mounted, then the pointer leaves the trigger. *)
Definition opening : list (Dom node element * Event node element) :=
  [ (dom, SetTriggerNode (Some trigger));
    (dom, SetContentNode (Some content));
    (dom, TriggerPointerLeave leave) ].

(** The state once both nodes are mounted, and the state once the
    pointer has left the trigger. *)
Definition mounted : State element :=
  {| triggerNode := Some trigger; contentNode := Some content;
     isPointerInTransit := {| value := false; pending := false |};
     pointerGraceArea := None |}.

(** The polygon that is stored then: the hull of the two padded exit
    points and the four corners of the content. *)
Definition graceArea : Polygon :=
  [ {| x := 5 - 5; y := 10 - 5 |}; {| x := 0; y := 30 |};
    {| x := 10; y := 30 |}; {| x := 5 + 5; y := 10 - 5 |} ].

Definition opened : State element :=
  {| triggerNode := Some trigger; contentNode := Some content;
     isPointerInTransit := {| value := true; pending := true |};
     pointerGraceArea := Some graceArea |}.

(** The state after the timer has fired on [opened]. *)
Definition expired : State element :=
  {| triggerNode := Some trigger; contentNode := Some content;
     isPointerInTransit := {| value := false; pending := false |};
     pointerGraceArea := Some graceArea |}.

End Page.

(** ** Runs on the store *)

(** [runs m h a h']: from the store [h], [m] returns [a] and leaves [h']. *)
Definition runs {A : Type} (m : Imp.M A) (h : Imp.store) (a : A) (h' : Imp.store) : Prop :=
  m h = Some (a, h').

(** Every array of [h] is in [h'], with the same elements in the same
    order. *)
Definition preserved (h h' : Imp.store) : Prop :=
  forall l v, h !! l = Some v -> h' !! l = Some v.

(** ** Further vocabulary *)

(** How many of the edges [l] a test accepts. *)
Fixpoint countEdges (f : Point -> Point -> bool) (l : list (Point * Point)) : nat :=
  match l with
  | [] => 0
  | (a, b) :: l' => (if f a b then 1 else 0) + countEdges f l'
  end.

(** The number of edges of a polygon, the last vertex joined to the first,
    that the edge test of [isPointInPolygon] accepts: the loop tests the
    edge from [a] to [b] as [intersect point b a]. *)
Definition crossings (point : Point) (polygon : Polygon) : nat :=
  countEdges (fun a b => intersect point b a) (cyclicEdges polygon).

(** A vertex above the level of the point: [yi > y] of the edge test. *)
Definition above (p v : Point) : bool := Num.gt (y v) (y p).

(** An edge from a vertex above the level of the point to one that is not,
    and the other way round: the two ways in which [(yi > y) !== (yj > y)]
    holds. *)
Definition goesDown (p a b : Point) : bool := above p a && negb (above p b).

Definition goesUp (p a b : Point) : bool := negb (above p a) && above p b.

(** A point strictly inside a polygon whose vertices turn the way the
    hull's do: on the inner side of every edge. *)
Definition strictlyWithin (p : Point) (h : Polygon) : Prop :=
  forall a b, In (a, b) (cyclicEdges h) -> (cross a b p < 0)%Q.

(** A point off such a polygon: on the outer side of some edge. *)
Definition strictlyBeyond (p : Point) (h : Polygon) : Prop :=
  exists a b, In (a, b) (cyclicEdges h) /\ (0 < cross a b p)%Q.

(** A convex polygon, its vertices in the order in which the hull lists
    them: no vertex is on the outer side of an edge, and every three
    consecutive vertices turn strictly. *)
Definition convexPolygon (h : Polygon) : Prop :=
  (forall v, In v h -> onOrInside v h) /\ turnsConsistently h.

(** No two positions of the array hold the same point. *)
Definition distinctVertices (h : Polygon) : Prop :=
  forall i j a b, h !! i = Some a -> h !! j = Some b -> peq a b -> i = j.

(** Strictly before, in the order of the sort. *)
Definition lexlt (a b : Point) : Prop := lexle a b /\ ~ peq a b.

(** The two edges and the middle vertex of three consecutive vertices. *)
Definition firstEdge {A : Type} (t : A * A * A) : A * A := (t.1.1, t.1.2).

Definition secondEdge {A : Type} (t : A * A * A) : A * A := (t.1.2, t.2).

Definition middle {A : Type} (t : A * A * A) : A := t.1.2.

(** Two arrays of the same length with the same coordinates at every
    index. *)
Definition samePoints (h h' : list Point) : Prop := Forall2 peq h h'.

(** A point moved by [(dx, dy)]. *)
Definition translate (dx dy : Num.number) (p : Point) : Point :=
  {| x := (x p + dx)%Q; y := (y p + dy)%Q |}.

(** A point of a rectangle, its boundary included. *)
Definition inRect (p : Point) (rect : DOMRect) : Prop :=
  (left rect <= x p)%Q /\ (x p <= right rect)%Q
  /\ (top rect <= y p)%Q /\ (y p <= bottom rect)%Q.

(** The [pointerleave] events of the trigger in a sequence of events. *)
Definition isTriggerLeave {node element : Type} (ev : Event node element) : bool :=
  match ev with
  | TriggerPointerLeave _ => true
  | _ => false
  end.

Fixpoint triggerLeaves {node element : Type}
    (evs : list (Dom node element * Event node element)) : nat :=
  match evs with
  | [] => 0
  | (_, ev) :: evs' => (if isTriggerLeave ev then 1 else 0) + triggerLeaves evs'
  end.

(** 1 while a polygon is stored, 0 otherwise. *)
Definition stored {element : Type} (s : State element) : nat :=
  match pointerGraceArea s with
  | Some _ => 1
  | None => 0
  end.

(** What the tracker stores: a polygon that lists no point twice, has at
    most six vertices, and is convex when it has three or more. *)
Definition hullOfSix (g : Polygon) : Prop :=
  distinctVertices g
  /\ (length g <= 6)%nat
  /\ ((3 <= length g)%nat -> convexPolygon g).

(** * Properties *)

(** ** Numbers *)

Module NumFacts.
Import Num.

Lemma lt_iff a b : lt a b = true <-> (a < b)%Q.
Proof.
  unfold lt. rewrite negb_true_iff.
  destruct (Qle_bool b a) eqn:E.
  - apply Qle_bool_iff in E. split; [discriminate | intros H; lra].
  - split; [intros _ | reflexivity].
    destruct (Qlt_le_dec a b) as [H | H]; [exact H |].
    apply Qle_bool_iff in H. congruence.
Qed.

Lemma lt_false_iff a b : lt a b = false <-> (b <= a)%Q.
Proof.
  unfold lt. rewrite negb_false_iff. apply Qle_bool_iff.
Qed.

Lemma gt_iff a b : gt a b = true <-> (b < a)%Q.
Proof. apply lt_iff. Qed.

Lemma gt_false_iff a b : gt a b = false <-> (a <= b)%Q.
Proof. apply lt_false_iff. Qed.

Lemma ge_iff a b : ge a b = true <-> (b <= a)%Q.
Proof. apply Qle_bool_iff. Qed.

Lemma ge_false_iff a b : ge a b = false <-> (a < b)%Q.
Proof.
  unfold ge. destruct (Qle_bool b a) eqn:E.
  - apply Qle_bool_iff in E. split; [discriminate | intros H; lra].
  - split; [intros _ | reflexivity].
    destruct (Qlt_le_dec a b) as [H | H]; [exact H |].
    apply Qle_bool_iff in H. congruence.
Qed.

Lemma strictEq_iff a b : strictEq a b = true <-> (a == b)%Q.
Proof. apply Qeq_bool_iff. Qed.

Lemma strictEq_false_iff a b : strictEq a b = false <-> ~ (a == b)%Q.
Proof.
  unfold strictEq. split.
  - apply Qeq_bool_neq.
  - intros H. destruct (Qeq_bool a b) eqn:E; [|reflexivity].
    apply Qeq_bool_iff in E. contradiction.
Qed.

(** The minimum of four numbers is below each of them and is one of them. *)
Lemma Math_min_le a b c d :
  let m := Math_min a b c d in
  (m <= a /\ m <= b /\ m <= c /\ m <= d)%Q.
Proof.
  unfold Math_min. cbn zeta.
  pose proof (Q.le_min_l (Qmin (Qmin a b) c) d).
  pose proof (Q.le_min_r (Qmin (Qmin a b) c) d).
  pose proof (Q.le_min_l (Qmin a b) c).
  pose proof (Q.le_min_r (Qmin a b) c).
  pose proof (Q.le_min_l a b).
  pose proof (Q.le_min_r a b).
  repeat split; lra.
Qed.

Lemma Math_min_attained a b c d :
  let m := Math_min a b c d in
  (m == a \/ m == b \/ m == c \/ m == d)%Q.
Proof.
  unfold Math_min. cbn zeta.
  destruct (Q.min_spec (Qmin (Qmin a b) c) d) as [[_ E3] | [_ E3]];
    rewrite E3; [| do 3 right; reflexivity].
  destruct (Q.min_spec (Qmin a b) c) as [[_ E2] | [_ E2]];
    rewrite E2; [| do 2 right; left; reflexivity].
  destruct (Q.min_spec a b) as [[_ E1] | [_ E1]]; rewrite E1;
    [left | right; left]; reflexivity.
Qed.

End NumFacts.

(** ** Exit side *)

Section ExitSide.
Import Num NumFacts.

(** What [getExitSideFromRect] returns, case by case. *)
Lemma getExitSideFromRect_cases point rect :
  let m := Math_min (sideDistance point rect top_side)
                    (sideDistance point rect bottom_side)
                    (sideDistance point rect right_side)
                    (sideDistance point rect left_side) in
  (getExitSideFromRect point rect = Ok left_side
   /\ m == sideDistance point rect left_side)%Q
  \/ (getExitSideFromRect point rect = Ok right_side
      /\ m == sideDistance point rect right_side
      /\ ~ m == sideDistance point rect left_side)%Q
  \/ (getExitSideFromRect point rect = Ok top_side
      /\ m == sideDistance point rect top_side
      /\ ~ m == sideDistance point rect left_side
      /\ ~ m == sideDistance point rect right_side)%Q
  \/ (getExitSideFromRect point rect = Ok bottom_side
      /\ m == sideDistance point rect bottom_side
      /\ ~ m == sideDistance point rect left_side
      /\ ~ m == sideDistance point rect right_side
      /\ ~ m == sideDistance point rect top_side)%Q.
Proof.
  intros m. unfold getExitSideFromRect, Math_abs.
  fold (sideDistance point rect top_side).
  fold (sideDistance point rect bottom_side).
  fold (sideDistance point rect right_side).
  fold (sideDistance point rect left_side).
  fold m.
  destruct (strictEq m (sideDistance point rect left_side)) eqn:El.
  { left. split; [reflexivity | now apply strictEq_iff]. }
  apply strictEq_false_iff in El.
  destruct (strictEq m (sideDistance point rect right_side)) eqn:Er.
  { right; left. repeat split; [now apply strictEq_iff | exact El]. }
  apply strictEq_false_iff in Er.
  destruct (strictEq m (sideDistance point rect top_side)) eqn:Et.
  { right; right; left.
    repeat split; [now apply strictEq_iff | exact El | exact Er]. }
  apply strictEq_false_iff in Et.
  destruct (strictEq m (sideDistance point rect bottom_side)) eqn:Eb.
  { right; right; right.
    repeat split; [now apply strictEq_iff | exact El | exact Er | exact Et]. }
  apply strictEq_false_iff in Eb.
  exfalso.
  destruct (Math_min_attained (sideDistance point rect top_side)
              (sideDistance point rect bottom_side)
              (sideDistance point rect right_side)
              (sideDistance point rect left_side)) as [H | [H | [H | H]]];
    fold m in H; contradiction.
Qed.

(** C4: [getExitSideFromRect] returns a side whose boundary distance is
    the smallest of the four, and among the sides at that smallest
    distance it returns the first in the order left, right, top, bottom. *)
Theorem getExitSideFromRect_nearest_side (point : Point) (rect : DOMRect) :
  exists s : Side,
    getExitSideFromRect point rect = Ok s
    /\ (forall s', sideDistance point rect s <= sideDistance point rect s')%Q
    /\ (forall s', (sideDistance point rect s' == sideDistance point rect s)%Q ->
                   (sidePriority s <= sidePriority s')%nat).
Proof.
  pose proof (Math_min_le (sideDistance point rect top_side)
                (sideDistance point rect bottom_side)
                (sideDistance point rect right_side)
                (sideDistance point rect left_side)) as Hle.
  cbn zeta in Hle. destruct Hle as (Ht & Hb & Hr & Hl).
  destruct (getExitSideFromRect_cases point rect)
    as [(E & Hm) | [(E & Hm & Nl) | [(E & Hm & Nl & Nr) | (E & Hm & Nl & Nr & Nt)]]];
    cbn zeta in *.
  - exists left_side. split; [exact E |]. split.
    + intros []; cbn in *; lra.
    + intros s' _. cbn. lia.
  - exists right_side. split; [exact E |]. split.
    + intros []; cbn in *; lra.
    + intros [] Hs; cbn; try lia.
      exfalso. apply Nl; cbn in *; lra.
  - exists top_side. split; [exact E |]. split.
    + intros []; cbn in *; lra.
    + intros [] Hs; cbn; try lia; exfalso.
      * apply Nr; cbn in *; lra.
      * apply Nl; cbn in *; lra.
  - exists bottom_side. split; [exact E |]. split.
    + intros []; cbn in *; lra.
    + intros [] Hs; cbn; try lia; exfalso.
      * apply Nt; cbn in *; lra.
      * apply Nr; cbn in *; lra.
      * apply Nl; cbn in *; lra.
Qed.

(** C9: [getExitSideFromRect] never takes the [default] branch of its
    [switch]: the minimum of the four distances is [===] to one of them,
    so the function returns a side and does not throw. *)
Theorem getExitSideFromRect_total (point : Point) (rect : DOMRect) :
  let top := Math_abs (top rect - y point)%Q in
  let bottom := Math_abs (bottom rect - y point)%Q in
  let right := Math_abs (right rect - x point)%Q in
  let left := Math_abs (left rect - x point)%Q in
  let m := Math_min top bottom right left in
  (strictEq m left || strictEq m right || strictEq m top || strictEq m bottom
   = true)
  /\ (exists s : Side, getExitSideFromRect point rect = Ok s)
  /\ (forall msg, getExitSideFromRect point rect <> Throw msg).
Proof.
  intros t b r l m.
  assert (Hs : exists s : Side, getExitSideFromRect point rect = Ok s).
  { destruct (getExitSideFromRect_cases point rect)
      as [(E & _) | [(E & _) | [(E & _) | (E & _)]]]; eauto. }
  split; [| split; [exact Hs |]].
  - destruct (Math_min_attained t b r l) as [H | [H | [H | H]]];
      fold m in H; apply strictEq_iff in H; rewrite H;
      repeat rewrite orb_true_r; reflexivity.
  - intros msg E. destruct Hs as [s Hs]. congruence.
Qed.

End ExitSide.

(** ** Padded exit points *)

(** C8: with the default padding 5, [getPaddedExitPoints] returns exactly
    two points, offset from the exit point as the side prescribes:
    top (x-5, y+5), (x+5, y+5); bottom (x-5, y-5), (x+5, y-5);
    left (x+5, y-5), (x+5, y+5); right (x-5, y-5), (x-5, y+5). *)
Theorem getPaddedExitPoints_default (px py : Num.number) (side : Side) :
  let p := 5%Q in
  getPaddedExitPoints {| x := px; y := py |} side None =
  match side with
  | top_side =>
      [ {| x := (px - p)%Q; y := (py + p)%Q |}; {| x := (px + p)%Q; y := (py + p)%Q |} ]
  | bottom_side =>
      [ {| x := (px - p)%Q; y := (py - p)%Q |}; {| x := (px + p)%Q; y := (py - p)%Q |} ]
  | left_side =>
      [ {| x := (px + p)%Q; y := (py - p)%Q |}; {| x := (px + p)%Q; y := (py + p)%Q |} ]
  | right_side =>
      [ {| x := (px - p)%Q; y := (py - p)%Q |}; {| x := (px - p)%Q; y := (py + p)%Q |} ]
  end.
Proof. destruct side; reflexivity. Qed.

(** ** Point in polygon *)

Section PointInPolygon.
Import Num NumFacts.

Lemma lt_proper a a' b b' : (a == a')%Q -> (b == b')%Q -> lt a b = lt a' b'.
Proof. intros Ha Hb. unfold lt. now rewrite Ha, Hb. Qed.

(** The division of the edge test is evaluated only with a divisor that
    is not zero. *)
Lemma intersect_divisor point pi pj :
  Bool.eqb (gt (y pi) (y point)) (gt (y pj) (y point)) = false ->
  ~ (y pj - y pi == 0)%Q.
Proof.
  intros H E.
  assert (Hy : (y pj == y pi)%Q) by lra.
  unfold gt in H. rewrite (lt_proper (y point) (y point) (y pj) (y pi)) in H;
    [| reflexivity | exact Hy].
  rewrite Bool.eqb_reflx in H. discriminate.
Qed.

(** An edge is crossed by the ray in one direction exactly when it is in
    the other. *)
Lemma intersect_sym point a b : intersect point a b = intersect point b a.
Proof.
  unfold intersect. cbn zeta.
  replace (Bool.eqb (gt (y b) (y point)) (gt (y a) (y point)))
    with (Bool.eqb (gt (y a) (y point)) (gt (y b) (y point)))
    by (destruct (gt (y a) (y point)), (gt (y b) (y point)); reflexivity).
  destruct (Bool.eqb (gt (y a) (y point)) (gt (y b) (y point))) eqn:E;
    cbn [negb]; [reflexivity |].
  apply lt_proper; [reflexivity |].
  pose proof (intersect_divisor point a b E) as Hd.
  assert (Hd' : ~ (y a - y b == 0)%Q) by (intros H; apply Hd; lra).
  field. split; assumption.
Qed.

(** A horizontal edge is never crossed. *)
Lemma intersect_horizontal point a b :
  (y a == y b)%Q -> intersect point a b = false.
Proof.
  intros H. unfold intersect. cbn zeta. unfold gt.
  rewrite (lt_proper (y point) (y point) (y a) (y b)); [| reflexivity | exact H].
  now rewrite Bool.eqb_reflx.
Qed.

(** A vertical edge is crossed when the point is between its ends in [y]
    and left of it. *)
Lemma intersect_vertical point a b :
  (x a == x b)%Q ->
  intersect point a b =
  negb (Bool.eqb (gt (y a) (y point)) (gt (y b) (y point))) && lt (x point) (x a).
Proof.
  intros H. unfold intersect. cbn zeta.
  destruct (Bool.eqb (gt (y a) (y point)) (gt (y b) (y point))) eqn:E;
    cbn [negb andb]; [reflexivity |].
  apply lt_proper; [reflexivity |].
  pose proof (intersect_divisor point a b E) as Hd.
  field_simplify_eq; [| exact Hd]. rewrite H. ring.
Qed.



Lemma gt_cases a b : (gt a b = true /\ (b < a)%Q) \/ (gt a b = false /\ (a <= b)%Q).
Proof.
  destruct (gt a b) eqn:E; [left | right]; split; try reflexivity.
  - now apply gt_iff.
  - now apply gt_false_iff.
Qed.

Lemma lt_cases a b : (lt a b = true /\ (a < b)%Q) \/ (lt a b = false /\ (b <= a)%Q).
Proof.
  destruct (lt a b) eqn:E; [left | right]; split; try reflexivity.
  - now apply lt_iff.
  - now apply lt_false_iff.
Qed.

(** The test on the four-corner polygon of a rectangle, edge by edge. *)
Lemma isPointInPolygon_rect point rect :
  isPointInPolygon point (getPointsFromRect rect) =
  Some (xorb
          (negb (Bool.eqb (gt (top rect) (y point)) (gt (bottom rect) (y point)))
           && lt (x point) (left rect))
          (negb (Bool.eqb (gt (bottom rect) (y point)) (gt (top rect) (y point)))
           && lt (x point) (right rect))).
Proof.
  unfold isPointInPolygon, getPointsFromRect. cbn.
  rewrite (intersect_vertical point
             {| x := left rect; y := top rect |}
             {| x := left rect; y := bottom rect |}) by reflexivity.
  rewrite (intersect_horizontal point
             {| x := right rect; y := top rect |}
             {| x := left rect; y := top rect |}) by reflexivity.
  rewrite (intersect_vertical point
             {| x := right rect; y := bottom rect |}
             {| x := right rect; y := top rect |}) by reflexivity.
  rewrite (intersect_horizontal point
             {| x := left rect; y := bottom rect |}
             {| x := right rect; y := bottom rect |}) by reflexivity.
  cbn [x y].
  destruct (negb (Bool.eqb (gt (top rect) (y point)) (gt (bottom rect) (y point)))
            && lt (x point) (left rect));
    destruct (negb (Bool.eqb (gt (bottom rect) (y point)) (gt (top rect) (y point)))
              && lt (x point) (right rect)); reflexivity.
Qed.


End PointInPolygon.


(** ** Plane geometry of the turn test *)

Section Geometry.
Import Num NumFacts.
Local Open Scope Q_scope.

Lemma nonLeftTurn_true r q p : nonLeftTurn r q p = true <-> 0 <= cross r q p.
Proof.
  unfold nonLeftTurn, cross. rewrite ge_iff. split; intros H; lra.
Qed.

Lemma nonLeftTurn_false r q p : nonLeftTurn r q p = false <-> cross r q p < 0.
Proof.
  unfold nonLeftTurn, cross. rewrite ge_false_iff. split; intros H; lra.
Qed.

Lemma peq_refl a : peq a a.
Proof. split; reflexivity. Qed.

Lemma peq_sym a b : peq a b -> peq b a.
Proof. intros [H1 H2]. split; symmetry; assumption. Qed.

Lemma peq_trans a b c : peq a b -> peq b c -> peq a c.
Proof. intros [H1 H2] [H3 H4]. split; lra. Qed.

Lemma peq_dec a b : {peq a b} + {~ peq a b}.
Proof.
  unfold peq. destruct (Qeq_dec (x a) (x b)), (Qeq_dec (y a) (y b));
    [left | right | right | right]; tauto.
Qed.

Lemma cross_peq r r' q q' p p' :
  peq r r' -> peq q q' -> peq p p' -> cross r q p == cross r' q' p'.
Proof.
  intros [H1 H2] [H3 H4] [H5 H6]. unfold cross.
  rewrite H1, H2, H3, H4, H5, H6. reflexivity.
Qed.

Lemma cross_swap r q p : cross r p q == - cross r q p.
Proof. unfold cross. ring. Qed.

Lemma cross_flip r q p : cross q r p == - cross r q p.
Proof. unfold cross. ring. Qed.

Lemma cross_rot r q p : cross q p r == cross r q p.
Proof. unfold cross. ring. Qed.

Lemma cross_same_l r p : cross r r p == 0.
Proof. unfold cross. ring. Qed.

Lemma cross_same_r r q : cross r q q == 0.
Proof. unfold cross. ring. Qed.

Lemma cross_same_o r q : cross r q r == 0.
Proof. unfold cross. ring. Qed.

(** *** The order of the sort *)

Lemma lexle_refl a b : peq a b -> lexle a b.
Proof. intros [H1 H2]. right. split; lra. Qed.

Lemma lexle_trans a b c : lexle a b -> lexle b c -> lexle a c.
Proof.
  unfold lexle. intros [H1 | [H1 H1']] [H2 | [H2 H2']];
    [left | left | left | right; split]; lra.
Qed.

Lemma lexle_total a b : lexle a b \/ lexle b a.
Proof.
  unfold lexle.
  destruct (Q_dec (x a) (x b)) as [[H | H] | H]; [tauto | tauto |].
  destruct (Qlt_le_dec (y a) (y b)) as [Hy | Hy].
  - left; right; split; lra.
  - right; right; split; lra.
Qed.

Lemma lexle_antisym a b : lexle a b -> lexle b a -> peq a b.
Proof.
  unfold lexle, peq. intros [H1 | [H1 H1']] [H2 | [H2 H2']]; split; lra.
Qed.

Lemma lexle_strict a m :
  lexle a m -> ~ peq a m -> x a < x m \/ (x a == x m /\ y a < y m).
Proof.
  unfold lexle, peq. intros [H | [H H']] N; [left; exact H | right].
  split; [exact H |].
  destruct (Qlt_le_dec (y a) (y m)); [assumption |].
  exfalso; apply N; split; lra.
Qed.

(** *** Four lemmas on chains that advance in the order of the sort *)

(** A chain that turns right twice: the third point is right of the
    first edge too. *)
Lemma lexle_chain a b c d :
  lexle a b -> lexle b c -> lexle c d ->
  cross a b c < 0 -> cross b c d < 0 -> cross a b d < 0.
Proof.
  unfold lexle, cross. destruct a, b, c, d; cbn. intros. nra.
Qed.

(** A point behind the top edge and not left of it is not left of the
    edge to a new point that is strictly right of the top edge. *)
Lemma lexle_behind r s q p :
  lexle r s -> lexle q s -> lexle s p ->
  cross r s q <= 0 -> cross r s p < 0 -> cross s p q <= 0.
Proof.
  unfold lexle, cross. destruct r, s, q, p; cbn. intros. nra.
Qed.

(** Popping [s]: a point between [r] and the new point [p], not left of
    the edge from [r] to [s], is not left of the edge from [r] to [p]. *)
Lemma lexle_pop r s q p :
  lexle r s -> lexle r q -> lexle q p ->
  cross r s q <= 0 -> 0 <= cross r s p ->
  (lexle s q -> cross s p q <= 0) -> cross r p q <= 0.
Proof.
  intros H1 H2 H3 H4 H5 H6.
  destruct H1 as [H1 | [H1 H1']].
  - clear H6. unfold lexle, cross in *. destruct r, s, q, p; cbn in *. nra.
  - destruct (Qlt_le_dec (y r) (y s)) as [Hy | Hy].
    + clear H6. unfold lexle, cross in *. destruct r, s, q, p; cbn in *. nra.
    + assert (H7 : cross s p q <= 0).
      { apply H6. destruct H2 as [H2 | [H2 H2']];
          [left; lra | right; split; lra]. }
      clear H6. unfold lexle, cross in *. destruct r, s, q, p; cbn in *. nra.
Qed.

Lemma ray_x a b m t :
  cross a m b == 0 ->
  cross m b t * (x a - x m) == cross m a t * (x b - x m).
Proof.
  intros H. unfold cross in *.
  assert (E : ((x b - x m) * (y t - y m) - (y b - y m) * (x t - x m)) * (x a - x m)
              - ((x a - x m) * (y t - y m) - (y a - y m) * (x t - x m)) * (x b - x m)
              == (x t - x m) * ((x m - x a) * (y b - y a) - (y m - y a) * (x b - x a)))
    by ring.
  rewrite H in E. lra.
Qed.

Lemma ray_y a b m t :
  cross a m b == 0 ->
  cross m b t * (y a - y m) == cross m a t * (y b - y m).
Proof.
  intros H. unfold cross in *.
  assert (E : ((x b - x m) * (y t - y m) - (y b - y m) * (x t - x m)) * (y a - y m)
              - ((x a - x m) * (y t - y m) - (y a - y m) * (x t - x m)) * (y b - y m)
              == (y t - y m) * ((x m - x a) * (y b - y a) - (y m - y a) * (x b - x a)))
    by ring.
  rewrite H in E. lra.
Qed.

(** Two points before [m] on one line through [m] see every point on
    the same side. *)
Lemma lexle_ray a b m t :
  lexle a m -> lexle b m -> ~ peq a m -> ~ peq b m ->
  cross a m b == 0 ->
  (cross m b t < 0 -> cross m a t < 0) /\ (0 < cross m b t -> 0 < cross m a t).
Proof.
  intros H1 H2 H3 H4 H5.
  pose proof (lexle_strict _ _ H1 H3) as K1.
  pose proof (lexle_strict _ _ H2 H4) as K2.
  pose proof (ray_x a b m t H5) as Ex.
  pose proof (ray_y a b m t H5) as Ey.
  clear H1 H2 H3 H4.
  destruct K1 as [K1 | [K1 K1']]; destruct K2 as [K2 | [K2 K2']].
  - split; intros; nra.
  - exfalso. unfold cross in H5. nra.
  - exfalso. unfold cross in H5. nra.
  - split; intros; nra.
Qed.

(** *** The same for chains that go back *)

Lemma lexge_refl a b : peq a b -> lexge a b.
Proof. intros H. apply lexle_refl, peq_sym, H. Qed.

Lemma lexge_trans a b c : lexge a b -> lexge b c -> lexge a c.
Proof. unfold lexge. intros H1 H2. exact (lexle_trans _ _ _ H2 H1). Qed.

Lemma lexge_total a b : lexge a b \/ lexge b a.
Proof. unfold lexge. apply lexle_total. Qed.

Lemma lexge_antisym a b : lexge a b -> lexge b a -> peq a b.
Proof. unfold lexge. intros H1 H2. exact (lexle_antisym _ _ H2 H1). Qed.

Lemma lexge_strict a m :
  lexge a m -> ~ peq a m -> x m < x a \/ (x a == x m /\ y m < y a).
Proof.
  unfold lexge, lexle, peq. intros [H | [H H']] N; [left; exact H | right].
  split; [lra |].
  destruct (Qlt_le_dec (y m) (y a)); [assumption |].
  exfalso; apply N; split; lra.
Qed.

Lemma lexge_chain a b c d :
  lexge a b -> lexge b c -> lexge c d ->
  cross a b c < 0 -> cross b c d < 0 -> cross a b d < 0.
Proof.
  unfold lexge, lexle, cross. destruct a, b, c, d; cbn. intros. nra.
Qed.

Lemma lexge_behind r s q p :
  lexge r s -> lexge q s -> lexge s p ->
  cross r s q <= 0 -> cross r s p < 0 -> cross s p q <= 0.
Proof.
  unfold lexge, lexle, cross. destruct r, s, q, p; cbn. intros. nra.
Qed.

Lemma lexge_pop r s q p :
  lexge r s -> lexge r q -> lexge q p ->
  cross r s q <= 0 -> 0 <= cross r s p ->
  (lexge s q -> cross s p q <= 0) -> cross r p q <= 0.
Proof.
  unfold lexge. intros H1 H2 H3 H4 H5 H6.
  destruct H1 as [H1 | [H1 H1']].
  - clear H6. unfold lexle, cross in *. destruct r, s, q, p; cbn in *. nra.
  - destruct (Qlt_le_dec (y s) (y r)) as [Hy | Hy].
    + clear H6. unfold lexle, cross in *. destruct r, s, q, p; cbn in *. nra.
    + assert (H7 : cross s p q <= 0).
      { apply H6. destruct H2 as [H2 | [H2 H2']];
          [left; lra | right; split; lra]. }
      clear H6. unfold lexle, cross in *. destruct r, s, q, p; cbn in *. nra.
Qed.

Lemma lexge_ray a b m t :
  lexge a m -> lexge b m -> ~ peq a m -> ~ peq b m ->
  cross a m b == 0 ->
  (cross m b t < 0 -> cross m a t < 0) /\ (0 < cross m b t -> 0 < cross m a t).
Proof.
  intros H1 H2 H3 H4 H5.
  pose proof (lexge_strict _ _ H1 H3) as K1.
  pose proof (lexge_strict _ _ H2 H4) as K2.
  pose proof (ray_x a b m t H5) as Ex.
  pose proof (ray_y a b m t H5) as Ey.
  clear H1 H2 H3 H4.
  destruct K1 as [K1 | [K1 K1']]; destruct K2 as [K2 | [K2 K2']].
  - split; intros; nra.
  - exfalso. unfold cross in H5. nra.
  - exfalso. unfold cross in H5. nra.
  - split; intros; nra.
Qed.

End Geometry.

(** ** Neighbours in lists *)

Section Neighbours.
Context {A : Type}.
Implicit Types l : list A.

Lemma last_rev l : last (rev l) = head l.
Proof. destruct l as [| a l]; [reflexivity | cbn [rev head]; apply last_snoc]. Qed.

Lemma head_rev l : head (rev l) = last l.
Proof. rewrite <- (rev_involutive l) at 2. now rewrite last_rev. Qed.

Lemma adjPairs_snoc l a :
  adjPairs (l ++ [a]) =
  adjPairs l ++ match last l with Some z => [(z, a)] | None => [] end.
Proof.
  induction l as [| b [| c l] IH]; [reflexivity | reflexivity |].
  change (adjPairs ((b :: c :: l) ++ [a]))
    with ((b, c) :: adjPairs ((c :: l) ++ [a])).
  rewrite IH. reflexivity.
Qed.

Lemma adjPairs_app_mid l1 m l2 :
  adjPairs (l1 ++ m :: l2) = adjPairs (l1 ++ [m]) ++ adjPairs (m :: l2).
Proof.
  induction l1 as [| b [| c l1] IH]; [reflexivity | reflexivity |].
  change (adjPairs ((b :: c :: l1) ++ m :: l2))
    with ((b, c) :: adjPairs ((c :: l1) ++ m :: l2)).
  rewrite IH. reflexivity.
Qed.

Lemma adjPairs_suffix l1 l2 p : In p (adjPairs l2) -> In p (adjPairs (l1 ++ l2)).
Proof.
  destruct l2 as [| m l2]; [intros [] |].
  intros H. rewrite adjPairs_app_mid. apply in_or_app. now right.
Qed.

Lemma adjPairs_In l a b : In (a, b) (adjPairs l) -> In a l /\ In b l.
Proof.
  induction l as [| c [| d l] IH]; [intros [] | intros [] |].
  intros [E | H].
  - inversion E; subst. split; [now left | right; now left].
  - destruct (IH H). split; now right.
Qed.

Lemma adjPairs_rev l a b : In (a, b) (adjPairs (rev l)) <-> In (b, a) (adjPairs l).
Proof.
  induction l as [| c l IH]; [reflexivity |].
  cbn [rev]. rewrite adjPairs_snoc, in_app_iff, IH.
  rewrite last_rev.
  destruct l as [| d l]; cbn [head adjPairs In].
  - tauto.
  - split.
    + intros [H | [E | []]]; [now right | left; congruence].
    + intros [E | H]; [right; left; congruence | now left].
Qed.

Lemma adjTriples_snoc l a :
  adjTriples (l ++ [a]) =
  adjTriples l
  ++ match rev l with z :: w :: _ => [(w, z, a)] | _ => [] end.
Proof.
  induction l as [| b [| c [| d l]] IH]; [reflexivity | reflexivity | reflexivity |].
  change (adjTriples ((b :: c :: d :: l) ++ [a]))
    with ((b, c, d) :: adjTriples ((c :: d :: l) ++ [a])).
  rewrite IH. cbn [adjTriples app]. f_equal. f_equal.
  cbn [rev]. rewrite <- !app_assoc. cbn [app].
  destruct (rev l) as [| z [| w r]]; reflexivity.
Qed.

Lemma adjTriples_rev l a b c :
  In (a, b, c) (adjTriples (rev l)) <-> In (c, b, a) (adjTriples l).
Proof.
  induction l as [| d l IH]; [reflexivity |].
  cbn [rev]. rewrite adjTriples_snoc, in_app_iff, IH, rev_involutive.
  destruct l as [| e [| f l]]; cbn [adjTriples In].
  - tauto.
  - tauto.
  - split.
    + intros [H | [E | []]]; [now right | left; congruence].
    + intros [E | H]; [right; left; congruence | now left].
Qed.

Lemma adjTriples_suffix l1 l2 t : In t (adjTriples l2) -> In t (adjTriples (l1 ++ l2)).
Proof.
  induction l1 as [| b l1 IH]; [trivial |].
  intros H. specialize (IH H). cbn [app].
  destruct (l1 ++ l2) as [| c [| d r]]; try contradiction.
  right. exact IH.
Qed.

Lemma adjTriples_app_mid l1 m l2 t :
  In t (adjTriples (l1 ++ m :: l2)) ->
  In t (adjTriples (l1 ++ [m])) \/ In t (adjTriples (m :: l2))
  \/ exists p q, last l1 = Some p /\ head l2 = Some q /\ t = (p, m, q).
Proof.
  induction l1 as [| b [| c l1] IH].
  - cbn [app]. tauto.
  - cbn [app]. destruct l2 as [| q l2]; [intros [] |].
    intros [E | H]; [| tauto].
    right; right. exists b, q. repeat split. now symmetry.
  - change ((b :: c :: l1) ++ m :: l2) with (b :: (c :: l1) ++ m :: l2).
    change ((b :: c :: l1) ++ [m]) with (b :: (c :: l1) ++ [m]).
    intros H.
    assert (H' : t = (b, c, hd m (l1 ++ [m]))
                 /\ hd m (l1 ++ [m]) = hd m (l1 ++ m :: l2)
                 \/ In t (adjTriples ((c :: l1) ++ m :: l2))).
    { cbn [app] in *. destruct l1 as [| d l1]; cbn [app adjTriples In hd] in *.
      - destruct H as [E | H]; [left; split; congruence | now right].
      - destruct H as [E | H]; [left; split; congruence | now right]. }
    destruct H' as [[E _] | H'].
    + left. cbn [app]. destruct l1 as [| d l1]; cbn [app adjTriples hd] in *;
        left; congruence.
    + destruct (IH H') as [K | [K | K]].
      * left. cbn [app] in *.
        destruct (l1 ++ [m]) as [| d r] eqn:E;
          [destruct l1; discriminate |]. right. exact K.
      * tauto.
      * right; right. destruct K as (p & q & Hp & Hq & Ht).
        exists p, q. repeat split; try assumption.
Qed.

Lemma adjTriples_In l a b c :
  In (a, b, c) (adjTriples l) -> In a l /\ In b l /\ In c l.
Proof.
  induction l as [| d [| e [| f l]] IH];
    [intros [] | intros [] | intros [] |].
  intros [E | K].
  - inversion E; subst. cbn. tauto.
  - destruct (IH K) as (H1 & H2 & H3). repeat split; now right.
Qed.

Lemma nil_or_not l : l = [] \/ l <> [].
Proof. destruct l; [now left | now right]. Qed.

Lemma adjPairs_last l p m : last l = Some p -> In (p, m) (adjPairs (l ++ [m])).
Proof.
  intros H. rewrite adjPairs_snoc, H. apply in_or_app. right. now left.
Qed.

Lemma adjTriples_last l p' p m :
  In (p', p, m) (adjTriples ((l ++ [p'; p]) ++ [m])).
Proof.
  rewrite adjTriples_snoc, rev_app_distr. cbn [rev app].
  apply in_or_app. right. now left.
Qed.

Lemma two_last l :
  (2 <= length l)%nat -> exists l' p' p, l = l' ++ [p'; p].
Proof.
  intros H. destruct l as [| x l] using rev_ind; [cbn in H; lia |].
  clear IHl. destruct l as [| y l] using rev_ind.
  - cbn in H. lia.
  - clear IHl. exists l, y, x. rewrite <- app_assoc. reflexivity.
Qed.

Lemma head_last_split l h z :
  (2 <= length l)%nat -> head l = Some h -> last l = Some z ->
  exists mid, l = h :: mid ++ [z].
Proof.
  intros Hlen Hh Hz. destruct l as [| h' l]; [discriminate |].
  cbn in Hh. injection Hh as ->.
  destruct l as [| z' l] using rev_ind; [cbn in Hlen; lia |].
  clear IHl. exists l. rewrite app_comm_cons, last_snoc in Hz.
  injection Hz as ->. reflexivity.
Qed.

End Neighbours.

(** ** The loop that pops *)

Section PopWhile.
Import Num NumFacts.
Local Open Scope Q_scope.

Lemma popWhile_eq q r rest p :
  popWhile (q :: r :: rest) p =
  if nonLeftTurn r q p then popWhile (r :: rest) p else q :: r :: rest.
Proof. reflexivity. Qed.

Lemma popWhile_suffix stk p : exists popped, stk = popped ++ popWhile stk p.
Proof.
  induction stk as [| q [| r rest] IH]; try (exists []; reflexivity).
  rewrite popWhile_eq. destruct (nonLeftTurn r q p).
  - destruct IH as [popped E]. exists (q :: popped). cbn [app]. now f_equal.
  - exists []. reflexivity.
Qed.

Lemma popWhile_exit stk p :
  match popWhile stk p with
  | q :: r :: _ => cross r q p < 0
  | _ => True
  end.
Proof.
  induction stk as [| q [| r rest] IH]; try exact I.
  rewrite popWhile_eq. destruct (nonLeftTurn r q p) eqn:E; [exact IH |].
  now apply nonLeftTurn_false.
Qed.

Lemma popWhile_last stk p : last (popWhile stk p) = last stk.
Proof.
  induction stk as [| q [| r rest] IH]; try reflexivity.
  rewrite popWhile_eq. destruct (nonLeftTurn r q p); [| reflexivity].
  rewrite IH. reflexivity.
Qed.

Lemma popWhile_nonempty stk p : stk <> [] -> popWhile stk p <> [].
Proof.
  intros H E.
  assert (K : last (popWhile stk p) = None) by (rewrite E; reflexivity).
  rewrite popWhile_last in K. apply last_None in K. contradiction.
Qed.

Lemma popWhile_length stk p : (length (popWhile stk p) <= length stk)%nat.
Proof.
  destruct (popWhile_suffix stk p) as [popped E].
  rewrite E at 2. rewrite length_app. lia.
Qed.

End PopWhile.

(** ** The scan of a sorted list

    The invariant of the scan, for an order [le] in which the scanned
    points advance: the order of the sort for the upper chain, its converse
    for the lower chain. *)

Section ChainScan.
Import Num NumFacts.
Local Open Scope Q_scope.

Variable le : Point -> Point -> Prop.
Hypothesis le_refl : forall a b, peq a b -> le a b.
Hypothesis le_trans : forall a b c, le a b -> le b c -> le a c.
Hypothesis le_total : forall a b, le a b \/ le b a.
Hypothesis le_antisym : forall a b, le a b -> le b a -> peq a b.
Hypothesis le_chain : forall a b c d,
  le a b -> le b c -> le c d ->
  cross a b c < 0 -> cross b c d < 0 -> cross a b d < 0.
Hypothesis le_behind : forall r s q p,
  le r s -> le q s -> le s p ->
  cross r s q <= 0 -> cross r s p < 0 -> cross s p q <= 0.
Hypothesis le_pop : forall r s q p,
  le r s -> le r q -> le q p ->
  cross r s q <= 0 -> 0 <= cross r s p ->
  (le s q -> cross s p q <= 0) -> cross r p q <= 0.

Lemma ChainInv_nil : ChainInv le [] [].
Proof. split; cbn; try tauto; try discriminate. Qed.

(** While the loop pops, every scanned point from the top on is not left
    of the segment from the top to the new point. *)
Lemma popWhile_front ps p stk :
  (forall b a, In (b, a) (adjPairs stk) -> le a b) ->
  (forall b a, In (b, a) (adjPairs stk) -> forall q, In q ps -> cross a b q <= 0) ->
  (forall q, In q ps -> le q p) ->
  (forall t, head stk = Some t -> forall q, In q ps -> le t q -> cross t p q <= 0) ->
  forall t, head (popWhile stk p) = Some t ->
            forall q, In q ps -> le t q -> cross t p q <= 0.
Proof.
  induction stk as [| s [| r rest] IH]; intros Hsort Hbelow Hmax Hfront;
    try exact Hfront.
  rewrite popWhile_eq. destruct (nonLeftTurn r s p) eqn:E; [| exact Hfront].
  apply nonLeftTurn_true in E.
  apply IH.
  - intros b a H. apply Hsort. now right.
  - intros b a H. apply Hbelow. now right.
  - exact Hmax.
  - intros t Ht q Hq Hle. cbn in Ht. injection Ht as <-.
    apply (le_pop r s q p).
    + apply Hsort. now left.
    + exact Hle.
    + now apply Hmax.
    + apply Hbelow; [now left | exact Hq].
    + exact E.
    + intros Hsq. apply (Hfront s); [reflexivity | exact Hq | exact Hsq].
Qed.

(** A point strictly right of the top edge of a chain is strictly right of
    all its edges. *)
Lemma chain_right p stk :
  (forall c b a, In (c, b, a) (adjTriples stk) -> cross a b c < 0) ->
  (forall b a, In (b, a) (adjPairs stk) -> le a b) ->
  match stk with
  | q :: r :: _ => cross r q p < 0 /\ le q p
  | _ => True
  end ->
  forall b a, In (b, a) (adjPairs stk) -> cross a b p < 0.
Proof.
  induction stk as [| q [| r rest] IH]; intros Hturn Hsort Htop b a Hin;
    try contradiction.
  destruct Htop as [Hc Hle].
  destruct Hin as [E | Hin]; [injection E as <- <-; exact Hc |].
  apply IH; try assumption.
  - intros c' b' a' H. apply Hturn.
    destruct rest; [contradiction | now right].
  - intros b' a' H. apply Hsort. now right.
  - destruct rest as [| t rest]; [exact I |].
    assert (Hrq : le r q) by (apply Hsort; now left).
    assert (Htr : le t r) by (apply Hsort; right; now left).
    split; [| exact (le_trans _ _ _ Hrq Hle)].
    apply (le_chain t r q p); try assumption.
    apply Hturn. now left.
Qed.

(** One step of the scan keeps the invariant. *)
Lemma scanStep_inv ps stk p :
  ChainInv le ps stk ->
  (forall q, In q ps -> le q p) ->
  ChainInv le (ps ++ [p]) (scanStep stk p).
Proof.
  intros Inv Hmax. unfold scanStep.
  destruct (popWhile_suffix stk p) as [popped Esuf].
  pose proof (popWhile_exit stk p) as Hexit.
  pose proof (popWhile_last stk p) as Hlast.
  pose proof (popWhile_nonempty stk p) as Hne.
  assert (Hsort : forall b a, In (b, a) (adjPairs (popWhile stk p)) -> le a b).
  { intros b a H. apply (ci_sorted _ _ _ Inv). rewrite Esuf.
    now apply adjPairs_suffix. }
  assert (Hbelow : forall b a, In (b, a) (adjPairs (popWhile stk p)) ->
                               forall q, In q ps -> cross a b q <= 0).
  { intros b a H. apply (ci_below _ _ _ Inv). rewrite Esuf.
    now apply adjPairs_suffix. }
  assert (Hturn : forall c b a, In (c, b, a) (adjTriples (popWhile stk p)) ->
                                cross a b c < 0).
  { intros c b a H. apply (ci_turns _ _ _ Inv). rewrite Esuf.
    now apply adjTriples_suffix. }
  assert (Hsub : forall s, In s (popWhile stk p) -> In s ps).
  { intros s H. apply (ci_sub _ _ _ Inv). rewrite Esuf.
    apply in_or_app. now right. }
  assert (Hfront : forall t, head (popWhile stk p) = Some t ->
                             forall q, In q ps -> le t q -> cross t p q <= 0).
  { apply popWhile_front.
    - exact (ci_sorted _ _ _ Inv).
    - exact (ci_below _ _ _ Inv).
    - exact Hmax.
    - intros t Ht q Hq Hle.
      assert (Hpeq : peq t q).
      { apply le_antisym; [exact Hle |]. exact (ci_top _ _ _ Inv t Ht q Hq). }
      rewrite (cross_peq t t p p q t (peq_refl t) (peq_refl p) (peq_sym _ _ Hpeq)).
      rewrite cross_same_o. lra. }
  destruct (popWhile stk p) as [| t rest] eqn:Epop.
  - (* the stack was empty *)
    assert (stk = []) by (destruct stk; [reflexivity | exfalso; now apply Hne]).
    assert (ps = []).
    { destruct ps; [reflexivity |]. exfalso. now apply (ci_nonempty _ _ _ Inv). }
    subst. cbn. split; cbn; try tauto; try discriminate.
    + intros t [= <-] q [<- | []]. apply le_refl, peq_refl.
    + intros z [= <-] q [<- | []]. apply le_refl, peq_refl.
  - (* the new point is pushed on [t :: rest] *)
    assert (Ht : In t ps) by (apply Hsub; now left).
    assert (Htp : le t p) by now apply Hmax.
    assert (Hright : forall b a, In (b, a) (adjPairs (t :: rest)) -> cross a b p < 0).
    { apply chain_right; try assumption.
      destruct rest; [exact I | now split]. }
    split.
    + intros c b a H.
      destruct rest as [| r rest']; [contradiction |].
      destruct H as [[= <- <- <-] | H]; [exact Hexit | now apply Hturn].
    + intros b a H q Hq. apply in_app_or in Hq.
      destruct H as [[= <- <-] | H].
      * destruct Hq as [Hq | [<- | []]]; [| rewrite cross_same_r; lra].
        destruct (le_total t q) as [Hle | Hle].
        { now apply (Hfront t). }
        destruct rest as [| r rest'].
        { apply (Hfront t); [reflexivity | exact Hq |].
          apply (ci_bot _ _ _ Inv); [| exact Hq].
          rewrite <- Hlast. reflexivity. }
        apply (le_behind r t q p); try assumption.
        -- apply Hsort. now left.
        -- apply Hbelow; [now left | exact Hq].
      * destruct Hq as [Hq | [<- | []]]; [now apply (Hbelow b a) |].
        apply Qlt_le_weak. now apply Hright.
    + intros b a [[= <- <-] | H]; [exact Htp | now apply Hsort].
    + intros t' [= <-] q Hq. apply in_app_or in Hq.
      destruct Hq as [Hq | [<- | []]]; [now apply Hmax | apply le_refl, peq_refl].
    + intros z Hz q Hq. apply in_app_or in Hq.
      assert (Hz' : last stk = Some z).
      { rewrite <- Hlast. rewrite <- Hz. reflexivity. }
      destruct Hq as [Hq | [<- | []]]; [exact (ci_bot _ _ _ Inv z Hz' q Hq) |].
      apply (le_trans z t p); [| exact Htp].
      exact (ci_bot _ _ _ Inv z Hz' t Ht).
    + intros s [<- | H]; apply in_or_app; [right; now left | left; now apply Hsub].
    + discriminate.
Qed.

(** The scan of a sorted list keeps the invariant. *)
Lemma fold_scanStep_inv rest : forall ps stk,
  ChainInv le ps stk ->
  StronglySorted le rest ->
  (forall q p, In q ps -> In p rest -> le q p) ->
  ChainInv le (ps ++ rest) (fold_left scanStep rest stk).
Proof.
  induction rest as [| p rest IH]; intros ps stk Inv Hsorted Hle.
  - rewrite app_nil_r. exact Inv.
  - cbn [fold_left].
    replace (ps ++ p :: rest) with ((ps ++ [p]) ++ rest)
      by (rewrite <- app_assoc; reflexivity).
    apply StronglySorted_inv in Hsorted. destruct Hsorted as [Hs Hall].
    apply IH.
    + apply scanStep_inv; [exact Inv |].
      intros q Hq. apply Hle; [exact Hq | now left].
    + exact Hs.
    + intros q r Hq Hr. apply in_app_or in Hq.
      destruct Hq as [Hq | [<- | []]].
      * apply Hle; [exact Hq | now right].
      * rewrite List.Forall_forall in Hall. now apply Hall.
Qed.

Theorem scan_inv pts : StronglySorted le pts -> ChainInv le pts (scan pts).
Proof.
  intros H. unfold scan.
  apply (fold_scanStep_inv pts [] [] ChainInv_nil H).
  intros q p [].
Qed.

End ChainScan.

(** ** The loops of [getHullPresorted] compute the scan *)

Section Bridge.
Import Num NumFacts.

Lemma hull_while_eq fuel hull p :
  hull_while fuel hull p =
  if (2 <=? length hull)%nat then
    match fuel with
    | O => None
    | S fuel' =>
        match hull !! (length hull - 1)%nat, hull !! (length hull - 2)%nat with
        | Some q, Some r =>
            if nonLeftTurn r q p then hull_while fuel' (Array_pop hull) p
            else Some hull
        | _, _ => None
        end
    end
  else Some hull.
Proof. destruct fuel; reflexivity. Qed.

Lemma Array_pop_snoc l a : Array_pop (l ++ [a]) = l.
Proof. apply removelast_last. Qed.

(** With fuel for every element of the array, the inner loop ends, and it
    pops what [popWhile] pops. *)
Lemma hull_while_popWhile p stk : forall fuel,
  (length stk <= fuel)%nat ->
  hull_while fuel (rev stk) p = Some (rev (popWhile stk p)).
Proof.
  induction stk as [| q [| r rest] IH]; intros fuel Hfuel.
  - rewrite hull_while_eq. reflexivity.
  - rewrite hull_while_eq. reflexivity.
  - rewrite hull_while_eq, popWhile_eq.
    assert (Hlen : length (rev (q :: r :: rest)) = S (S (length rest))).
    { rewrite length_rev. reflexivity. }
    rewrite Hlen. cbn [Nat.leb].
    destruct fuel as [| fuel']; [cbn in Hfuel; lia |].
    assert (Hq : rev (q :: r :: rest) !! (S (S (length rest)) - 1)%nat = Some q).
    { cbn [rev]. apply list_lookup_middle.
      rewrite length_app, length_rev. cbn. lia. }
    assert (Hr : rev (q :: r :: rest) !! (S (S (length rest)) - 2)%nat = Some r).
    { cbn [rev]. rewrite <- app_assoc. cbn [app].
      apply list_lookup_middle. rewrite length_rev. lia. }
    rewrite Hq, Hr.
    destruct (nonLeftTurn r q p); [| reflexivity].
    cbn [rev]. rewrite Array_pop_snoc.
    apply (IH fuel'). cbn in *. lia.
Qed.

Lemma upper_loop_scan pre : forall rest stk,
  upper_loop (pre ++ rest) (length rest) (length pre) (rev stk)
  = Some (rev (fold_left scanStep rest stk)).
Proof.
  intros rest. revert pre.
  induction rest as [| p rest IH]; intros pre stk; [reflexivity |].
  cbn [length upper_loop fold_left].
  rewrite list_lookup_middle by reflexivity. cbn [mbind option_bind].
  rewrite hull_while_popWhile by (rewrite length_rev; lia).
  cbn [mbind option_bind].
  specialize (IH (pre ++ [p]) (scanStep stk p)).
  rewrite <- app_assoc, length_app in IH. cbn [app length] in IH.
  replace (length pre + 1)%nat with (S (length pre)) in IH by lia.
  exact IH.
Qed.

Lemma lower_loop_scan pre : forall rest stk,
  lower_loop (pre ++ rest) (length pre) (rev stk)
  = Some (rev (fold_left scanStep (rev pre) stk)).
Proof.
  induction pre as [| p pre IH] using rev_ind; intros rest stk;
    [reflexivity |].
  rewrite length_app. cbn [length].
  replace (length pre + 1)%nat with (S (length pre)) by lia.
  cbn [lower_loop]. rewrite <- app_assoc. cbn [app].
  rewrite list_lookup_middle by reflexivity. cbn [mbind option_bind].
  rewrite hull_while_popWhile by (rewrite length_rev; lia).
  cbn [mbind option_bind].
  rewrite rev_app_distr. cbn [rev app fold_left].
  exact (IH (p :: rest) (scanStep stk p)).
Qed.

Lemma Array_pop_rev l : Array_pop (rev l) = rev (tl l).
Proof.
  destruct l as [| a l]; [reflexivity |]. cbn [rev tl]. apply Array_pop_snoc.
Qed.

(** [getHullPresorted] returns, and returns what the scans give. *)
Theorem getHullPresorted_scans points :
  getHullPresorted points = Some (hullOfScans points).
Proof.
  unfold getHullPresorted, hullOfScans.
  destruct (length points <=? 1)%nat; [reflexivity |].
  pose proof (upper_loop_scan [] points []) as HU.
  cbn [app length rev] in HU. rewrite HU. cbn [mbind option_bind].
  pose proof (lower_loop_scan points [] []) as HL.
  rewrite app_nil_r in HL. cbn [rev] in HL. rewrite HL.
  cbn [mbind option_bind].
  fold (scan points). fold (scan (rev points)).
  rewrite !Array_pop_rev.
  destruct (rev (tl (scan points))) as [| u [| u' U]];
    destruct (rev (tl (scan (rev points)))) as [| l [| l' L]]; try reflexivity.
  destruct (strictEq (x u) (x l) && strictEq (y u) (y l)); reflexivity.
Qed.

(** *** The sort *)

Lemma comparePoints_le a b :
  (comparePoints a b <=? 0)%Z = true <-> lexle a b.
Proof.
  unfold comparePoints, lexle, gt.
  destruct (lt (x a) (x b)) eqn:E1.
  { apply lt_iff in E1. split; [intros _; now left | reflexivity]. }
  apply lt_false_iff in E1.
  destruct (lt (x b) (x a)) eqn:E2.
  { apply lt_iff in E2. split; [discriminate | intros [H | [H _]]; lra]. }
  apply lt_false_iff in E2.
  destruct (lt (y a) (y b)) eqn:E3.
  { apply lt_iff in E3. split; [intros _; right; split; lra | reflexivity]. }
  apply lt_false_iff in E3.
  destruct (lt (y b) (y a)) eqn:E4.
  { apply lt_iff in E4. split; [discriminate | intros [H | [_ H]]; lra]. }
  apply lt_false_iff in E4.
  split; [intros _; right; split; lra | reflexivity].
Qed.

Lemma comparePoints_gt a b :
  (comparePoints a b <=? 0)%Z = false -> lexle b a.
Proof.
  intros H. destruct (lexle_total a b) as [K | K]; [| exact K].
  apply comparePoints_le in K. congruence.
Qed.

Lemma sort_insert_perm a l : Permutation (a :: l) (sort_insert comparePoints a l).
Proof.
  induction l as [| b l IH]; [reflexivity |].
  cbn [sort_insert]. destruct (comparePoints a b <=? 0)%Z; [reflexivity |].
  rewrite perm_swap. now apply perm_skip.
Qed.

Lemma Array_sort_perm l : Permutation l (Array_sort comparePoints l).
Proof.
  induction l as [| a l IH]; [reflexivity |].
  cbn [Array_sort foldr]. rewrite <- sort_insert_perm. now apply perm_skip.
Qed.

Lemma sort_insert_sorted a l :
  Sorted lexle l -> Sorted lexle (sort_insert comparePoints a l).
Proof.
  induction l as [| b l IH]; intros Hs.
  - repeat constructor.
  - cbn [sort_insert]. destruct (comparePoints a b <=? 0)%Z eqn:E.
    + apply comparePoints_le in E. constructor; [exact Hs | now constructor].
    + apply comparePoints_gt in E. inversion Hs as [| ? ? Hs' Hhd]; subst.
      constructor; [now apply IH |].
      destruct l as [| c l]; cbn [sort_insert].
      * now constructor.
      * destruct (comparePoints a c <=? 0)%Z; constructor; [exact E |].
        now inversion Hhd.
Qed.

Lemma Array_sort_sorted l : StronglySorted lexle (Array_sort comparePoints l).
Proof.
  apply Sorted_StronglySorted.
  - intros a b c. apply lexle_trans.
  - induction l as [| a l IH]; [constructor |].
    cbn [Array_sort foldr]. now apply sort_insert_sorted.
Qed.

Lemma Array_sort_In l p : In p (Array_sort comparePoints l) <-> In p l.
Proof.
  split; apply Permutation_in; [symmetry |]; apply Array_sort_perm.
Qed.

Lemma Array_sort_length l : length (Array_sort comparePoints l) = length l.
Proof. symmetry. apply Permutation_length, Array_sort_perm. Qed.

(** [getHull] returns, and returns what the scans of the sorted array give. *)
Theorem getHull_scans points :
  getHull points = Some (hullOfScans (Array_sort comparePoints points)).
Proof. unfold getHull. apply getHullPresorted_scans. Qed.

End Bridge.

(** ** Closing the two chains into a polygon *)

Section Junction.
Import Num NumFacts.
Local Open Scope Q_scope.

(** The order in which the first chain advances. *)
Variable le : Point -> Point -> Prop.
Hypothesis le_refl : forall a b, peq a b -> le a b.
Hypothesis le_trans : forall a b c, le a b -> le b c -> le a c.
Hypothesis le_antisym : forall a b, le a b -> le b a -> peq a b.
Hypothesis le_ray : forall a b m t,
  le a m -> le b m -> ~ peq a m -> ~ peq b m ->
  cross a m b == 0 ->
  (cross m b t < 0 -> cross m a t < 0) /\ (0 < cross m b t -> 0 < cross m a t).

(** The turn where a chain that arrives at [m] meets the chain that
    leaves it is strict as soon as one of the chains turns. *)
Lemma junction_strict p m q :
  le p m -> le q m -> ~ peq p m -> ~ peq q m ->
  cross p m q <= 0 ->
  (exists t, cross m q t < 0 /\ cross p m t <= 0)
  \/ (exists p', cross p' p m < 0 /\ cross m q p' <= 0) ->
  cross p m q < 0.
Proof.
  intros Hp Hq Np Nq Hle Hcase.
  destruct (Qlt_le_dec (cross p m q) 0) as [H | H]; [exact H |].
  assert (E : cross p m q == 0) by lra.
  exfalso. destruct Hcase as [(t & H1 & H2) | (p' & H1 & H2)].
  - destruct (le_ray p q m t Hp Hq Np Nq E) as [K _].
    specialize (K H1). rewrite cross_flip in K. lra.
  - assert (E' : cross q m p == 0).
    { assert (K : cross q m p == - cross p m q) by (unfold cross; ring). lra. }
    destruct (le_ray q p m p' Hq Hp Nq Np E') as [_ K].
    assert (H3 : 0 < cross m p p').
    { assert (K' : cross m p p' == - cross p' p m) by (unfold cross; ring). lra. }
    specialize (K H3). lra.
Qed.

Variables (pts us ls : list Point) (a m : Point).
Let Up := a :: us ++ [m].
Let Lp := m :: ls ++ [a].

Hypothesis turns_U : forall u v w, In (u, v, w) (adjTriples Up) -> cross u v w < 0.
Hypothesis turns_L : forall u v w, In (u, v, w) (adjTriples Lp) -> cross u v w < 0.
Hypothesis below_U :
  forall u v, In (u, v) (adjPairs Up) -> forall p, In p pts -> cross u v p <= 0.
Hypothesis below_L :
  forall u v, In (u, v) (adjPairs Lp) -> forall p, In p pts -> cross u v p <= 0.
Hypothesis sorted_U : forall u v, In (u, v) (adjPairs Up) -> le u v.
Hypothesis sorted_L : forall u v, In (u, v) (adjPairs Lp) -> le v u.
Hypothesis sub_U : forall v, In v Up -> In v pts.
Hypothesis sub_L : forall v, In v Lp -> In v pts.
Hypothesis least : forall p, In p pts -> le a p.
Hypothesis greatest : forall p, In p pts -> le p m.

Lemma all_peq_of_ends : peq a m -> forall p, In p pts -> peq p a.
Proof.
  intros E p Hp. apply le_antisym.
  - apply (le_trans p m a); [now apply greatest | apply le_refl, peq_sym, E].
  - now apply least.
Qed.

(** If one of the chains has an inner vertex, the ends differ. *)
Lemma ends_differ : us <> [] \/ ls <> [] -> ~ peq a m.
Proof.
  intros Hne E.
  pose proof (all_peq_of_ends E) as Hall.
  assert (Hm : peq m a) by now apply peq_sym.
  destruct Hne as [Hne | Hne].
  - destruct us as [| u us'] eqn:Eus; [contradiction |].
    destruct (us' ++ [m]) as [| w rest] eqn:Ew; [destruct us'; discriminate |].
    assert (Hu : In u pts) by (apply sub_U; right; now left).
    assert (Hw : In w pts).
    { apply sub_U. right. right. change (In w (us' ++ [m])).
      rewrite Ew. now left. }
    assert (Ht : cross a u w < 0).
    { apply turns_U. subst Up. cbn [app]. rewrite Ew. now left. }
    rewrite (cross_peq a a u a w a (peq_refl a) (Hall u Hu) (Hall w Hw)) in Ht.
    rewrite cross_same_l in Ht. lra.
  - destruct ls as [| l ls'] eqn:Els; [contradiction |].
    destruct (ls' ++ [a]) as [| w rest] eqn:Ew; [destruct ls'; discriminate |].
    assert (Hl : In l pts) by (apply sub_L; right; now left).
    assert (Hw : In w pts).
    { apply sub_L. right. right. change (In w (ls' ++ [a])).
      rewrite Ew. now left. }
    assert (Ht : cross m l w < 0).
    { apply turns_L. subst Lp. cbn [app]. rewrite Ew. now left. }
    rewrite (cross_peq m a l a w a Hm (Hall l Hl) (Hall w Hw)) in Ht.
    rewrite cross_same_l in Ht. lra.
Qed.

(** The turn at [m], from the first chain into the second, is strict. *)
Lemma junction_at_m :
  us <> [] \/ ls <> [] ->
  forall p q, last (a :: us) = Some p -> head (ls ++ [a]) = Some q ->
              cross p m q < 0.
Proof.
  intros Hne p q Hp Hq.
  assert (Hpm : In (p, m) (adjPairs Up)).
  { subst Up. rewrite app_comm_cons. now apply adjPairs_last. }
  assert (Hmq : In (m, q) (adjPairs Lp)).
  { subst Lp. destruct (ls ++ [a]) as [| q' rest]; [discriminate |].
    cbn in Hq. injection Hq as ->. now left. }
  assert (Hqpts : In q pts).
  { apply sub_L. exact (proj2 (adjPairs_In _ _ _ Hmq)). }
  assert (Hus : us <> [] -> exists p', In (p', p, m) (adjTriples Up)).
  { intros H. destruct (two_last (a :: us)) as (l' & p' & p0 & E).
    - destruct us; [contradiction | cbn; lia].
    - exists p'. rewrite E in Hp.
      replace (l' ++ [p'; p0]) with ((l' ++ [p']) ++ [p0]) in Hp
        by (rewrite <- app_assoc; reflexivity).
      rewrite last_snoc in Hp. injection Hp as <-. subst Up. rewrite app_comm_cons, E.
      apply adjTriples_last. }
  assert (Hls : ls <> [] -> exists t, In (m, q, t) (adjTriples Lp)).
  { intros H. subst Lp. destruct ls as [| l ls']; [contradiction |].
    cbn in Hq. injection Hq as ->.
    destruct (ls' ++ [a]) as [| t rest] eqn:E; [destruct ls'; discriminate |].
    exists t. cbn [app]. rewrite E. now left. }
  apply junction_strict.
  - now apply sorted_U.
  - now apply sorted_L.
  - intros E. destruct (nil_or_not us) as [Eus | Nus].
    + rewrite Eus in Hp. cbn in Hp. injection Hp as <-. now apply ends_differ.
    + destruct (Hus Nus) as [p' Hp'].
      apply turns_U in Hp'.
      rewrite (cross_peq p' p' p m m m (peq_refl p') E (peq_refl m)) in Hp'.
      rewrite cross_same_r in Hp'. lra.
  - intros E. destruct (nil_or_not ls) as [Els | Nls].
    + rewrite Els in Hq. cbn in Hq. injection Hq as <-.
      apply ends_differ; [exact Hne | exact E].
    + destruct (Hls Nls) as [t Ht].
      apply turns_L in Ht.
      rewrite (cross_peq m m q m t t (peq_refl m) E (peq_refl t)) in Ht.
      rewrite cross_same_l in Ht. lra.
  - now apply (below_U p m).
  - destruct Hne as [Hne | Hne].
    + right. destruct (Hus Hne) as [p' Hp']. exists p'. split.
      * now apply turns_U.
      * apply (below_L m q Hmq). apply sub_U.
        exact (proj1 (adjTriples_In _ _ _ _ Hp')).
    + left. destruct (Hls Hne) as [t Ht]. exists t. split.
      * now apply turns_L.
      * apply (below_U p m Hpm). apply sub_L.
        exact (proj2 (proj2 (adjTriples_In _ _ _ _ Ht))).
Qed.

End Junction.

(** ** The hull of a sorted array *)

Section Hull.
Import Num NumFacts.
Local Open Scope Q_scope.

Lemma fold_scanStep_head rest : forall stk,
  head (fold_left scanStep rest stk) =
  match last rest with Some p => Some p | None => head stk end.
Proof.
  induction rest as [| p rest IH]; intros stk; [reflexivity |].
  cbn [fold_left]. rewrite IH.
  destruct rest as [| q rest]; [reflexivity |].
  change (last (p :: q :: rest)) with (last (q :: rest)).
  destruct (last (q :: rest)) eqn:E; [reflexivity |].
  apply last_None in E. discriminate.
Qed.

Lemma fold_scanStep_last rest : forall stk,
  last (fold_left scanStep rest stk) =
  match last stk with Some z => Some z | None => head rest end.
Proof.
  induction rest as [| p rest IH]; intros stk.
  - cbn. destruct (last stk); reflexivity.
  - cbn [fold_left head]. rewrite IH. unfold scanStep.
    destruct (nil_or_not stk) as [-> | Hne]; [reflexivity |].
    pose proof (popWhile_nonempty stk p Hne) as Hne'.
    pose proof (popWhile_last stk p) as Hl.
    destruct (popWhile stk p) as [| t r] eqn:E; [contradiction |].
    change (last (p :: t :: r)) with (last (t :: r)).
    rewrite Hl. destruct (last stk) eqn:E'; [reflexivity |].
    apply last_None in E'. contradiction.
Qed.

Lemma fold_scanStep_length rest : forall stk,
  rest <> [] -> stk <> [] -> (2 <= length (fold_left scanStep rest stk))%nat.
Proof.
  induction rest as [| p rest IH]; intros stk Hr Hs; [contradiction |].
  cbn [fold_left].
  assert (Hlen : (2 <= length (scanStep stk p))%nat).
  { unfold scanStep. pose proof (popWhile_nonempty stk p Hs) as H.
    destruct (popWhile stk p); [contradiction | cbn; lia]. }
  destruct rest as [| q rest]; [exact Hlen |].
  apply IH; [discriminate |]. unfold scanStep. discriminate.
Qed.

Lemma scan_ends pts a m :
  (2 <= length pts)%nat -> head pts = Some a -> last pts = Some m ->
  exists mid, scan pts = m :: mid ++ [a].
Proof.
  intros Hlen Ha Hm. apply head_last_split.
  - destruct pts as [| p [| q rest]]; try (cbn in Hlen; lia).
    unfold scan.
    change (fold_left scanStep (p :: q :: rest) [])
      with (fold_left scanStep (q :: rest) (scanStep [] p)).
    apply fold_scanStep_length; [discriminate | unfold scanStep; discriminate].
  - unfold scan. rewrite fold_scanStep_head, Hm. reflexivity.
  - unfold scan. rewrite fold_scanStep_last. exact Ha.
Qed.

Lemma StronglySorted_snoc (R : Point -> Point -> Prop) l a :
  StronglySorted R l -> (forall b, In b l -> R b a) ->
  StronglySorted R (l ++ [a]).
Proof.
  induction 1 as [| b l Hs IH Hall]; intros Ha.
  - repeat constructor.
  - cbn [app]. constructor.
    + apply IH. intros c Hc. apply Ha. now right.
    + rewrite List.Forall_forall in *. intros c Hc.
      apply in_app_or in Hc. destruct Hc as [Hc | [<- | []]].
      * now apply Hall.
      * apply Ha. now left.
Qed.

Lemma StronglySorted_rev (pts : list Point) :
  StronglySorted lexle pts -> StronglySorted lexge (rev pts).
Proof.
  induction 1 as [| a l Hs IH Hall]; [constructor |].
  cbn [rev]. apply StronglySorted_snoc; [exact IH |].
  intros b Hb. apply in_rev in Hb.
  rewrite List.Forall_forall in Hall. now apply Hall.
Qed.

Lemma scan_inv_lexle pts :
  StronglySorted lexle pts -> ChainInv lexle pts (scan pts).
Proof.
  apply scan_inv.
  - exact lexle_refl.
  - exact lexle_trans.
  - exact lexle_total.
  - exact lexle_antisym.
  - exact lexle_chain.
  - exact lexle_behind.
  - exact lexle_pop.
Qed.

Lemma scan_inv_lexge pts :
  StronglySorted lexge pts -> ChainInv lexge pts (scan pts).
Proof.
  apply scan_inv.
  - exact lexge_refl.
  - exact lexge_trans.
  - exact lexge_total.
  - exact lexge_antisym.
  - exact lexge_chain.
  - exact lexge_behind.
  - exact lexge_pop.
Qed.

Lemma sorted_closedChains pts :
  StronglySorted lexle pts -> (2 <= length pts)%nat ->
  exists a m us ls,
    head pts = Some a /\ last pts = Some m
    /\ rev (tl (scan pts)) = a :: us
    /\ rev (tl (scan (rev pts))) = m :: ls
    /\ ClosedChains pts a m us ls.
Proof.
  intros Hs Hlen.
  destruct (head pts) as [a |] eqn:Ha;
    [| destruct pts; [cbn in Hlen; lia | discriminate]].
  destruct (last pts) as [m |] eqn:Hm;
    [| apply last_None in Hm; subst; cbn in Hlen; lia].
  destruct (scan_ends pts a m Hlen Ha Hm) as [mid EU].
  destruct (scan_ends (rev pts) m a) as [mid' EL].
  { now rewrite length_rev. }
  { now rewrite head_rev. }
  { now rewrite last_rev. }
  pose proof (scan_inv_lexle pts Hs) as IU.
  pose proof (scan_inv_lexge (rev pts) (StronglySorted_rev pts Hs)) as IL.
  assert (EUp : a :: rev mid ++ [m] = rev (scan pts)).
  { rewrite EU. cbn [rev]. rewrite rev_app_distr. reflexivity. }
  assert (ELp : m :: rev mid' ++ [a] = rev (scan (rev pts))).
  { rewrite EL. cbn [rev]. rewrite rev_app_distr. reflexivity. }
  exists a, m, (rev mid), (rev mid').
  split; [reflexivity |]. split; [reflexivity |].
  split; [rewrite EU; cbn [tl]; rewrite rev_app_distr; reflexivity |].
  split; [rewrite EL; cbn [tl]; rewrite rev_app_distr; reflexivity |].
  split; rewrite ?EUp, ?ELp.
  - intros u v w H. apply (proj1 (adjTriples_rev _ _ _ _)) in H. exact (ci_turns _ _ _ IU _ _ _ H).
  - intros u v w H. apply (proj1 (adjTriples_rev _ _ _ _)) in H. exact (ci_turns _ _ _ IL _ _ _ H).
  - intros u v H p Hp. apply (proj1 (adjPairs_rev _ _ _)) in H.
    exact (ci_below _ _ _ IU _ _ H p Hp).
  - intros u v H p Hp. apply (proj1 (adjPairs_rev _ _ _)) in H.
    apply (ci_below _ _ _ IL _ _ H p). now apply -> in_rev.
  - intros u v H. apply (proj1 (adjPairs_rev _ _ _)) in H. exact (ci_sorted _ _ _ IU _ _ H).
  - intros u v H. apply (proj1 (adjPairs_rev _ _ _)) in H. exact (ci_sorted _ _ _ IL _ _ H).
  - intros v H. apply in_rev in H. exact (ci_sub _ _ _ IU v H).
  - intros v H. apply in_rev in H. apply in_rev. exact (ci_sub _ _ _ IL v H).
  - intros p Hp. apply (ci_bot _ _ _ IU a); [| exact Hp].
    rewrite EU. rewrite app_comm_cons. apply last_snoc.
  - intros p Hp. apply (ci_top _ _ _ IU m); [| exact Hp].
    rewrite EU. reflexivity.
Qed.

(** No input point is on the outer side of an edge of the closed polygon. *)
Lemma closed_onOrInside pts a m us ls :
  ClosedChains pts a m us ls ->
  forall p, In p pts -> onOrInside p ((a :: us) ++ m :: ls).
Proof.
  intros CC p Hp u v H. unfold cyclicEdges in H.
  change (take 1 ((a :: us) ++ m :: ls)) with [a] in H.
  rewrite <- app_assoc in H.
  change ((m :: ls) ++ [a]) with (m :: ls ++ [a]) in H.
  rewrite adjPairs_app_mid in H. apply in_app_or in H.
  destruct H as [H | H].
  - exact (cc_below_U _ _ _ _ _ CC u v H p Hp).
  - exact (cc_below_L _ _ _ _ _ CC u v H p Hp).
Qed.

Lemma head_app_mid (l1 l2 : list Point) m :
  head (l1 ++ m :: l2) = head (l1 ++ [m]).
Proof. destruct l1; reflexivity. Qed.

(** With an inner vertex on one of the chains, every turn of the closed
    polygon is strict, the two turns where the chains meet included. *)
Lemma closed_turns pts a m us ls :
  ClosedChains pts a m us ls ->
  us <> [] \/ ls <> [] ->
  turnsConsistently ((a :: us) ++ m :: ls).
Proof.
  intros CC Hne u v w H. unfold cyclicTriples in H.
  destruct (us ++ m :: ls) as [| h1 rest] eqn:E; [destruct us; discriminate |].
  assert (Hh1 : head (us ++ [m]) = Some h1).
  { rewrite <- head_app_mid with (l2 := ls). rewrite E. reflexivity. }
  change ((a :: us) ++ m :: ls) with (a :: (us ++ m :: ls)) in H.
  rewrite E in H.
  change (take 2 (a :: h1 :: rest)) with [a; h1] in H.
  rewrite <- E in H.
  change (a :: us ++ m :: ls) with ((a :: us) ++ m :: ls) in H.
  rewrite <- app_assoc in H.
  change ((m :: ls) ++ [a; h1]) with (m :: (ls ++ [a; h1])) in H.
  apply adjTriples_app_mid in H.
  destruct H as [H | [H | (p & q & Hp & Hq & Ht)]].
  - exact (cc_turns_U _ _ _ _ _ CC u v w H).
  - change (m :: ls ++ [a; h1]) with ((m :: ls) ++ a :: [h1]) in H.
    apply adjTriples_app_mid in H.
    destruct H as [H | [H | (r & q & Hr & Hq & Ht)]].
    + exact (cc_turns_L _ _ _ _ _ CC u v w H).
    + destruct H.
    + injection Ht as -> -> ->. cbn in Hq. injection Hq as <-.
      apply (junction_at_m lexge lexge_refl lexge_trans lexge_antisym lexge_ray
               pts ls us m a);
        first [destruct CC; assumption | tauto].
  - injection Ht as -> -> ->.
    assert (Hq' : head (ls ++ [a]) = Some q).
    { rewrite <- Hq. symmetry.
      change (ls ++ [a; h1]) with (ls ++ a :: [h1]). apply head_app_mid. }
    apply (junction_at_m lexle lexle_refl lexle_trans lexle_antisym lexle_ray
             pts us ls a m);
      first [destruct CC; assumption | tauto].
Qed.

(** What [hullOfScans] is on a sorted array of two points or more. *)
Lemma hullOfScans_sorted pts :
  StronglySorted lexle pts -> (2 <= length pts)%nat ->
  exists a m us ls,
    head pts = Some a /\ last pts = Some m
    /\ ClosedChains pts a m us ls
    /\ ((us = [] /\ ls = [] /\ peq a m /\ hullOfScans pts = [a])
        \/ ((us <> [] \/ ls <> [] \/ ~ peq a m)
            /\ hullOfScans pts = (a :: us) ++ m :: ls)).
Proof.
  intros Hs Hlen.
  destruct (sorted_closedChains pts Hs Hlen)
    as (a & m & us & ls & Ha & Hm & EU & EL & CC).
  exists a, m, us, ls. split; [exact Ha |]. split; [exact Hm |].
  split; [exact CC |].
  unfold hullOfScans.
  replace (length pts <=? 1)%nat with false
    by (symmetry; apply Nat.leb_gt; lia).
  rewrite EU, EL.
  destruct us as [| u us']; [| right; split; [left; discriminate |]].
  - destruct ls as [| l ls']; [| right; split; [right; left; discriminate |]].
    + destruct (strictEq (x a) (x m) && strictEq (y a) (y m)) eqn:E.
      * left. apply andb_true_iff in E. destruct E as [E1 E2].
        apply strictEq_iff in E1. apply strictEq_iff in E2.
        repeat split; assumption.
      * right. split; [| reflexivity]. right; right. intros [E1 E2].
        apply strictEq_iff in E1. apply strictEq_iff in E2.
        rewrite E1, E2 in E. discriminate.
    + reflexivity.
  - destruct us'; reflexivity.
Qed.

Lemma onOrInside_single p a : onOrInside p [a].
Proof.
  intros u v [[= <- <-] | []]. rewrite cross_same_l. lra.
Qed.

(** The hull of a sorted array: its vertices are input points, no input
    point is outside it, every input point is between two of its vertices
    in the order of the sort, and its turns are strict. *)
Lemma hullOfScans_correct pts :
  StronglySorted lexle pts ->
  (forall v, In v (hullOfScans pts) -> In v pts)
  /\ (forall p, In p pts -> onOrInside p (hullOfScans pts))
  /\ (forall p, In p pts ->
       exists a b, In a (hullOfScans pts) /\ In b (hullOfScans pts)
                   /\ lexle a p /\ lexle p b)
  /\ ((3 <= length (hullOfScans pts))%nat -> turnsConsistently (hullOfScans pts)).
Proof.
  intros Hs.
  destruct (Nat.le_gt_cases (length pts) 1) as [Hlen | Hlen].
  - (* at most one point: the array itself *)
    assert (E : hullOfScans pts = pts).
    { unfold hullOfScans.
      replace (length pts <=? 1)%nat with true
        by (symmetry; apply Nat.leb_le; lia). reflexivity. }
    rewrite E. split; [trivial |]. split; [| split].
    + intros p Hp. destruct pts as [| a [| b l]]; [destruct Hp | | cbn in Hlen; lia].
      apply onOrInside_single.
    + intros p Hp. exists p, p.
      repeat split; try assumption; apply lexle_refl, peq_refl.
    + intros H. lia.
  - destruct (hullOfScans_sorted pts Hs Hlen)
      as (a & m & us & ls & Ha & Hm & CC & Hcase).
    assert (Hain : In a pts) by (apply (cc_sub_U _ _ _ _ _ CC); now left).
    assert (Hmin : In m pts) by (apply (cc_sub_L _ _ _ _ _ CC); now left).
    destruct Hcase as [(Eus & Els & Epeq & E) | (Hne & E)]; rewrite E.
    + split; [| split; [| split]].
      * intros v [<- | []]. exact Hain.
      * intros p Hp. apply onOrInside_single.
      * intros p Hp. exists a, a. repeat split; try (now left).
        -- exact (cc_least _ _ _ _ _ CC p Hp).
        -- apply (lexle_trans p m a); [exact (cc_greatest _ _ _ _ _ CC p Hp) |].
           apply lexle_refl, peq_sym, Epeq.
      * cbn. lia.
    + split; [| split; [| split]].
      * intros v Hv. apply in_app_or in Hv. destruct Hv as [Hv | Hv].
        -- apply (cc_sub_U _ _ _ _ _ CC). rewrite app_comm_cons.
           apply in_or_app. now left.
        -- apply (cc_sub_L _ _ _ _ _ CC). rewrite app_comm_cons.
           apply in_or_app. now left.
      * intros p Hp. now apply (closed_onOrInside pts).
      * intros p Hp. exists a, m. repeat split.
        -- now left.
        -- apply in_or_app. right. now left.
        -- exact (cc_least _ _ _ _ _ CC p Hp).
        -- exact (cc_greatest _ _ _ _ _ CC p Hp).
      * intros H3. apply (closed_turns pts); [exact CC |].
        destruct (nil_or_not us) as [Eus | Nus]; [| now left].
        destruct (nil_or_not ls) as [Els | Nls]; [| now right].
        subst. cbn in H3. lia.
Qed.


(** *** Degenerate inputs *)

Lemma collinear_no_inner pts a m us ls :
  ClosedChains pts a m us ls -> collinear pts -> us = [] /\ ls = [].
Proof.
  intros CC Hcol. split.
  - destruct us as [| u us']; [reflexivity | exfalso].
    destruct (us' ++ [m]) as [| w rest] eqn:E; [destruct us'; discriminate |].
    assert (Ht : In (a, u, w) (adjTriples (a :: (u :: us') ++ [m]))).
    { cbn [app]. rewrite E. now left. }
    pose proof (cc_turns_U _ _ _ _ _ CC _ _ _ Ht) as Hlt.
    destruct (adjTriples_In _ _ _ _ Ht) as (H1 & H2 & H3).
    rewrite (Hcol a u w) in Hlt; try (apply (cc_sub_U _ _ _ _ _ CC); assumption).
    lra.
  - destruct ls as [| l ls']; [reflexivity | exfalso].
    destruct (ls' ++ [a]) as [| w rest] eqn:E; [destruct ls'; discriminate |].
    assert (Ht : In (m, l, w) (adjTriples (m :: (l :: ls') ++ [a]))).
    { cbn [app]. rewrite E. now left. }
    pose proof (cc_turns_L _ _ _ _ _ CC _ _ _ Ht) as Hlt.
    destruct (adjTriples_In _ _ _ _ Ht) as (H1 & H2 & H3).
    rewrite (Hcol m l w) in Hlt; try (apply (cc_sub_L _ _ _ _ _ CC); assumption).
    lra.
Qed.

(** The hull of points on one line: the least and the greatest of them in
    the order of the sort, or the least alone when the two coincide. *)
Lemma getHull_collinear pts :
  collinear pts -> (2 <= length pts)%nat ->
  exists a m,
    In a pts /\ In m pts
    /\ (forall p, In p pts -> lexle a p /\ lexle p m)
    /\ ((peq a m /\ getHull pts = Some [a])
        \/ (~ peq a m /\ getHull pts = Some [a; m])).
Proof.
  intros Hcol Hlen. rewrite getHull_scans.
  set (S := Array_sort comparePoints pts).
  assert (HcolS : collinear S).
  { intros p q r Hp Hq Hr. apply Hcol; now apply Array_sort_In. }
  destruct (hullOfScans_sorted S (Array_sort_sorted pts))
    as (a & m & us & ls & Ha & Hm & CC & Hcase).
  { unfold S. now rewrite Array_sort_length. }
  destruct (collinear_no_inner S a m us ls CC HcolS) as [-> ->].
  exists a, m.
  split; [apply Array_sort_In, (cc_sub_U _ _ _ _ _ CC); now left |].
  split; [apply Array_sort_In, (cc_sub_L _ _ _ _ _ CC); now left |].
  split.
  { intros p Hp. apply Array_sort_In in Hp. split.
    - exact (cc_least _ _ _ _ _ CC p Hp).
    - exact (cc_greatest _ _ _ _ _ CC p Hp). }
  destruct Hcase as [(_ & _ & Epeq & E) | (Hne & E)]; rewrite E.
  - left. split; [exact Epeq | reflexivity].
  - right. split; [| reflexivity].
    destruct Hne as [Hne | [Hne | Hne]]; [contradiction | contradiction | exact Hne].
Qed.


End Hull.


(** ** The tracker *)

Section TrackerFacts.
Import Num NumFacts.

Variable node : Type.
Variable element : Type.
Variable isHTMLElement : node -> option element.
Variable isElementOrSVGElement : node -> bool.

Local Abbreviation dispatch :=
  (step node element isHTMLElement isElementOrSVGElement).
Local Abbreviation dispatchAll :=
  (run node element isHTMLElement isElementOrSVGElement).

Lemma isPointInPolygon_loop_total point polygon : forall todo i j inside,
  (i + todo = length polygon)%nat ->
  (todo = 0 \/ j < length polygon)%nat ->
  exists b, isPointInPolygon_loop point polygon todo i j inside = Some b.
Proof.
  induction todo as [| todo IH]; intros i j inside Hi Hj; [eexists; reflexivity |].
  cbn [isPointInPolygon_loop]. unfold Polygon in *.
  destruct (lookup_lt_is_Some_2 polygon i) as [pi Hpi]; [lia |].
  destruct (lookup_lt_is_Some_2 polygon j) as [pj Hpj]; [lia |].
  rewrite Hpi, Hpj. apply IH; lia.
Qed.

(** [isPointInPolygon] reads no missing element. *)
Lemma isPointInPolygon_total point polygon :
  exists b, isPointInPolygon point polygon = Some b.
Proof.
  unfold isPointInPolygon. apply isPointInPolygon_loop_total; [lia |].
  destruct polygon; [now left | right; cbn; lia].
Qed.

(** No handler throws. *)
Lemma step_total dom ev s : exists s' n, dispatch dom ev s = Ok (s', n).
Proof.
  destruct ev as [e | e | e | | n | n]; cbn [step];
    try (eexists; eexists; reflexivity).
  - destruct (triggerNode s), (contentNode s);
      try (eexists; eexists; reflexivity).
    unfold handleCreateGraceArea.
    destruct (isHTMLElement (currentTarget e)) as [ct |];
      [| eexists; eexists; reflexivity].
    match goal with
    | |- context [getExitSideFromRect ?p ?r] =>
        destruct (getExitSideFromRect_cases p r)
          as [(-> & _) | [(-> & _) | [(-> & _) | (-> & _)]]]
    end;
      rewrite getHull_scans; eexists; eexists; reflexivity.
  - destruct (triggerNode s), (contentNode s); eexists; eexists; reflexivity.
  - destruct (pointerGraceArea s) as [polygon |] eqn:E;
      [| eexists; eexists; reflexivity].
    unfold handleTrackPointerGrace. rewrite E.
    destruct (negb (isElementOrSVGElement (target e)));
      [eexists; eexists; reflexivity |].
    match goal with
    | |- context [isPointInPolygon ?p ?l] =>
        destruct (isPointInPolygon_total p l) as [b ->]
    end.
    destruct (hasEnteredTarget dom e s), (negb b); eexists; eexists; reflexivity.
Qed.

Lemma run_total evs : forall s, exists s' n, dispatchAll evs s = Ok (s', n).
Proof.
  induction evs as [| [dom ev] evs IH]; intros s; cbn [run].
  - eexists; eexists; reflexivity.
  - destruct (step_total dom ev s) as (s1 & n1 & ->).
    destruct (IH s1) as (s2 & n2 & ->). eexists; eexists; reflexivity.
Qed.

(** *** One document [pointermove] *)

(** C3, as the code has it: a document [pointermove] whose target is not
    an element is ignored.  One whose target is an element, while a
    polygon is stored: if the target is inside the trigger or the content,
    the state is cleared and the exit notifier does not fire, wherever the
    pointer is; otherwise, if the pointer is not inside the polygon, the
    state is cleared and the notifier fires once; otherwise nothing
    changes and nothing fires. *)
Theorem pointermove_cases
    (dom : Dom node element) (e : PointerEvent node) (s : State element)
    (polygon : Polygon) :
  pointerGraceArea s = Some polygon ->
  let position := {| x := clientX e; y := clientY e |} in
  exists inside,
    isPointInPolygon position polygon = Some inside
    /\ pointerGraceArea (handleRemoveGraceArea s) = None
    /\ value (isPointerInTransit (handleRemoveGraceArea s)) = false
    /\ (isElementOrSVGElement (target e) = false ->
        dispatch dom (DocumentPointerMove e) s = Ok (s, 0))
    /\ (isElementOrSVGElement (target e) = true ->
        (hasEnteredTarget dom e s = true ->
         dispatch dom (DocumentPointerMove e) s = Ok (handleRemoveGraceArea s, 0))
        /\ (hasEnteredTarget dom e s = false -> inside = false ->
            dispatch dom (DocumentPointerMove e) s = Ok (handleRemoveGraceArea s, 1))
        /\ (hasEnteredTarget dom e s = false -> inside = true ->
            dispatch dom (DocumentPointerMove e) s = Ok (s, 0))).
Proof.
  intros Hpoly position.
  destruct (isPointInPolygon_total position polygon) as [inside Hin].
  exists inside. split; [exact Hin |].
  split; [reflexivity |]. split; [reflexivity |].
  cbn [step]. unfold handleTrackPointerGrace. rewrite Hpoly.
  fold position. rewrite Hin. split.
  - intros ->. reflexivity.
  - intros ->. cbn [negb]. repeat split.
    + intros ->. reflexivity.
    + intros -> ->. reflexivity.
    + intros -> ->. reflexivity.
Qed.

(** *** The flag and the polygon *)

Lemma step_keeps_transit_polygon dom ev s s' n :
  (value (isPointerInTransit s) = true -> pointerGraceArea s <> None) ->
  dispatch dom ev s = Ok (s', n) ->
  value (isPointerInTransit s') = true -> pointerGraceArea s' <> None.
Proof.
  intros Hinv Hstep.
  destruct ev as [e | e | e | | m | m]; cbn [step] in Hstep.
  - destruct (triggerNode s), (contentNode s);
      try (injection Hstep as <- <-; exact Hinv).
    unfold handleCreateGraceArea in Hstep.
    destruct (isHTMLElement (currentTarget e));
      [| injection Hstep as <- <-; exact Hinv].
    destruct (getExitSideFromRect _ _); [| discriminate].
    destruct (getHull _); [| discriminate].
    injection Hstep as <- <-. cbn. discriminate.
  - destruct (triggerNode s), (contentNode s);
      injection Hstep as <- <-; try exact Hinv; cbn; discriminate.
  - destruct (pointerGraceArea s) as [polygon |] eqn:E;
      [| injection Hstep as <- <-; rewrite E; exact Hinv].
    unfold handleTrackPointerGrace in Hstep. rewrite E in Hstep.
    destruct (negb (isElementOrSVGElement (target e)));
      [injection Hstep as <- <-; rewrite E; exact Hinv |].
    destruct (isPointInPolygon _ _) as [inside |]; [| discriminate].
    destruct (hasEnteredTarget dom e s), (negb inside);
      injection Hstep as <- <-; try (rewrite E; exact Hinv); cbn; discriminate.
  - injection Hstep as <- <-. cbn. unfold boxAutoReset_fire.
    destruct (pending (isPointerInTransit s)); [cbn; discriminate | exact Hinv].
  - injection Hstep as <- <-. exact Hinv.
  - injection Hstep as <- <-. exact Hinv.
Qed.

Lemma run_keeps_transit_polygon evs : forall s s' n,
  (value (isPointerInTransit s) = true -> pointerGraceArea s <> None) ->
  dispatchAll evs s = Ok (s', n) ->
  value (isPointerInTransit s') = true -> pointerGraceArea s' <> None.
Proof.
  induction evs as [| [dom ev] evs IH]; intros s s' n Hinv Hrun;
    cbn [run] in Hrun.
  - injection Hrun as <- <-. exact Hinv.
  - destruct (dispatch dom ev s) as [[s1 n1] |] eqn:E1; [| discriminate].
    destruct (dispatchAll evs s1) as [[s2 n2] |] eqn:E2; [| discriminate].
    injection Hrun as <- <-.
    apply (IH s1 s2 n2); [| exact E2].
    exact (step_keeps_transit_polygon dom ev s s1 n1 Hinv E1).
Qed.

(** C1, as the code has it.  The flag and the polygon agree at the start,
    and every event but the expiry of the timer keeps them in agreement.
    The expiry of the timer resets the flag and leaves the polygon.  In
    every state that a tracker reaches, the flag is set only if a polygon
    is stored.  A document [pointermove] does not read the flag: from two
    states with the same nodes and the same polygon it fires the same
    number of exit notifications and leaves the same polygon. *)
Theorem transit_flag_and_polygon :
  inSync (@initial element)
  /\ (forall dom ev s s' n,
        ev <> AutoResetTimer -> inSync s -> dispatch dom ev s = Ok (s', n) ->
        inSync s')
  /\ (forall dom s,
        exists s',
          dispatch dom AutoResetTimer s = Ok (s', 0)
          /\ pointerGraceArea s' = pointerGraceArea s
          /\ (pending (isPointerInTransit s) = true ->
              value (isPointerInTransit s') = false))
  /\ (forall evs s n,
        dispatchAll evs initial = Ok (s, n) ->
        value (isPointerInTransit s) = true -> pointerGraceArea s <> None)
  /\ (forall dom e s1 s2 r1 n1,
        triggerNode s1 = triggerNode s2 ->
        contentNode s1 = contentNode s2 ->
        pointerGraceArea s1 = pointerGraceArea s2 ->
        dispatch dom (DocumentPointerMove e) s1 = Ok (r1, n1) ->
        exists r2,
          dispatch dom (DocumentPointerMove e) s2 = Ok (r2, n1)
          /\ pointerGraceArea r2 = pointerGraceArea r1).
Proof.
  split; [| split; [| split; [| split]]].
  - unfold inSync. cbn. split; [discriminate | congruence].
  - intros dom ev s s' n Hev [H1 H2] Hstep. split.
    + exact (step_keeps_transit_polygon dom ev s s' n H1 Hstep).
    + destruct ev as [e | e | e | | m | m]; cbn [step] in Hstep.
      * destruct (triggerNode s), (contentNode s);
          try (injection Hstep as <- <-; exact H2).
        unfold handleCreateGraceArea in Hstep.
        destruct (isHTMLElement (currentTarget e));
          [| injection Hstep as <- <-; exact H2].
        destruct (getExitSideFromRect _ _); [| discriminate].
        destruct (getHull _); [| discriminate].
        injection Hstep as <- <-. reflexivity.
      * destruct (triggerNode s), (contentNode s);
          injection Hstep as <- <-; try exact H2; cbn; congruence.
      * destruct (pointerGraceArea s) as [polygon |] eqn:E;
          [| injection Hstep as <- <-; rewrite E; congruence].
        unfold handleTrackPointerGrace in Hstep. rewrite E in Hstep.
        destruct (negb (isElementOrSVGElement (target e)));
          [injection Hstep as <- <-; rewrite E; exact H2 |].
        destruct (isPointInPolygon _ _) as [inside |]; [| discriminate].
        destruct (hasEnteredTarget dom e s), (negb inside);
          injection Hstep as <- <-; try (rewrite E; exact H2); cbn; congruence.
      * contradiction.
      * injection Hstep as <- <-. exact H2.
      * injection Hstep as <- <-. exact H2.
  - intros dom s. eexists. split; [reflexivity |]. split; [reflexivity |].
    cbn. unfold boxAutoReset_fire. intros ->. reflexivity.
  - intros evs s n Hrun.
    apply (run_keeps_transit_polygon evs initial s n); [| exact Hrun].
    cbn. discriminate.
  - intros dom e s1 s2 r1 n1 Ht Hc Hp Hstep.
    cbn [step] in *. rewrite <- Hp.
    destruct (pointerGraceArea s1) as [polygon |] eqn:E.
    + unfold handleTrackPointerGrace in *. rewrite <- Hp. rewrite E in *.
      destruct (negb (isElementOrSVGElement (target e))).
      { injection Hstep as <- <-. exists s2. split; [reflexivity | congruence]. }
      destruct (isPointInPolygon _ _) as [inside |]; [| discriminate].
      unfold hasEnteredTarget in *. rewrite <- Ht, <- Hc.
      destruct (_ || _), (negb inside); injection Hstep as <- <-;
        eexists; (split; [reflexivity |]); cbn; congruence.
    + injection Hstep as <- <-. exists s2. split; [reflexivity | congruence].
Qed.

End TrackerFacts.

(** *** On a concrete page *)

(** After the pointer has left the trigger, the polygon is the hull of the
    two padded points and the four corners of the content. *)
Example opening_state : Page.run Page.opening initial = Ok (Page.opened, 0%nat).
Proof. reflexivity. Qed.

Lemma pointermove_cases_witness :
  exists s,
    Page.run Page.opening initial = Ok (s, 0%nat)
    /\ Page.step Page.dom (DocumentPointerMove Page.moveAway) s
       = Ok (handleRemoveGraceArea s, 1%nat).
Proof.
  eexists. split; [reflexivity |].
  match goal with
  | |- Page.step _ _ ?s = _ =>
      destruct (pointermove_cases Page.node Page.element
                  Page.isHTMLElement Page.isElementOrSVGElement
                  Page.dom Page.moveAway s _ eq_refl)
        as (inside & Hin & _ & _ & _ & Helement)
  end.
  destruct (Helement eq_refl) as (_ & Hexit & _).
  apply Hexit; [reflexivity |].
  vm_compute in Hin. congruence.
Defined.

(** C3, as stated, fails for a [pointermove] whose target is the document:
    a polygon is stored, the target is in neither node, the pointer is not
    inside the polygon, and yet the state is not cleared and the exit
    notifier does not fire. *)
Lemma pointermove_on_document_counterexample :
  Page.run Page.opening initial = Ok (Page.opened, 0%nat)
  /\ pointerGraceArea Page.opened = Some Page.graceArea
  /\ hasEnteredTarget Page.dom Page.moveOnDocument Page.opened = false
  /\ isPointInPolygon {| x := 100; y := 100 |} Page.graceArea = Some false
  /\ Page.step Page.dom (DocumentPointerMove Page.moveOnDocument) Page.opened
     = Ok (Page.opened, 0%nat)
  /\ Page.step Page.dom (DocumentPointerMove Page.moveOnDocument) Page.opened
     <> Ok (handleRemoveGraceArea Page.opened, 1%nat).
Proof.
  split; [reflexivity |]. split; [reflexivity |]. split; [reflexivity |].
  split; [reflexivity |]. split; [reflexivity |].
  discriminate.
Qed.

(** C1, as stated, fails once the timer has fired: the flag is reset, the
    polygon is still stored, and the next document [pointermove], far from
    the polygon, is not a no-op: it clears the polygon and fires the exit
    notifier. *)
Lemma pointermove_after_timer_counterexample :
  Page.run (Page.opening ++ [(Page.dom, AutoResetTimer)]) initial
  = Ok (Page.expired, 0%nat)
  /\ value (isPointerInTransit Page.expired) = false
  /\ pointerGraceArea Page.expired = Some Page.graceArea
  /\ Page.step Page.dom (DocumentPointerMove Page.moveAway) Page.expired
     = Ok (handleRemoveGraceArea Page.expired, 1%nat)
  /\ Page.step Page.dom (DocumentPointerMove Page.moveAway) Page.expired
     <> Ok (Page.expired, 0%nat).
Proof.
  split; [reflexivity |]. split; [reflexivity |]. split; [reflexivity |].
  split; [reflexivity |].
  discriminate.
Qed.

Lemma transit_flag_and_polygon_witness :
  inSync Page.opened /\ pointerGraceArea Page.opened <> None.
Proof.
  destruct (transit_flag_and_polygon Page.node Page.element
              Page.isHTMLElement Page.isElementOrSVGElement)
    as (_ & Hkeep & _ & Hreach & _).
  split.
  - apply (Hkeep Page.dom (TriggerPointerLeave Page.leave)
             Page.mounted Page.opened 0%nat).
    + discriminate.
    + unfold inSync. simpl. split; [discriminate | intros H; now elim H].
    + reflexivity.
  - apply (Hreach Page.opening Page.opened 0%nat); reflexivity.
Defined.

(** ** The store: what [getHull] does to its argument *)

Module ImpFacts.

Lemma runs_bind {A B : Type} (m : Imp.M A) (k : A -> Imp.M B) h a h1 b h2 :
  runs m h a h1 -> runs (k a) h1 b h2 -> runs (m ≫= k) h b h2.
Proof.
  unfold runs, mbind, Imp.M_bind. intros -> H. exact H.
Qed.

Lemma runs_ret {A : Type} (a : A) h : runs (mret a) h a h.
Proof. reflexivity. Qed.

Lemma runs_new_array v h :
  runs (Imp.new_array v) h (fresh (dom h)) (<[fresh (dom h) := v]> h).
Proof. reflexivity. Qed.

Lemma fresh_unused (h : Imp.store) : h !! fresh (dom h) = None.
Proof. apply not_elem_of_dom, is_fresh. Qed.

Lemma runs_read a v h : h !! a = Some v -> runs (Imp.read a) h v h.
Proof. unfold runs, Imp.read. now intros ->. Qed.

Lemma runs_write a v0 v h :
  h !! a = Some v0 -> runs (Imp.write a v) h tt (<[a := v]> h).
Proof. unfold runs, Imp.write. now intros ->. Qed.

Lemma runs_Array_length a v h :
  h !! a = Some v -> runs (Imp.Array_length a) h (length v) h.
Proof.
  intros H. unfold Imp.Array_length. eapply runs_bind; [eapply runs_read; eassumption | apply runs_ret].
Qed.

Lemma runs_Array_get a i v p h :
  h !! a = Some v -> v !! i = Some p -> runs (Imp.Array_get a i) h p h.
Proof.
  intros H Hi. unfold Imp.Array_get. eapply runs_bind; [eapply runs_read; eassumption |].
  rewrite Hi. apply runs_ret.
Qed.

Lemma runs_Array_push a v p h :
  h !! a = Some v -> runs (Imp.Array_push a p) h tt (<[a := v ++ [p]]> h).
Proof.
  intros H. unfold Imp.Array_push. eapply runs_bind; [eapply runs_read; eassumption |].
  eapply (runs_write a v); eassumption.
Qed.

Lemma runs_Array_pop a v h :
  h !! a = Some v -> runs (Imp.Array_pop a) h tt (<[a := Array_pop v]> h).
Proof.
  intros H. unfold Imp.Array_pop. eapply runs_bind; [eapply runs_read; eassumption |].
  eapply (runs_write a v); eassumption.
Qed.

Lemma runs_Array_sort a v cmp h :
  h !! a = Some v -> runs (Imp.Array_sort a cmp) h tt (<[a := Array_sort cmp v]> h).
Proof.
  intros H. unfold Imp.Array_sort. eapply runs_bind; [eapply runs_read; eassumption |].
  eapply (runs_write a v); eassumption.
Qed.

Lemma runs_Array_slice a v h :
  h !! a = Some v ->
  runs (Imp.Array_slice a) h (fresh (dom h)) (<[fresh (dom h) := v]> h).
Proof.
  intros H. unfold Imp.Array_slice. eapply runs_bind; [eapply runs_read; eassumption | apply runs_new_array].
Qed.

Lemma runs_Array_concat a b va vb h :
  h !! a = Some va -> h !! b = Some vb ->
  runs (Imp.Array_concat a b) h (fresh (dom h)) (<[fresh (dom h) := va ++ vb]> h).
Proof.
  intros Ha Hb. unfold Imp.Array_concat. eapply runs_bind; [eapply runs_read; eassumption |].
  eapply runs_bind; [eapply runs_read; eassumption | apply runs_new_array].
Qed.

(** The loops on the store do to their array what the loops on lists
    compute. *)
Lemma runs_hull_while fuel : forall hull v p v' h,
  h !! hull = Some v ->
  hull_while fuel v p = Some v' ->
  runs (Imp.hull_while fuel hull p) h tt (<[hull := v']> h).
Proof.
  induction fuel as [| fuel IH]; intros hull v p v' h Hv Hpure.
  - cbn [hull_while Imp.hull_while] in *.
    eapply runs_bind; [eapply runs_Array_length; eassumption |].
    destruct (2 <=? length v)%nat; [discriminate |].
    injection Hpure as <-. rewrite insert_id by exact Hv. apply runs_ret.
  - cbn [hull_while Imp.hull_while] in *.
    eapply runs_bind; [eapply runs_Array_length; eassumption |].
    destruct (2 <=? length v)%nat;
      [| injection Hpure as <-; rewrite insert_id by exact Hv; apply runs_ret].
    destruct (v !! (length v - 1)%nat) as [q |] eqn:Eq; [| discriminate].
    destruct (v !! (length v - 2)%nat) as [r |] eqn:Er; [| discriminate].
    eapply runs_bind; [eapply (runs_Array_get hull _ v q); eassumption |].
    eapply runs_bind; [eapply (runs_Array_get hull _ v r); eassumption |].
    destruct (nonLeftTurn r q p).
    + eapply runs_bind; [eapply runs_Array_pop; eassumption |].
      replace (<[hull := v']> h)
        with (<[hull := v']> (<[hull := Array_pop v]> h))
        by apply insert_insert_eq.
      apply (IH hull (Array_pop v)); [apply lookup_insert_eq | exact Hpure].
    + injection Hpure as <-. rewrite insert_id by exact Hv. apply runs_ret.
Qed.

Lemma runs_upper_loop points upper pts : forall todo i v v' h,
  h !! points = Some pts -> h !! upper = Some v -> points <> upper ->
  upper_loop pts todo i v = Some v' ->
  runs (Imp.upper_loop points todo i upper) h tt (<[upper := v']> h).
Proof.
  induction todo as [| todo IH]; intros i v v' h Hp Hu Hne Hpure;
    cbn [upper_loop Imp.upper_loop] in *.
  - injection Hpure as <-. rewrite insert_id by exact Hu. apply runs_ret.
  - destruct (pts !! i) as [p |] eqn:Ep; [| discriminate].
    cbn [mbind option_bind] in Hpure.
    destruct (hull_while (length v) v p) as [hull |] eqn:Ew; [| discriminate].
    cbn [mbind option_bind] in Hpure.
    eapply runs_bind; [eapply runs_Array_get; eassumption |].
    eapply runs_bind; [eapply runs_Array_length; eassumption |].
    eapply runs_bind; [eapply runs_hull_while; eassumption |].
    eapply runs_bind;
      [eapply runs_Array_push; apply lookup_insert_eq |].
    rewrite insert_insert_eq.
    replace (<[upper := v']> h)
      with (<[upper := v']> (<[upper := hull ++ [p]]> h))
      by apply insert_insert_eq.
    apply (IH (S i) (hull ++ [p])); try assumption.
    + rewrite lookup_insert_ne by congruence. exact Hp.
    + apply lookup_insert_eq.
Qed.

Lemma runs_lower_loop points lower pts : forall todo v v' h,
  h !! points = Some pts -> h !! lower = Some v -> points <> lower ->
  lower_loop pts todo v = Some v' ->
  runs (Imp.lower_loop points todo lower) h tt (<[lower := v']> h).
Proof.
  induction todo as [| i IH]; intros v v' h Hp Hl Hne Hpure;
    cbn [lower_loop Imp.lower_loop] in *.
  - injection Hpure as <-. rewrite insert_id by exact Hl. apply runs_ret.
  - destruct (pts !! i) as [p |] eqn:Ep; [| discriminate].
    cbn [mbind option_bind] in Hpure.
    destruct (hull_while (length v) v p) as [hull |] eqn:Ew; [| discriminate].
    cbn [mbind option_bind] in Hpure.
    eapply runs_bind; [eapply runs_Array_get; eassumption |].
    eapply runs_bind; [eapply runs_Array_length; eassumption |].
    eapply runs_bind; [eapply runs_hull_while; eassumption |].
    eapply runs_bind;
      [eapply runs_Array_push; apply lookup_insert_eq |].
    rewrite insert_insert_eq.
    replace (<[lower := v']> h)
      with (<[lower := v']> (<[lower := hull ++ [p]]> h))
      by apply insert_insert_eq.
    apply (IH (hull ++ [p])); try assumption.
    + rewrite lookup_insert_ne by congruence. exact Hp.
    + apply lookup_insert_eq.
Qed.

Lemma preserved_refl h : preserved h h.
Proof. intros l v H. exact H. Qed.

Lemma preserved_trans h1 h2 h3 :
  preserved h1 h2 -> preserved h2 h3 -> preserved h1 h3.
Proof. intros H12 H23 l v H. apply H23, H12, H. Qed.

Lemma preserved_insert (h : Imp.store) k v :
  h !! k = None -> preserved h (<[k := v]> h).
Proof.
  intros Hk l w Hl. rewrite lookup_insert_ne; [exact Hl |].
  intros <-. congruence.
Qed.

Lemma unused_before (h : Imp.store) k v r :
  <[k := v]> h !! r = None -> h !! r = None.
Proof. intros H. apply lookup_insert_None in H. tauto. Qed.

Ltac lookup_tac :=
  first [ eassumption
        | apply lookup_insert_eq
        | rewrite lookup_insert_ne by congruence; lookup_tac ].

(** [getHullPresorted] on the store: the result is a new array, with the
    elements that [getHullPresorted] on lists computes, and no array that
    was there is changed. *)
Lemma runs_getHullPresorted points pts hull h :
  h !! points = Some pts ->
  getHullPresorted pts = Some hull ->
  exists r h',
    runs (Imp.getHullPresorted points) h r h'
    /\ h' !! r = Some hull /\ h !! r = None /\ preserved h h'.
Proof.
  intros Hp Hpure. unfold getHullPresorted in Hpure.
  unfold Imp.getHullPresorted.
  destruct (length pts <=? 1)%nat eqn:Elen.
  { injection Hpure as <-.
    exists (fresh (dom h)), (<[fresh (dom h) := pts]> h).
    split; [| split; [| split]].
    - eapply runs_bind; [eapply runs_Array_length; eassumption |].
      rewrite Elen. eapply runs_Array_slice; eassumption.
    - apply lookup_insert_eq.
    - apply fresh_unused.
    - apply preserved_insert, fresh_unused. }
  destruct (upper_loop pts (length pts) 0 []) as [U |] eqn:EU; [| discriminate].
  cbn [mbind option_bind] in Hpure.
  destruct (lower_loop pts (length pts) []) as [L |] eqn:EL; [| discriminate].
  cbn [mbind option_bind] in Hpure.
  set (u := fresh (dom h)).
  set (h3 := <[u := Array_pop U]> h).
  set (lw := fresh (dom h3)).
  set (h6 := <[lw := Array_pop L]> h3).
  assert (Hu : h !! u = None) by apply fresh_unused.
  assert (Hlw : h3 !! lw = None) by apply fresh_unused.
  assert (Hpu : points <> u) by (intros E; rewrite E, Hu in Hp; discriminate).
  assert (Hulw : u <> lw).
  { intros E. rewrite <- E in Hlw. unfold h3 in Hlw.
    rewrite lookup_insert_eq in Hlw. discriminate. }
  assert (Hplw : points <> lw).
  { intros E. rewrite <- E in Hlw. unfold h3 in Hlw.
    rewrite lookup_insert_ne, Hp in Hlw by congruence. discriminate. }
  assert (Hh6u : h6 !! u = Some (Array_pop U)).
  { unfold h6, h3. rewrite lookup_insert_ne by congruence. apply lookup_insert_eq. }
  assert (Hh6l : h6 !! lw = Some (Array_pop L)) by apply lookup_insert_eq.
  assert (Hpres : preserved h h6).
  { apply (preserved_trans h h3 h6); now apply preserved_insert. }
  assert (Hprefix : forall (k : Imp.ref -> Imp.ref -> Imp.M Imp.ref) r h',
             runs (k u lw) h6 r h' ->
             runs (n ← Imp.Array_length points;
                   if (n <=? 1)%nat then Imp.Array_slice points
                   else
                     upperHull ← Imp.new_array [];
                     Imp.upper_loop points n 0 upperHull;;
                     Imp.Array_pop upperHull;;
                     lowerHull ← Imp.new_array [];
                     Imp.lower_loop points n lowerHull;;
                     Imp.Array_pop lowerHull;;
                     k upperHull lowerHull) h r h').
  { intros k r h' Hk.
    eapply runs_bind; [eapply runs_Array_length; eassumption |].
    rewrite Elen.
    eapply runs_bind; [apply runs_new_array |]. fold u.
    eapply runs_bind;
      [eapply (runs_upper_loop points u pts); [lookup_tac | lookup_tac | exact Hpu | exact EU] |].
    rewrite insert_insert_eq.
    eapply runs_bind; [eapply runs_Array_pop; lookup_tac |].
    rewrite insert_insert_eq. fold h3.
    eapply runs_bind; [apply runs_new_array |]. fold lw.
    eapply runs_bind;
      [eapply (runs_lower_loop points lw pts);
         [unfold h3; lookup_tac | lookup_tac | exact Hplw | exact EL] |].
    rewrite insert_insert_eq.
    eapply runs_bind; [eapply runs_Array_pop; lookup_tac |].
    rewrite insert_insert_eq. fold h6. exact Hk. }
  assert (Hconcat :
            exists r h',
              runs (Imp.Array_concat u lw) h6 r h'
              /\ h' !! r = Some (Array_pop U ++ Array_pop L)
              /\ h !! r = None /\ preserved h h').
  { exists (fresh (dom h6)), (<[fresh (dom h6) := Array_pop U ++ Array_pop L]> h6).
    split; [| split; [| split]].
    - eapply runs_Array_concat; eassumption.
    - apply lookup_insert_eq.
    - pose proof (fresh_unused h6) as Hr. unfold h6, h3 in Hr.
      apply unused_before, unused_before in Hr. exact Hr.
    - apply (preserved_trans h h6); [exact Hpres |].
      apply preserved_insert, fresh_unused. }
  destruct Hconcat as (rc & hc & Hrunc & Hlookc & Hfreshc & Hpresc).
  destruct (Array_pop U) as [| u0 [| u1 U']] eqn:EpU;
    destruct (Array_pop L) as [| l0 [| l1 L']] eqn:EpL;
    try (injection Hpure as <-; exists rc, hc;
         split; [| split; [exact Hlookc | split; [exact Hfreshc | exact Hpresc]]];
         apply (Hprefix (fun upperHull lowerHull => _));
         eapply runs_bind; [eapply runs_Array_length; exact Hh6u |];
         eapply runs_bind; [eapply runs_Array_length; exact Hh6l |];
         exact Hrunc).
  destruct (Num.strictEq (x u0) (x l0) && Num.strictEq (y u0) (y l0)) eqn:Eeq;
    injection Hpure as <-.
  - exists u, h6. split; [| split; [exact Hh6u | split; [exact Hu | exact Hpres]]].
    apply (Hprefix (fun upperHull lowerHull => _)).
    eapply runs_bind; [eapply runs_Array_length; exact Hh6u |].
    eapply runs_bind; [eapply runs_Array_length; exact Hh6l |].
    cbn [length Nat.eqb andb].
    eapply runs_bind; [eapply runs_Array_get; [exact Hh6u | reflexivity] |].
    eapply runs_bind; [eapply runs_Array_get; [exact Hh6l | reflexivity] |].
    rewrite Eeq. apply runs_ret.
  - exists rc, hc.
    split; [| split; [exact Hlookc | split; [exact Hfreshc | exact Hpresc]]].
    apply (Hprefix (fun upperHull lowerHull => _)).
    eapply runs_bind; [eapply runs_Array_length; exact Hh6u |].
    eapply runs_bind; [eapply runs_Array_length; exact Hh6l |].
    cbn [length Nat.eqb andb].
    eapply runs_bind; [eapply runs_Array_get; [exact Hh6u | reflexivity] |].
    eapply runs_bind; [eapply runs_Array_get; [exact Hh6l | reflexivity] |].
    rewrite Eeq. exact Hrunc.
Qed.

(** C10: [getHull] does not change its argument.  After the call the
    array it was given holds the same elements in the same order, as does
    every other array that existed, and the hull is returned as an array
    that did not exist before the call, so it is not the argument.  Its
    elements are those that [getHull] on lists computes. *)
Theorem getHull_leaves_argument
    (h : Imp.store) (points : Imp.ref) (pts : list Point) :
  h !! points = Some pts ->
  exists r h' hull,
    Imp.getHull points h = Some (r, h')
    /\ h' !! points = Some pts
    /\ preserved h h'
    /\ h !! r = None
    /\ r <> points
    /\ h' !! r = Some hull
    /\ getHull pts = Some hull.
Proof.
  intros Hp.
  set (np := fresh (dom h)).
  assert (Hnp : h !! np = None) by apply fresh_unused.
  set (sorted := Array_sort comparePoints pts).
  set (h2 := <[np := sorted]> h).
  assert (Hpure : getHullPresorted sorted = Some (hullOfScans sorted))
    by apply getHullPresorted_scans.
  destruct (runs_getHullPresorted np sorted (hullOfScans sorted) h2)
    as (r & h' & Hrun & Hr & Hfresh & Hpres);
    [apply lookup_insert_eq | exact Hpure |].
  assert (Hpres' : preserved h h').
  { apply (preserved_trans h h2 h'); [| exact Hpres].
    now apply preserved_insert. }
  assert (Hfresh' : h !! r = None) by (apply (unused_before h np sorted); exact Hfresh).
  exists r, h', (hullOfScans sorted).
  split; [| split; [| split; [| split; [| split; [| split]]]]].
  - change (runs (Imp.getHull points) h r h'). unfold Imp.getHull.
    eapply runs_bind; [eapply runs_Array_slice; exact Hp |]. fold np.
    eapply runs_bind; [eapply runs_Array_sort; apply lookup_insert_eq |].
    rewrite insert_insert_eq. fold sorted. fold h2. exact Hrun.
  - now apply Hpres'.
  - exact Hpres'.
  - exact Hfresh'.
  - intros E. rewrite E in Hfresh'. congruence.
  - exact Hr.
  - apply getHull_scans.
Qed.

End ImpFacts.

Lemma getHull_leaves_argument_witness :
  let pts := [ {| x := 2; y := 0 |}; {| x := 0; y := 0 |}; {| x := 1; y := 3 |};
               {| x := 1; y := 1 |} ] in
  let h : Imp.store := {[ 7%nat := pts ]} in
  exists r h' hull,
    Imp.getHull 7%nat h = Some (r, h')
    /\ h' !! 7%nat = Some pts
    /\ r <> 7%nat
    /\ h' !! r = Some hull.
Proof.
  intros pts h.
  destruct (ImpFacts.getHull_leaves_argument h 7%nat pts)
    as (r & h' & hull & H1 & H2 & _ & _ & H3 & H4 & _).
  - reflexivity.
  - exists r, h', hull. repeat split; assumption.
Defined.

(** ** Runs on concrete inputs *)

Example getHull_seven_points :
  getHull [ {| x := 0; y := 0 |}; {| x := 2; y := 2 |}; {| x := 1; y := 1 |};
            {| x := 0; y := 2 |}; {| x := 2; y := 0 |}; {| x := 1; y := 3 |};
            {| x := 1; y := 1 |} ]
  = Some [ {| x := 0; y := 0 |}; {| x := 0; y := 2 |}; {| x := 1; y := 3 |};
           {| x := 2; y := 2 |}; {| x := 2; y := 0 |} ].
Proof. reflexivity. Qed.

Example getHull_on_a_line :
  getHull [ {| x := 2; y := 2 |}; {| x := 0; y := 0 |}; {| x := 1; y := 1 |} ]
  = Some [ {| x := 0; y := 0 |}; {| x := 2; y := 2 |} ].
Proof. reflexivity. Qed.

Example getHull_same_point_twice :
  getHull [ {| x := 1; y := 1 |}; {| x := 1; y := 1 |} ] = Some [ {| x := 1; y := 1 |} ].
Proof. reflexivity. Qed.

Example getExitSideFromRect_corner :
  getExitSideFromRect {| x := 0; y := 0 |}
    {| top := 0; right := 10; bottom := 10; left := 0 |} = Ok left_side.
Proof. reflexivity. Qed.

Example isPointInPolygon_triangle :
  isPointInPolygon {| x := 1; y := 1 |}
    [ {| x := 0; y := 0 |}; {| x := 4; y := 0 |}; {| x := 0; y := 4 |} ] = Some true
  /\ isPointInPolygon {| x := 3; y := 3 |}
       [ {| x := 0; y := 0 |}; {| x := 4; y := 0 |}; {| x := 0; y := 4 |} ] = Some false.
Proof. split; reflexivity. Qed.

(** The pointer, between the trigger and the content, stays in the grace
    area: nothing changes. *)
Example move_inside_grace_area :
  Page.step Page.dom (DocumentPointerMove Page.moveBetween) Page.opened
  = Ok (Page.opened, 0%nat).
Proof. reflexivity. Qed.

(** The pointer reaches the content: the state is cleared without notice,
    also from a position that is outside the polygon. *)
Example move_into_content :
  Page.step Page.dom
    (DocumentPointerMove {| clientX := 100; clientY := 100;
                            currentTarget := None;
                            target := Some Page.content |})
    Page.opened
  = Ok (handleRemoveGraceArea Page.opened, 0%nat).
Proof. reflexivity. Qed.

(** [getHull] on the store: the array at 7 is left as it was, unsorted, and
    the hull is a new array. *)
Example getHull_on_the_store :
  let pts := [ {| x := 2; y := 0 |}; {| x := 0; y := 0 |}; {| x := 1; y := 3 |};
               {| x := 1; y := 1 |} ] in
  match Imp.getHull 7%nat {[ 7%nat := pts ]} with
  | Some (r, h') =>
      h' !! 7%nat = Some pts
      /\ h' !! r = Some [ {| x := 0; y := 0 |}; {| x := 1; y := 3 |};
                          {| x := 2; y := 0 |} ]
      /\ r <> 7%nat
  | None => False
  end.
Proof. vm_compute. repeat split; congruence. Qed.

(** * Further properties *)

(** ** The comparator of the sort *)

Section Comparator.
Import Num NumFacts.

Lemma comparePoints_values a b :
  (comparePoints a b = (-1)%Z /\ lexle a b /\ ~ peq a b)
  \/ (comparePoints a b = 0%Z /\ peq a b)
  \/ (comparePoints a b = 1%Z /\ lexle b a /\ ~ peq a b).
Proof.
  unfold comparePoints, lexle, peq, gt.
  destruct (lt (x a) (x b)) eqn:E1.
  { apply lt_iff in E1. left. repeat split; [now left | intros [H _]; lra]. }
  apply lt_false_iff in E1.
  destruct (lt (x b) (x a)) eqn:E2.
  { apply lt_iff in E2. right; right. repeat split; [now left | intros [H _]; lra]. }
  apply lt_false_iff in E2.
  destruct (lt (y a) (y b)) eqn:E3.
  { apply lt_iff in E3. left.
    repeat split; [right; split; lra | intros [_ H]; lra]. }
  apply lt_false_iff in E3.
  destruct (lt (y b) (y a)) eqn:E4.
  { apply lt_iff in E4. right; right.
    repeat split; [right; split; lra | intros [_ H]; lra]. }
  apply lt_false_iff in E4.
  right; left. repeat split; lra.
Qed.

(** X1: the function that [getHull] gives to [sort] is a consistent comparator:
    it answers -1, 0 or 1, the answer for [(b, a)] is the opposite of the
    answer for [(a, b)], it is 0 exactly for two points with the same
    coordinates, and "not after" is transitive. *)
Theorem comparePoints_consistent :
  (forall a b, comparePoints a b = (-1)%Z \/ comparePoints a b = 0%Z
               \/ comparePoints a b = 1%Z)
  /\ (forall a b, comparePoints b a = (- comparePoints a b)%Z)
  /\ (forall a b, comparePoints a b = 0%Z <-> peq a b)
  /\ (forall a b c, (comparePoints a b <= 0)%Z -> (comparePoints b c <= 0)%Z ->
                    (comparePoints a c <= 0)%Z).
Proof.
  split; [| split; [| split]].
  - intros a b.
    destruct (comparePoints_values a b) as [(-> & _) | [(-> & _) | (-> & _)]]; tauto.
  - intros a b.
    destruct (comparePoints_values a b) as [(E & L & N) | [(E & P) | (E & L & N)]];
      destruct (comparePoints_values b a) as [(E' & L' & N') | [(E' & P') | (E' & L' & N')]];
      rewrite E, E'; try reflexivity; exfalso;
      first [ apply N; now apply lexle_antisym
            | apply N'; now apply peq_sym
            | apply N; now apply peq_sym ].
  - intros a b.
    destruct (comparePoints_values a b) as [(E & L & N) | [(E & P) | (E & L & N)]];
      rewrite E; split; intros H; try discriminate; try contradiction; auto.
  - intros a b c H1 H2. apply Z.leb_le in H1. apply Z.leb_le in H2.
    apply comparePoints_le in H1. apply comparePoints_le in H2.
    apply Z.leb_le. apply comparePoints_le. exact (lexle_trans _ _ _ H1 H2).
Qed.

End Comparator.

(** ** The ray test as a count of crossings *)

Section Crossings.
Import Num NumFacts.

Lemma countEdges_app f l1 l2 :
  countEdges f (l1 ++ l2) = (countEdges f l1 + countEdges f l2)%nat.
Proof.
  induction l1 as [| [a b] l1 IH]; [reflexivity |].
  cbn [app countEdges]. rewrite IH. lia.
Qed.

Lemma xorb_odd_step (c : bool) (inside : bool) (n : nat) :
  xorb (if c then negb inside else inside) (Nat.odd n)
  = xorb inside (Nat.odd ((if c then 1 else 0) + n)).
Proof.
  destruct c.
  - change (1 + n)%nat with (S n). rewrite Nat.odd_succ, <- Nat.negb_odd.
    destruct inside, (Nat.odd n); reflexivity.
  - reflexivity.
Qed.

(** The loop from index [length pre] on, the vertex before it being the
    last of [pre]. *)
Lemma isPointInPolygon_loop_count point rest : forall pre z inside,
  last pre = Some z ->
  isPointInPolygon_loop point (pre ++ rest) (length rest) (length pre)
    (length pre - 1) inside
  = Some (xorb inside
            (Nat.odd (countEdges (fun a b => intersect point b a)
                        (adjPairs (z :: rest))))).
Proof.
  induction rest as [| c rest IH]; intros pre z inside Hz.
  - cbn. now rewrite xorb_false_r.
  - cbn [length isPointInPolygon_loop].
    assert (Hc : (pre ++ c :: rest) !! length pre = Some c)
      by (apply list_lookup_middle; reflexivity).
    assert (Hp : (pre ++ c :: rest) !! (length pre - 1)%nat = Some z).
    { destruct pre as [| q pre] using rev_ind; [discriminate |].
      rewrite last_snoc in Hz. injection Hz as ->.
      rewrite <- app_assoc. cbn [app].
      apply list_lookup_middle. rewrite length_app. cbn. lia. }
    unfold Polygon in *. rewrite Hc, Hp.
    specialize (IH (pre ++ [c]) c
                  (if intersect point c z then negb inside else inside)).
    rewrite <- app_assoc, length_app in IH. cbn [app length] in IH.
    replace (length pre + 1)%nat with (S (length pre)) in IH by lia.
    replace (S (length pre) - 1)%nat with (length pre) in IH by lia.
    rewrite IH by apply last_snoc.
    f_equal. cbn [adjPairs countEdges]. apply xorb_odd_step.
Qed.

(** The whole loop: the edge from the last vertex to the first is tested
    first, then the edges in the order of the array. *)
Lemma isPointInPolygon_count (point : Point) (polygon : Polygon) :
  isPointInPolygon point polygon = Some (Nat.odd (crossings point polygon)).
Proof.
  unfold isPointInPolygon, crossings, cyclicEdges.
  destruct polygon as [| p0 t]; [reflexivity |].
  destruct (last (p0 :: t)) as [z |] eqn:Hz;
    [| apply last_None in Hz; discriminate].
  cbn [length isPointInPolygon_loop].
  assert (Hl : (p0 :: t) !! (S (length t) - 1)%nat = Some z).
  { destruct (p0 :: t) as [| q l] eqn:E using rev_ind; [discriminate |].
    rewrite last_snoc in Hz. injection Hz as ->.
    assert (Hn : S (length t) = length (l ++ [z])) by (rewrite <- E; reflexivity).
    rewrite Hn. apply list_lookup_middle. rewrite length_app. cbn. lia. }
  unfold Polygon in *. rewrite Hl. cbn [lookup list_lookup].
  pose proof (isPointInPolygon_loop_count point t [p0] p0
                (if intersect point p0 z then negb false else false) eq_refl) as H.
  cbn [app length] in H. cbn [Nat.sub] in H. rewrite H. f_equal.
  change (take 1 (p0 :: t)) with [p0].
  rewrite adjPairs_snoc, Hz, countEdges_app. cbn [countEdges].
  rewrite Nat.add_0_r, (Nat.add_comm (countEdges _ _)).
  rewrite xorb_odd_step. reflexivity.
Qed.

(** X2: [isPointInPolygon] reads no missing element, for a polygon of any
    length, and it answers [true] exactly when the number of edges that the
    edge test accepts is odd. *)
Theorem isPointInPolygon_parity (point : Point) (polygon : Polygon) :
  exists inside,
    isPointInPolygon point polygon = Some inside
    /\ (inside = true <-> Nat.Odd (crossings point polygon)).
Proof.
  exists (Nat.odd (crossings point polygon)). split.
  - apply isPointInPolygon_count.
  - apply Nat.odd_spec.
Qed.

End Crossings.

(** ** The ray test on a convex polygon

    The loop of [isPointInPolygon] counts the edges that the horizontal ray
    from the point crosses.  On a convex polygon the ray crosses at most one
    edge that goes down past the level of the point and at most one that
    goes up, and a point inside is left of the first and right of the
    second. *)

(** *** Identities of the cross product *)

Section CrossIdentities.
Import Num NumFacts.
Local Open Scope Q_scope.

(** Three vectors from [o], in [y] and in [x]. *)
Lemma cross_jacobi_y o u w p :
  cross o u w * (y p - y o) + cross o w p * (y u - y o) + cross o p u * (y w - y o) == 0.
Proof. unfold cross. ring. Qed.

Lemma cross_jacobi_x o u w p :
  cross o u w * (x p - x o) + cross o w p * (x u - x o) + cross o p u * (x w - x o) == 0.
Proof. unfold cross. ring. Qed.

(** Two edges that pass the level [yy], each seen from the other. *)
Lemma straddle_sum a b c d yy :
  (yy - y d) * cross a b c + (y c - yy) * cross a b d
  + (yy - y b) * cross c d a + (y a - yy) * cross c d b == 0.
Proof. unfold cross. ring. Qed.

(** Two edges that go down past one level, neither with a vertex of the
    other on its outer side: the lower end of each is on the line of the
    other. *)
Lemma straddle_touch a b c d yy :
  y b <= yy -> yy < y a -> y d <= yy -> yy < y c ->
  cross a b c <= 0 -> cross a b d <= 0 -> cross c d a <= 0 -> cross c d b <= 0 ->
  cross a b d == 0 /\ cross c d b == 0.
Proof.
  intros. pose proof (straddle_sum a b c d yy) as E.
  split; nra.
Qed.

(** A polygon that turns strictly at [b] has no vertex on the line of the
    edge that arrives at [b], beyond [b]. *)
Lemma beyond_turn a b b' d :
  cross a b d == 0 -> y d < y b -> y b < y a ->
  cross a b b' < 0 -> cross b b' d <= 0 -> False.
Proof.
  intros H1 H2 H3 H4 H5.
  pose proof (cross_jacobi_y b b' d a) as E.
  pose proof (cross_rot a b d) as R1.
  pose proof (cross_flip a b b') as R2.
  nra.
Qed.

(** Two edges of a convex polygon that go down past one level end at the
    same point. *)
Lemma down_unique a b b' c d d' yy :
  y b <= yy -> yy < y a -> y d <= yy -> yy < y c ->
  cross a b c <= 0 -> cross a b d <= 0 -> cross c d a <= 0 -> cross c d b <= 0 ->
  cross a b b' < 0 -> cross c d d' < 0 ->
  cross b b' d <= 0 -> cross d d' b <= 0 ->
  peq b d.
Proof.
  intros Hb Ha Hd Hc G1 G2 G3 G4 T1 T2 N1 N2.
  destruct (straddle_touch a b c d yy Hb Ha Hd Hc G1 G2 G3 G4) as [Z1 Z2].
  destruct (Q_dec (y b) (y d)) as [[H | H] | H].
  - exfalso. apply (beyond_turn c d d' b); try assumption; lra.
  - exfalso. apply (beyond_turn a b b' d); try assumption; lra.
  - split; [| exact H]. unfold cross in Z1. nra.
Qed.

(** The same for two edges that go up: they start at the same point. *)
Lemma straddle_touch_up a b c d yy :
  y a <= yy -> yy < y b -> y c <= yy -> yy < y d ->
  cross a b c <= 0 -> cross a b d <= 0 -> cross c d a <= 0 -> cross c d b <= 0 ->
  cross a b c == 0 /\ cross c d a == 0.
Proof.
  intros. pose proof (straddle_sum a b c d yy) as E.
  split; nra.
Qed.

Lemma behind_turn a' a b c :
  cross a b c == 0 -> y c < y a -> y a < y b ->
  cross a' a b < 0 -> cross a' a c <= 0 -> False.
Proof.
  intros H1 H2 H3 H4 H5.
  pose proof (cross_jacobi_y a a' c b) as E.
  pose proof (cross_rot a' a b) as R1.
  pose proof (cross_rot a' a c) as R2.
  pose proof (cross_swap a b c) as R3.
  pose proof (cross_swap a a' b) as R4.
  pose proof (cross_swap a a' c) as R5.
  nra.
Qed.

Lemma up_unique a' a b c' c d yy :
  y a <= yy -> yy < y b -> y c <= yy -> yy < y d ->
  cross a b c <= 0 -> cross a b d <= 0 -> cross c d a <= 0 -> cross c d b <= 0 ->
  cross a' a b < 0 -> cross c' c d < 0 ->
  cross a' a c <= 0 -> cross c' c a <= 0 ->
  peq a c.
Proof.
  intros Ha Hb Hc Hd G1 G2 G3 G4 T1 T2 N1 N2.
  destruct (straddle_touch_up a b c d yy Ha Hb Hc Hd G1 G2 G3 G4) as [Z1 Z2].
  destruct (Q_dec (y a) (y c)) as [[H | H] | H].
  - exfalso. apply (behind_turn c' c d a); try assumption; lra.
  - exfalso. apply (behind_turn a' a b c); try assumption; lra.
  - split; [| exact H]. unfold cross in Z1. nra.
Qed.

(** A vertex that is not lower than its two neighbours is above every
    point strictly inside, and one that is not higher is below. *)
Lemma top_vertex_above u v w p :
  cross u v w < 0 -> cross u v p < 0 -> cross v w p < 0 ->
  y u <= y v -> y w <= y v -> y p < y v.
Proof.
  intros T H1 H2 Hu Hw.
  destruct (Qlt_le_dec (y p) (y v)) as [H | H]; [exact H | exfalso].
  pose proof (cross_jacobi_y v u w p) as Ey.
  pose proof (cross_rot u v w) as R1.
  pose proof (cross_swap v w u) as R1'.
  pose proof (cross_rot u v p) as R2.
  pose proof (cross_swap v p u) as R2'.
  assert (Z1 : cross v u w * (y p - y v) == 0) by nra.
  assert (Z2 : cross v w p * (y u - y v) == 0) by nra.
  assert (Z3 : cross v p u * (y w - y v) == 0) by nra.
  assert (Yu : y u == y v) by nra.
  assert (Yw : y w == y v) by nra.
  unfold cross in T. nra.
Qed.

Lemma bottom_vertex_below u v w p :
  cross u v w < 0 -> cross u v p < 0 -> cross v w p < 0 ->
  y v <= y u -> y v <= y w -> y v < y p.
Proof.
  intros T H1 H2 Hu Hw.
  destruct (Qlt_le_dec (y v) (y p)) as [H | H]; [exact H | exfalso].
  pose proof (cross_jacobi_y v u w p) as Ey.
  pose proof (cross_rot u v w) as R1.
  pose proof (cross_swap v w u) as R1'.
  pose proof (cross_rot u v p) as R2.
  pose proof (cross_swap v p u) as R2'.
  assert (Z1 : cross v u w * (y p - y v) == 0) by nra.
  assert (Z2 : cross v w p * (y u - y v) == 0) by nra.
  assert (Z3 : cross v p u * (y w - y v) == 0) by nra.
  assert (Yu : y u == y v) by nra.
  assert (Yw : y w == y v) by nra.
  unfold cross in T. nra.
Qed.

(** A point left of an edge that goes down past its level, and not left
    of one that goes up, is on no edge's outer side. *)
Lemma slab_within g1 g2 a b c d p :
  y b <= y p -> y p < y a -> y c <= y p -> y p < y d ->
  cross a b p < 0 -> cross c d p <= 0 ->
  cross g1 g2 a <= 0 -> cross g1 g2 b <= 0 -> cross g1 g2 c <= 0 -> cross g1 g2 d <= 0 ->
  cross g1 g2 p <= 0.
Proof.
  intros Hb Ha Hc Hd X1 X2 Ga Gb Gc Gd.
  assert (E1 : (y a - y b) * cross g1 g2 p
               == (y p - y b) * cross g1 g2 a + (y a - y p) * cross g1 g2 b
                  + (y g1 - y g2) * cross a b p) by (unfold cross; ring).
  assert (E2 : (y d - y c) * cross g1 g2 p
               == (y d - y p) * cross g1 g2 c + (y p - y c) * cross g1 g2 d
                  - (y g1 - y g2) * cross c d p) by (unfold cross; ring).
  destruct (Qlt_le_dec (y g1) (y g2)) as [H | H]; nra.
Qed.

(** A point left of the edge that goes up is left of the edge that goes
    down. *)
Lemma slab_order a b c d p :
  y b <= y p -> y p < y a -> y c <= y p -> y p < y d ->
  0 < cross c d p -> cross a b c <= 0 -> cross a b d <= 0 ->
  cross a b p < 0.
Proof.
  intros Hb Ha Hc Hd X G1 G2.
  assert (E : (y d - y p) * cross a b c + (y p - y c) * cross a b d
              == (y d - y c) * cross a b p + (y a - y b) * cross c d p)
    by (unfold cross; ring).
  nra.
Qed.

(** The abscissa at which the edge test compares: where the edge passes
    the level of the point. *)
Lemma intersect_straddle p a b :
  ~ y a == y b ->
  let t := (x a - x b) * (y p - y b) / (y a - y b) + x b in
  (t - x p) * (y a - y b) == - cross a b p.
Proof.
  intros H t. subst t. unfold cross. field. intros E. apply H. lra.
Qed.

(** The edge test on an edge that goes down past the level of the point,
    on one that goes up, and on one that stays on one side. *)
Lemma intersect_down p a b :
  y b <= y p -> y p < y a ->
  (intersect p b a = true <-> cross a b p < 0).
Proof.
  intros Hb Ha. unfold intersect. cbn zeta.
  assert (E1 : gt (y b) (y p) = false) by (apply gt_false_iff; exact Hb).
  assert (E2 : gt (y a) (y p) = true) by (apply gt_iff; exact Ha).
  rewrite E1, E2. cbn [Bool.eqb negb].
  rewrite lt_iff.
  pose proof (intersect_straddle p a b) as E. cbn zeta in E.
  assert (N : ~ y a == y b) by lra. specialize (E N).
  split; intros; nra.
Qed.

Lemma intersect_up p a b :
  y a <= y p -> y p < y b ->
  (intersect p b a = true <-> 0 < cross a b p).
Proof.
  intros Ha Hb. unfold intersect. cbn zeta.
  assert (E1 : gt (y b) (y p) = true) by (apply gt_iff; exact Hb).
  assert (E2 : gt (y a) (y p) = false) by (apply gt_false_iff; exact Ha).
  rewrite E1, E2. cbn [Bool.eqb negb].
  rewrite lt_iff.
  pose proof (intersect_straddle p a b) as E. cbn zeta in E.
  assert (N : ~ y a == y b) by lra. specialize (E N).
  split; intros; nra.
Qed.

Lemma intersect_level p a b :
  gt (y a) (y p) = gt (y b) (y p) -> intersect p b a = false.
Proof.
  intros H. unfold intersect. cbn zeta. rewrite H.
  now rewrite Bool.eqb_reflx.
Qed.

End CrossIdentities.

(** *** Going round a polygon *)

Section Cyclic.

(** Counting the edges that pass a test. *)
Lemma countEdges_ext f g l :
  (forall a b, In (a, b) l -> f a b = g a b) -> countEdges f l = countEdges g l.
Proof.
  induction l as [| [a b] l IH]; intros H; [reflexivity |].
  cbn [countEdges]. rewrite (H a b) by now left.
  rewrite IH; [reflexivity |]. intros a' b' H'. apply H. now right.
Qed.

Lemma countEdges_zero f l :
  countEdges f l = 0%nat <-> forall a b, In (a, b) l -> f a b = false.
Proof.
  induction l as [| [a b] l IH]; cbn [countEdges].
  - split; [intros _ a b [] | reflexivity].
  - split.
    + intros H a' b' [E | H'].
      * injection E as <- <-. destruct (f a b); [cbn in H; lia | reflexivity].
      * apply IH; [| exact H']. destruct (f a b); cbn in H; lia.
    + intros H. rewrite (H a b) by now left. cbn.
      apply IH. intros a' b' H'. apply H. now right.
Qed.

Lemma countEdges_pos f l :
  (1 <= countEdges f l)%nat <-> exists a b, In (a, b) l /\ f a b = true.
Proof.
  split.
  - intros H. induction l as [| [a b] l IH]; cbn [countEdges] in H; [lia |].
    destruct (f a b) eqn:E.
    + exists a, b. split; [now left | exact E].
    + destruct IH as (a' & b' & H1 & H2); [cbn in H; lia |].
      exists a', b'. split; [now right | exact H2].
  - intros (a & b & H1 & H2).
    destruct (countEdges f l) eqn:E; [| lia].
    rewrite (proj1 (countEdges_zero f l) E a b H1) in H2. discriminate.
Qed.

Lemma countEdges_le f g l :
  (forall a b, In (a, b) l -> f a b = true -> g a b = true) ->
  (countEdges f l <= countEdges g l)%nat.
Proof.
  induction l as [| [a b] l IH]; intros H; cbn [countEdges]; [lia |].
  assert (IH' : (countEdges f l <= countEdges g l)%nat).
  { apply IH. intros a' b' H'. apply H. now right. }
  pose proof (H a b (or_introl eq_refl)) as Hab.
  destruct (f a b); [rewrite Hab by reflexivity |]; destruct (g a b); lia.
Qed.

(** The count of a test that two edges cannot both pass. *)
Lemma countEdges_unique {A : Type} (e : A -> Point * Point) f (l : list A) :
  (forall i j t u, l !! i = Some t -> l !! j = Some u ->
                   f (e t).1 (e t).2 = true -> f (e u).1 (e u).2 = true -> i = j) ->
  (countEdges f (map e l) <= 1)%nat.
Proof.
  induction l as [| t l IH]; intros H; cbn [map countEdges]; [lia |].
  destruct (e t) as [a b] eqn:Et.
  destruct (f a b) eqn:E.
  - assert (Z : countEdges f (map e l) = 0%nat).
    { apply countEdges_zero. intros a' b' Hin.
      apply in_map_iff in Hin. destruct Hin as (u & Eu & Hu).
      apply list_elem_of_In, list_elem_of_lookup in Hu. destruct Hu as [j Hj].
      destruct (f a' b') eqn:E'; [| reflexivity].
      specialize (H 0%nat (S j) t u eq_refl Hj).
      rewrite Et, Eu in H. cbn in H. specialize (H E E'). discriminate. }
    rewrite Z. cbn. lia.
  - cbn. apply IH. intros i j t' u Hi Hj Ht Hu.
    specialize (H (S i) (S j) t' u Hi Hj Ht Hu). lia.
Qed.

(** Three consecutive vertices: the first two and the last two are
    consecutive, and every vertex between the ends is in the middle of
    three. *)
Lemma adjTriples_eq {A : Type} (a b c : A) r :
  adjTriples (a :: b :: c :: r) = (a, b, c) :: adjTriples (b :: c :: r).
Proof. reflexivity. Qed.

Lemma adjPairs_eq {A : Type} (a b : A) r :
  adjPairs (a :: b :: r) = (a, b) :: adjPairs (b :: r).
Proof. reflexivity. Qed.

Lemma adjTriples_firstEdge {A : Type} (l : list A) z :
  map firstEdge (adjTriples (l ++ [z])) = adjPairs l.
Proof.
  induction l as [| a l IH]; [reflexivity |].
  destruct l as [| b l]; [reflexivity |].
  change ((a :: b :: l) ++ [z]) with (a :: (b :: l) ++ [z]).
  change ((b :: l) ++ [z]) with (b :: (l ++ [z])) in *.
  destruct (l ++ [z]) as [| c r] eqn:E; [destruct l; discriminate |].
  rewrite adjTriples_eq, adjPairs_eq. cbn [map]. f_equal. exact IH.
Qed.

Lemma adjTriples_secondEdge {A : Type} (l : list A) z :
  map secondEdge (adjTriples (z :: l)) = adjPairs l.
Proof.
  revert z. induction l as [| a l IH]; intros z; [reflexivity |].
  destruct l as [| b l]; [reflexivity |].
  rewrite adjTriples_eq, adjPairs_eq. cbn [map]. f_equal. apply IH.
Qed.

Lemma adjTriples_middle {A : Type} (l : list A) z w :
  map middle (adjTriples (z :: l ++ [w])) = l.
Proof.
  revert z. induction l as [| a l IH]; intros z; [reflexivity |].
  change (z :: (a :: l) ++ [w]) with (z :: a :: (l ++ [w])).
  specialize (IH a).
  destruct (l ++ [w]) as [| c r] eqn:E; [destruct l; discriminate |].
  rewrite adjTriples_eq. cbn [map]. f_equal. exact IH.
Qed.

(** The triples of a polygon of two vertices or more: their first two
    components are its edges, their last two are its edges, and their
    middle components are its vertices, from the second on. *)
Lemma cyclicTriples_firstEdge (h0 h1 : Point) t :
  map firstEdge (cyclicTriples (h0 :: h1 :: t)) = cyclicEdges (h0 :: h1 :: t).
Proof.
  unfold cyclicTriples, cyclicEdges.
  change (take 2 (h0 :: h1 :: t)) with ([h0] ++ [h1]).
  change (take 1 (h0 :: h1 :: t)) with [h0].
  rewrite app_assoc. apply adjTriples_firstEdge.
Qed.

Lemma cyclicTriples_secondEdge (h0 h1 : Point) t :
  exists E,
    map secondEdge (cyclicTriples (h0 :: h1 :: t)) = E ++ [(h0, h1)]
    /\ cyclicEdges (h0 :: h1 :: t) = (h0, h1) :: E.
Proof.
  exists (adjPairs ((h1 :: t) ++ [h0])). split.
  - unfold cyclicTriples.
    change (take 2 (h0 :: h1 :: t)) with ([h0] ++ [h1]).
    change ((h0 :: h1 :: t) ++ [h0] ++ [h1]) with (h0 :: ((h1 :: t) ++ [h0] ++ [h1])).
    rewrite adjTriples_secondEdge, app_assoc, adjPairs_snoc, last_snoc. reflexivity.
  - reflexivity.
Qed.

Lemma cyclicTriples_middle (h0 h1 : Point) t :
  map middle (cyclicTriples (h0 :: h1 :: t)) = (h1 :: t) ++ [h0].
Proof.
  unfold cyclicTriples.
  change (take 2 (h0 :: h1 :: t)) with ([h0] ++ [h1]).
  change ((h0 :: h1 :: t) ++ [h0] ++ [h1]) with (h0 :: ((h1 :: t) ++ [h0] ++ [h1])).
  rewrite app_assoc. apply adjTriples_middle.
Qed.

Lemma cyclicTriples_count_firstEdge f (h : Polygon) :
  (2 <= length h)%nat ->
  countEdges f (map firstEdge (cyclicTriples h)) = countEdges f (cyclicEdges h).
Proof.
  intros Hlen. destruct h as [| h0 [| h1 t]]; cbn in Hlen; try lia.
  now rewrite cyclicTriples_firstEdge.
Qed.

Lemma cyclicTriples_count_secondEdge f (h : Polygon) :
  (2 <= length h)%nat ->
  countEdges f (map secondEdge (cyclicTriples h)) = countEdges f (cyclicEdges h).
Proof.
  intros Hlen. destruct h as [| h0 [| h1 t]]; cbn in Hlen; try lia.
  destruct (cyclicTriples_secondEdge h0 h1 t) as (E & -> & ->).
  rewrite countEdges_app. cbn [countEdges]. lia.
Qed.

(** Going round: the two edges of three consecutive vertices are edges of
    the polygon, the ends of an edge are vertices, every vertex is in the
    middle of three, and with no repeated point the middle vertex tells
    which three. *)
Lemma cyclicTriples_edges (h : Polygon) a b c :
  In (a, b, c) (cyclicTriples h) ->
  In (a, b) (cyclicEdges h) /\ In (b, c) (cyclicEdges h).
Proof.
  intros H.
  destruct h as [| h0 [| h1 t]]; [destruct H | destruct H |].
  split.
  - rewrite <- cyclicTriples_firstEdge.
    apply (in_map firstEdge) in H. exact H.
  - destruct (cyclicTriples_secondEdge h0 h1 t) as (E & E1 & E2).
    apply (in_map secondEdge) in H. rewrite E1 in H. rewrite E2.
    apply in_app_or in H. destruct H as [H | [H | []]]; [now right | now left].
Qed.

Lemma cyclicEdges_vertices (h : Polygon) a b :
  In (a, b) (cyclicEdges h) -> In a h /\ In b h.
Proof.
  intros H. apply adjPairs_In in H. destruct H as [Ha Hb].
  assert (K : forall v, In v (h ++ take 1 h) -> In v h).
  { intros v Hv. apply in_app_or in Hv. destruct Hv as [Hv | Hv]; [exact Hv |].
    destruct h as [| h0 t]; [destruct Hv |].
    destruct Hv as [<- | []]. now left. }
  split; apply K; assumption.
Qed.

Lemma cyclicTriples_around (h : Polygon) v :
  (2 <= length h)%nat -> In v h ->
  exists u w, In (u, v, w) (cyclicTriples h).
Proof.
  intros Hlen Hv. destruct h as [| h0 [| h1 t]]; cbn in Hlen; try lia.
  assert (Hm : In v (map middle (cyclicTriples (h0 :: h1 :: t)))).
  { rewrite cyclicTriples_middle. apply in_or_app.
    destruct Hv as [<- | Hv]; [right; now left | now left]. }
  apply in_map_iff in Hm. destruct Hm as ([[u v'] w] & E & H).
  cbn in E. subst v'. now exists u, w.
Qed.

Lemma cyclicTriples_position (h : Polygon) i j t u :
  distinctVertices h ->
  cyclicTriples h !! i = Some t -> cyclicTriples h !! j = Some u ->
  peq (middle t) (middle u) -> i = j.
Proof.
  intros Hd Hi Hj Hp.
  destruct h as [| h0 [| h1 r]]; [discriminate | discriminate |].
  assert (Hi' : ((h1 :: r) ++ [h0]) !! i = Some (middle t)).
  { rewrite <- cyclicTriples_middle, list_lookup_fmap, Hi. reflexivity. }
  assert (Hj' : ((h1 :: r) ++ [h0]) !! j = Some (middle u)).
  { rewrite <- cyclicTriples_middle, list_lookup_fmap, Hj. reflexivity. }
  apply lookup_app_Some in Hi', Hj'.
  destruct Hi' as [Hi' | [Li Hi']], Hj' as [Hj' | [Lj Hj']].
  - specialize (Hd (S i) (S j) _ _ Hi' Hj' Hp). lia.
  - apply list_lookup_singleton_Some in Hj'. destruct Hj' as [Hj' E].
    rewrite <- E in Hp.
    specialize (Hd (S i) 0%nat (middle t) h0 Hi' eq_refl Hp). lia.
  - apply list_lookup_singleton_Some in Hi'. destruct Hi' as [Hi' E].
    rewrite <- E in Hp.
    specialize (Hd 0%nat (S j) h0 (middle u) eq_refl Hj' Hp). lia.
  - apply list_lookup_singleton_Some in Hi', Hj'. lia.
Qed.

End Cyclic.

(** *** The edges that pass the level of the point *)

Section Level.
Import Num NumFacts.
Variable p : Point.

(** Along a chain, the edges that go down and the edges that go up differ
    by what the two ends are; round a polygon they are as many. *)
Lemma level_linear l : forall f z,
  head l = Some f -> last l = Some z ->
  (countEdges (goesDown p) (adjPairs l) + Nat.b2n (above p z)
   = countEdges (goesUp p) (adjPairs l) + Nat.b2n (above p f))%nat.
Proof.
  induction l as [| a l IH]; intros f z Hf Hz; [discriminate |].
  injection Hf as ->.
  destruct l as [| b l].
  - injection Hz as ->. reflexivity.
  - rewrite adjPairs_eq. cbn [countEdges].
    specialize (IH b z eq_refl Hz).
    unfold goesDown, goesUp in *.
    destruct (above p f), (above p b); cbn in *; lia.
Qed.

Lemma level_balance (h : Polygon) :
  countEdges (goesDown p) (cyclicEdges h) = countEdges (goesUp p) (cyclicEdges h).
Proof.
  destruct h as [| h0 t]; [reflexivity |].
  unfold cyclicEdges. change (take 1 (h0 :: t)) with [h0].
  pose proof (level_linear ((h0 :: t) ++ [h0]) h0 h0 eq_refl (last_snoc _ _)) as H.
  lia.
Qed.

(** With no edge passing the level, all the vertices are on one side. *)
Lemma level_constant (l : list Point) :
  (forall a b, In (a, b) (adjPairs l) -> above p a = above p b) ->
  forall a b, In a l -> In b l -> above p a = above p b.
Proof.
  induction l as [| c l IH]; intros H a b Ha Hb; [destruct Ha |].
  destruct l as [| d l].
  - destruct Ha as [<- | []], Hb as [<- | []]. reflexivity.
  - assert (Hcd : above p c = above p d) by (apply H; now left).
    assert (IH' : forall a b, In a (d :: l) -> In b (d :: l) -> above p a = above p b).
    { apply IH. intros a' b' H'. apply H. now right. }
    assert (K : forall a, In a (c :: d :: l) -> above p a = above p d).
    { intros a' [<- | H']; [exact Hcd | apply IH'; [exact H' | now left]]. }
    rewrite (K a Ha), (K b Hb). reflexivity.
Qed.

Lemma level_mixed (h : Polygon) u v :
  In u h -> In v h -> above p u = true -> above p v = false ->
  (1 <= countEdges (goesDown p) (cyclicEdges h))%nat.
Proof.
  intros Hu Hv Eu Ev.
  destruct (countEdges (goesDown p) (cyclicEdges h)) eqn:E; [exfalso | lia].
  pose proof (level_balance h) as B. rewrite E in B. symmetry in B.
  assert (K : forall a b, In (a, b) (cyclicEdges h) -> above p a = above p b).
  { intros a b Hab.
    pose proof (proj1 (countEdges_zero _ _) E a b Hab) as H1.
    pose proof (proj1 (countEdges_zero _ _) B a b Hab) as H2.
    unfold goesDown, goesUp in *.
    destruct (above p a), (above p b); cbn in *; congruence. }
  pose proof (level_constant _ K u v) as H.
  rewrite Eu, Ev in H. discriminate H; apply in_or_app; now left.
Qed.

(** A highest and a lowest vertex. *)
Lemma highest (h : list Point) :
  h <> [] -> exists v, In v h /\ forall u, In u h -> (y u <= y v)%Q.
Proof.
  induction h as [| a h IH]; intros Hne; [contradiction |].
  destruct h as [| b h].
  - exists a. split; [now left |]. intros u [<- | []]. lra.
  - destruct IH as (v & Hv & Hmax); [discriminate |].
    destruct (Qlt_le_dec (y v) (y a)) as [H | H].
    + exists a. split; [now left |].
      intros u [<- | Hu]; [lra |]. specialize (Hmax u Hu). lra.
    + exists v. split; [now right |].
      intros u [<- | Hu]; [exact H | now apply Hmax].
Qed.

Lemma lowest (h : list Point) :
  h <> [] -> exists v, In v h /\ forall u, In u h -> (y v <= y u)%Q.
Proof.
  induction h as [| a h IH]; intros Hne; [contradiction |].
  destruct h as [| b h].
  - exists a. split; [now left |]. intros u [<- | []]. lra.
  - destruct IH as (v & Hv & Hmin); [discriminate |].
    destruct (Qlt_le_dec (y a) (y v)) as [H | H].
    + exists a. split; [now left |].
      intros u [<- | Hu]; [lra |]. specialize (Hmin u Hu). lra.
    + exists v. split; [now right |].
      intros u [<- | Hu]; [exact H | now apply Hmin].
Qed.

Lemma above_true v : above p v = true <-> (y p < y v)%Q.
Proof. unfold above. apply gt_iff. Qed.

Lemma above_false v : above p v = false <-> (y v <= y p)%Q.
Proof. unfold above. apply gt_false_iff. Qed.

Lemma goesDown_true a b :
  goesDown p a b = true <-> (y b <= y p)%Q /\ (y p < y a)%Q.
Proof.
  unfold goesDown. rewrite andb_true_iff, negb_true_iff, above_true, above_false.
  tauto.
Qed.

Lemma goesUp_true a b :
  goesUp p a b = true <-> (y a <= y p)%Q /\ (y p < y b)%Q.
Proof.
  unfold goesUp. rewrite andb_true_iff, negb_true_iff, above_true, above_false.
  tauto.
Qed.

(** The edge test, by the way the edge passes the level of the point. *)
Lemma intersect_cases a b :
  (goesDown p a b = true /\ goesUp p a b = false
   /\ (intersect p b a = true <-> (cross a b p < 0)%Q))
  \/ (goesDown p a b = false /\ goesUp p a b = true
      /\ (intersect p b a = true <-> (0 < cross a b p)%Q))
  \/ (goesDown p a b = false /\ goesUp p a b = false /\ intersect p b a = false).
Proof.
  unfold goesDown, goesUp.
  destruct (above p a) eqn:Ea, (above p b) eqn:Eb; cbn [andb negb].
  - right; right. repeat split. apply intersect_level.
    unfold above in *. congruence.
  - left. repeat split; apply intersect_down;
      first [now apply above_false | now apply above_true].
  - right; left. repeat split; apply intersect_up;
      first [now apply above_false | now apply above_true].
  - right; right. repeat split. apply intersect_level.
    unfold above in *. congruence.
Qed.

Section Convex.

Variable h : Polygon.
Hypothesis Hlen : (3 <= length h)%nat.
Hypothesis Hconvex : convexPolygon h.
Hypothesis Hdistinct : distinctVertices h.

Lemma convex_edge_vertex a b v :
  In (a, b) (cyclicEdges h) -> In v h -> (cross a b v <= 0)%Q.
Proof. intros Hab Hv. exact (proj1 Hconvex v Hv a b Hab). Qed.

(** At most one edge goes down past the level of the point, and at most
    one goes up. *)
Lemma goesDown_once : (countEdges (goesDown p) (cyclicEdges h) <= 1)%nat.
Proof.
  rewrite <- cyclicTriples_count_firstEdge by lia.
  apply countEdges_unique. intros i j [[a b] b'] [[c d] d'] Hi Hj Ht Hu.
  cbn in Ht, Hu. apply goesDown_true in Ht, Hu.
  apply (cyclicTriples_position h i j _ _ Hdistinct Hi Hj).
  cbn [middle fst snd].
  apply list_elem_of_lookup_2, list_elem_of_In in Hi, Hj.
  destruct (cyclicTriples_edges h a b b' Hi) as [Eab Ebb].
  destruct (cyclicTriples_edges h c d d' Hj) as [Ecd Edd].
  destruct (cyclicEdges_vertices h a b Eab) as [Va Vb].
  destruct (cyclicEdges_vertices h c d Ecd) as [Vc Vd].
  apply (down_unique a b b' c d d' (y p)); try tauto;
    first [ now apply convex_edge_vertex | now apply (proj2 Hconvex) ].
Qed.

Lemma goesUp_once : (countEdges (goesUp p) (cyclicEdges h) <= 1)%nat.
Proof.
  rewrite <- cyclicTriples_count_secondEdge by lia.
  apply countEdges_unique. intros i j [[a' a] b] [[c' c] d] Hi Hj Ht Hu.
  cbn in Ht, Hu. apply goesUp_true in Ht, Hu.
  apply (cyclicTriples_position h i j _ _ Hdistinct Hi Hj).
  cbn [middle fst snd].
  apply list_elem_of_lookup_2, list_elem_of_In in Hi, Hj.
  destruct (cyclicTriples_edges h a' a b Hi) as [Eaa Eab].
  destruct (cyclicTriples_edges h c' c d Hj) as [Ecc Ecd].
  destruct (cyclicEdges_vertices h a b Eab) as [Va Vb].
  destruct (cyclicEdges_vertices h c d Ecd) as [Vc Vd].
  apply (up_unique a' a b c' c d (y p)); try tauto;
    first [ now apply convex_edge_vertex | now apply (proj2 Hconvex) ].
Qed.

(** A point strictly inside: the ray crosses the edge that goes down, and
    no other. *)
Lemma within_crossings : strictlyWithin p h -> crossings p h = 1%nat.
Proof.
  intros Hin.
  assert (E : crossings p h = countEdges (goesDown p) (cyclicEdges h)).
  { unfold crossings. apply countEdges_ext. intros a b Hab.
    specialize (Hin a b Hab).
    destruct (intersect_cases a b) as [(-> & _ & H) | [(-> & _ & H) | (-> & _ & H)]].
    - now apply H.
    - destruct (intersect p b a); [| reflexivity].
      assert (0 < cross a b p)%Q by now apply H. lra.
    - exact H. }
  rewrite E. pose proof goesDown_once as Hle.
  assert (Hne : h <> []) by (intros ->; cbn in Hlen; lia).
  destruct (highest h Hne) as (v & Hv & Hmax).
  destruct (lowest h Hne) as (w & Hw & Hmin).
  assert (Hge : (1 <= countEdges (goesDown p) (cyclicEdges h))%nat).
  { apply (level_mixed h v w Hv Hw).
    - destruct (cyclicTriples_around h v) as (u1 & u2 & Ht); [lia | exact Hv |].
      destruct (cyclicTriples_edges h u1 v u2 Ht) as [E1 E2].
      destruct (cyclicEdges_vertices h u1 v E1) as [V1 _].
      destruct (cyclicEdges_vertices h v u2 E2) as [_ V2].
      apply above_true.
      apply (top_vertex_above u1 v u2 p); auto. now apply (proj2 Hconvex).
    - destruct (cyclicTriples_around h w) as (u1 & u2 & Ht); [lia | exact Hw |].
      destruct (cyclicTriples_edges h u1 w u2 Ht) as [E1 E2].
      destruct (cyclicEdges_vertices h u1 w E1) as [V1 _].
      destruct (cyclicEdges_vertices h w u2 E2) as [_ V2].
      apply above_false.
      assert (y w < y p)%Q; [| lra].
      apply (bottom_vertex_below u1 w u2 p); auto. now apply (proj2 Hconvex). }
  lia.
Qed.

Lemma countEdges_sum f g1 g2 l :
  (forall a b, In (a, b) l ->
     Nat.b2n (f a b) = (Nat.b2n (g1 a b) + Nat.b2n (g2 a b))%nat) ->
  countEdges f l = (countEdges g1 l + countEdges g2 l)%nat.
Proof.
  induction l as [| [a b] l IH]; intros H; [reflexivity |].
  cbn [countEdges].
  rewrite IH by (intros a' b' H'; apply H; now right).
  pose proof (H a b (or_introl eq_refl)) as Hab.
  destruct (f a b), (g1 a b), (g2 a b); cbn in *; lia.
Qed.

(** A point strictly outside: the ray crosses both edges or neither. *)
Lemma beyond_crossings : strictlyBeyond p h -> Nat.odd (crossings p h) = false.
Proof.
  intros (g1 & g2 & Hg & Hout).
  set (cD := countEdges (fun a b => goesDown p a b && intersect p b a) (cyclicEdges h)).
  set (cU := countEdges (fun a b => goesUp p a b && intersect p b a) (cyclicEdges h)).
  assert (E : crossings p h = (cD + cU)%nat).
  { unfold crossings. apply countEdges_sum. intros a b _.
    destruct (intersect_cases a b) as [(-> & -> & H) | [(-> & -> & H) | (-> & -> & H)]];
      cbn [andb Nat.b2n]; [lia | lia | rewrite H; reflexivity]. }
  assert (HD : (cD <= 1)%nat).
  { transitivity (countEdges (goesDown p) (cyclicEdges h)); [| apply goesDown_once].
    apply countEdges_le. intros a b _ H. now apply andb_true_iff in H. }
  assert (HU : (cU <= 1)%nat).
  { transitivity (countEdges (goesUp p) (cyclicEdges h)); [| apply goesUp_once].
    apply countEdges_le. intros a b _ H. now apply andb_true_iff in H. }
  destruct (cyclicEdges_vertices h g1 g2 Hg) as [_ _].
  assert (HDU : (1 <= cD)%nat -> (1 <= cU)%nat).
  { intros H. apply countEdges_pos in H. destruct H as (a & b & Hab & H).
    apply andb_true_iff in H. destruct H as [Hd Hi].
    assert (Hup : (1 <= countEdges (goesUp p) (cyclicEdges h))%nat).
    { rewrite <- level_balance. apply countEdges_pos. now exists a, b. }
    apply countEdges_pos in Hup. destruct Hup as (c & d & Hcd & Hu).
    apply countEdges_pos. exists c, d. split; [exact Hcd |].
    rewrite Hu. cbn [andb].
    destruct (intersect p d c) eqn:Ei; [reflexivity | exfalso].
    destruct (intersect_cases a b) as [(_ & _ & Ka) | [(Ka & _) | (Ka & _)]];
      [| congruence | congruence].
    destruct (intersect_cases c d) as [(_ & Kc & _) | [(_ & _ & Kc) | (_ & Kc & _)]];
      [congruence | | congruence].
    apply goesDown_true in Hd. apply goesUp_true in Hu.
    assert (Xa : (cross a b p < 0)%Q) by now apply Ka.
    assert (Xc : (cross c d p <= 0)%Q).
    { destruct (Qlt_le_dec 0 (cross c d p)) as [X | X]; [| exact X].
      apply Kc in X. congruence. }
    destruct (cyclicEdges_vertices h a b Hab) as [Va Vb].
    destruct (cyclicEdges_vertices h c d Hcd) as [Vc Vd].
    assert (cross g1 g2 p <= 0)%Q; [| lra].
    apply (slab_within g1 g2 a b c d p); try tauto;
      now apply convex_edge_vertex. }
  assert (HUD : (1 <= cU)%nat -> (1 <= cD)%nat).
  { intros H. apply countEdges_pos in H. destruct H as (c & d & Hcd & H).
    apply andb_true_iff in H. destruct H as [Hu Hi].
    assert (Hdn : (1 <= countEdges (goesDown p) (cyclicEdges h))%nat).
    { rewrite level_balance. apply countEdges_pos. now exists c, d. }
    apply countEdges_pos in Hdn. destruct Hdn as (a & b & Hab & Hd).
    apply countEdges_pos. exists a, b. split; [exact Hab |].
    rewrite Hd. cbn [andb].
    destruct (intersect_cases a b) as [(_ & _ & Ka) | [(Ka & _) | (Ka & _)]];
      [| congruence | congruence].
    destruct (intersect_cases c d) as [(_ & Kc & _) | [(_ & _ & Kc) | (_ & Kc & _)]];
      [congruence | | congruence].
    apply goesDown_true in Hd. apply goesUp_true in Hu.
    apply Ka. apply Kc in Hi.
    destruct (cyclicEdges_vertices h c d Hcd) as [Vc Vd].
    apply (slab_order a b c d p); try tauto; now apply convex_edge_vertex. }
  rewrite E.
  assert (K : (cD = 0 /\ cU = 0)%nat \/ (cD = 1 /\ cU = 1)%nat) by lia.
  destruct K as [[-> ->] | [-> ->]]; reflexivity.
Qed.

End Convex.
End Level.

(** The answer of [isPointInPolygon] on a convex polygon. *)
Lemma convex_ray_cast (p : Point) (h : Polygon) :
  (3 <= length h)%nat -> convexPolygon h -> distinctVertices h ->
  (strictlyWithin p h -> isPointInPolygon p h = Some true)
  /\ (strictlyBeyond p h -> isPointInPolygon p h = Some false).
Proof.
  intros Hlen Hc Hd. rewrite isPointInPolygon_count. split; intros H.
  - now rewrite (within_crossings p h Hlen Hc Hd H).
  - now rewrite (beyond_crossings p h Hlen Hc Hd H).
Qed.

(** ** What the ray test does not depend on *)

Section Invariance.
Import Num NumFacts.

(** The edges of a polygon are the same from whichever vertex the array
    starts, and the same, reversed, when it goes round the other way. *)
Lemma crossings_rotate1 p a l : crossings p (l ++ [a]) = crossings p (a :: l).
Proof.
  unfold crossings, cyclicEdges.
  destruct l as [| b l]; [reflexivity |].
  change (take 1 ((b :: l) ++ [a])) with [b].
  change (take 1 (a :: b :: l)) with [a].
  rewrite adjPairs_snoc, last_snoc, countEdges_app.
  change ((a :: b :: l) ++ [a]) with (a :: b :: (l ++ [a])).
  rewrite adjPairs_eq. cbn [countEdges]. cbn [app]. lia.
Qed.

Lemma crossings_rotate p l1 : forall l2,
  crossings p (l1 ++ l2) = crossings p (l2 ++ l1).
Proof.
  induction l1 as [| a l1 IH]; intros l2; [now rewrite app_nil_r |].
  cbn [app]. rewrite <- crossings_rotate1, <- app_assoc, IH, <- app_assoc.
  reflexivity.
Qed.

Lemma countEdges_rev f l :
  countEdges f (adjPairs (rev l)) = countEdges (fun a b => f b a) (adjPairs l).
Proof.
  induction l as [| a l IH]; [reflexivity |].
  destruct l as [| b l]; [reflexivity |].
  rewrite adjPairs_eq. cbn [countEdges]. rewrite <- IH.
  change (rev (a :: b :: l)) with (rev (b :: l) ++ [a]).
  rewrite adjPairs_snoc, last_rev, countEdges_app. cbn. lia.
Qed.

Lemma crossings_rev p h : crossings p (rev h) = crossings p h.
Proof.
  destruct h as [| z h] using rev_ind; [reflexivity |].
  rewrite crossings_rotate1.
  rewrite rev_app_distr. cbn [rev app].
  unfold crossings, cyclicEdges.
  change (take 1 (z :: rev h)) with [z].
  change (take 1 (z :: h)) with [z].
  replace ((z :: rev h) ++ [z]) with (rev (z :: h ++ [z]))
    by (cbn [rev]; rewrite rev_app_distr; reflexivity).
  rewrite countEdges_rev.
  change ((z :: h) ++ [z]) with (z :: h ++ [z]).
  apply countEdges_ext. intros a b _. apply intersect_sym.
Qed.


End Invariance.

Section Translation.
Import Num NumFacts.
Variables dx dy : number.

(** The comparisons and the edge test, after a move by [(dx, dy)]. *)
Lemma lt_translate (d a b : number) : lt (a + d) (b + d) = lt a b.
Proof.
  destruct (lt a b) eqn:E.
  - apply lt_iff in E. apply lt_iff. lra.
  - apply lt_false_iff in E. apply lt_false_iff. lra.
Qed.

Lemma intersect_translate p a b :
  intersect (translate dx dy p) (translate dx dy a) (translate dx dy b)
  = intersect p a b.
Proof.
  unfold intersect, translate. cbn [x y]. unfold gt.
  rewrite !lt_translate.
  destruct (Bool.eqb (lt (y p) (y a)) (lt (y p) (y b))) eqn:E;
    cbn [negb]; [reflexivity |].
  pose proof (intersect_divisor p a b E) as Hd.
  rewrite <- (lt_translate dx (x p)).
  apply lt_proper; [reflexivity |].
  field. lra.
Qed.

Lemma adjPairs_map {A B : Type} (f : A -> B) (l : list A) :
  adjPairs (map f l) = map (fun e => (f e.1, f e.2)) (adjPairs l).
Proof.
  induction l as [| a l IH]; [reflexivity |].
  destruct l as [| b l]; [reflexivity |].
  cbn [map] in *. rewrite !adjPairs_eq. cbn [map fst snd]. now rewrite IH.
Qed.

Lemma countEdges_map (g : Point -> Point) f (l : list (Point * Point)) :
  countEdges f (map (fun e => (g e.1, g e.2)) l)
  = countEdges (fun a b => f (g a) (g b)) l.
Proof.
  induction l as [| [a b] l IH]; [reflexivity |].
  cbn [map countEdges fst snd]. now rewrite IH.
Qed.

Lemma crossings_translate p h :
  crossings (translate dx dy p) (map (translate dx dy) h) = crossings p h.
Proof.
  unfold crossings, cyclicEdges.
  replace (map (translate dx dy) h ++ take 1 (map (translate dx dy) h))
    with (map (translate dx dy) (h ++ take 1 h))
    by (rewrite map_app; destruct h; reflexivity).
  rewrite adjPairs_map, countEdges_map.
  apply countEdges_ext. intros a b _. apply intersect_translate.
Qed.


End Translation.

(** ** The ray test on a convex polygon, in either direction *)

(** The polygon on which the theorem below is applied: a triangle. *)
Lemma triangle_convex :
  convexPolygon [ {| x := 0; y := 0 |}; {| x := 0; y := 4 |}; {| x := 4; y := 0 |} ].
Proof.
  split.
  - intros v Hv a b Hab. cbn in Hv, Hab.
    destruct Hab as [E | [E | [E | []]]]; injection E as <- <-;
      destruct Hv as [<- | [<- | [<- | []]]]; unfold cross; cbn; lra.
  - intros a b c H. cbn in H.
    destruct H as [E | [E | [E | []]]]; injection E as <- <- <-;
      unfold cross; cbn; lra.
Qed.

Lemma triangle_distinct :
  distinctVertices [ {| x := 0; y := 0 |}; {| x := 0; y := 4 |}; {| x := 4; y := 0 |} ].
Proof.
  intros i j a b Hi Hj [Hx Hy].
  destruct i as [| [| [| i]]]; try discriminate; injection Hi as <-;
    destruct j as [| [| [| j]]]; try discriminate; injection Hj as <-;
    try reflexivity; cbn in Hx, Hy; lra.
Qed.



(** ** The hull lists no point twice *)

Section HullDistinct.
Local Open Scope Q_scope.

(** Strictly before is transitive. *)
Lemma lexlt_trans a b c : lexlt a b -> lexlt b c -> lexlt a c.
Proof.
  intros [H1 N1] [H2 N2]. split; [exact (lexle_trans _ _ _ H1 H2) |].
  intros E. apply N1. apply lexle_antisym; [exact H1 |].
  apply (lexle_trans b c a H2). apply lexle_refl, peq_sym, E.
Qed.

(** An inner vertex [u] of the upper chain and an inner vertex [l] of the
    lower chain are not the same point: the chain through [u] advances in
    the order of the sort and turns strictly, the chain through [l] goes
    back, and neither has a vertex of the other on its outer side. *)
Lemma cone_apart um u up lm l :
  lexlt um u -> lexlt l lm -> peq u l ->
  cross um u up < 0 ->
  cross um u lm <= 0 -> cross u up lm <= 0 -> cross lm l um <= 0 -> False.
Proof.
  intros [L1 N1] [L2 N2] [Ex Ey] T G1 G2 G3.
  pose proof (lexle_strict _ _ L1 N1) as K1.
  pose proof (lexle_strict _ _ L2 N2) as K2.
  clear L1 N1 L2 N2.
  assert (Z : cross um u lm == 0).
  { assert (E : cross lm l um == - cross um u lm
                 + (x l - x u) * (y um - y lm) - (y l - y u) * (x um - x lm))
      by (unfold cross; ring).
    rewrite Ex, Ey in E. lra. }
  pose proof (cross_jacobi_x u um up lm) as Jx.
  pose proof (cross_jacobi_y u um up lm) as Jy.
  assert (R1 : cross u um up == - cross um u up)
    by (unfold cross; ring).
  assert (R2 : cross u lm um == cross um u lm) by (unfold cross; ring).
  rewrite R1, R2, Z in Jx, Jy.
  set (A := cross um u up) in *. set (B := cross u up lm) in *.
  assert (Jx' : A * (x lm - x u) == B * (x um - x u)) by lra.
  assert (Jy' : A * (y lm - y u) == B * (y um - y u)) by lra.
  clear Jx Jy R1 R2 Z G1 G3.
  destruct K1 as [K1 | [K1 K1']]; destruct K2 as [K2 | [K2 K2']].
  - assert (A * (x lm - x u) < 0) by nra.
    assert (0 <= B * (x um - x u)) by nra. lra.
  - assert (E : x lm - x u == 0) by lra. rewrite E in Jx'.
    assert (B == 0) by nra.
    assert (A * (y lm - y u) < 0) by nra. nra.
  - assert (E : x um - x u == 0) by lra. rewrite E in Jx'.
    assert (A * (x lm - x u) < 0) by nra. lra.
  - assert (A * (y lm - y u) < 0) by nra.
    assert (0 <= B * (y um - y u)) by nra. lra.
Qed.

Section Lists.
Context {A : Type}.

(** More on neighbours and on sorted lists. *)
Lemma adjTriples_pairs (l : list A) a b c :
  In (a, b, c) (adjTriples l) -> In (a, b) (adjPairs l) /\ In (b, c) (adjPairs l).
Proof.
  induction l as [| a0 l IH]; [intros [] |].
  destruct l as [| b0 [| c0 l]]; [intros [] | intros [] |].
  rewrite adjTriples_eq, !adjPairs_eq. intros [E | H].
  - injection E as -> -> ->. split; [now left | right; now left].
  - destruct (IH H) as [H1 H2]. rewrite adjPairs_eq in H1, H2.
    split; right; assumption.
Qed.

Lemma adjPairs_Sorted (R : A -> A -> Prop) (l : list A) :
  (forall a b, In (a, b) (adjPairs l) -> R a b) -> Sorted R l.
Proof.
  induction l as [| a l IH]; intros H; [constructor |].
  destruct l as [| b l]; [repeat constructor |].
  constructor.
  - apply IH. intros u v Huv. apply H. now right.
  - constructor. apply H. now left.
Qed.

Lemma adjPairs_before (l : list A) : forall z v,
  In v l -> exists u, In (u, v) (adjPairs (z :: l)).
Proof.
  induction l as [| a l IH]; intros z v Hv; [destruct Hv |].
  destruct Hv as [<- | Hv].
  - exists z. now left.
  - destruct (IH a v Hv) as [u Hu]. exists u. now right.
Qed.

Lemma StronglySorted_weaken (R R' : A -> A -> Prop) (l : list A) :
  (forall a b, R a b -> R' a b) -> StronglySorted R l -> StronglySorted R' l.
Proof.
  intros H. induction 1 as [| a l _ IH HF]; constructor; [exact IH |].
  eapply Forall_impl; [exact HF | exact (H a)].
Qed.

Lemma StronglySorted_lookup (R : A -> A -> Prop) (l : list A) :
  StronglySorted R l ->
  forall i j u v, (i < j)%nat -> l !! i = Some u -> l !! j = Some v -> R u v.
Proof.
  induction 1 as [| a l _ IH HF]; intros i j u v Hij Hi Hj; [discriminate |].
  destruct j as [| j]; [lia |]. cbn in Hj.
  destruct i as [| i].
  - injection Hi as <-. rewrite Forall_forall in HF.
    apply HF. eapply list_elem_of_lookup_2. exact Hj.
  - cbn in Hi. apply (IH i j); [lia | assumption | assumption].
Qed.

Lemma StronglySorted_app_intro (R : A -> A -> Prop) (l1 l2 : list A) :
  (forall x1 x2, In x1 l1 -> In x2 l2 -> R x1 x2) ->
  StronglySorted R l1 -> StronglySorted R l2 -> StronglySorted R (l1 ++ l2).
Proof.
  intros Hc H1 H2. induction H1 as [| a l _ IH HF]; [exact H2 |].
  cbn [app]. constructor.
  - apply IH. intros x1 x2 Hx1 Hx2. apply Hc; [now right | exact Hx2].
  - apply Forall_app. split; [exact HF |].
    apply Forall_forall. intros x Hx. apply Hc; [now left |].
    now apply list_elem_of_In.
Qed.

Lemma StronglySorted_app_cross (R : A -> A -> Prop) (l1 l2 : list A) x1 x2 :
  StronglySorted R (l1 ++ l2) -> In x1 l1 -> In x2 l2 -> R x1 x2.
Proof.
  induction l1 as [| a l1 IH]; intros Hs H1 H2; [destruct H1 |].
  cbn [app] in Hs. apply StronglySorted_inv in Hs. destruct Hs as [Hs HF].
  destruct H1 as [<- | H1]; [| now apply IH].
  rewrite Forall_forall in HF. apply HF.
  apply list_elem_of_In, in_or_app. now right.
Qed.

Lemma StronglySorted_app_l (R : A -> A -> Prop) (l1 l2 : list A) :
  StronglySorted R (l1 ++ l2) -> StronglySorted R l1.
Proof.
  induction l1 as [| a l1 IH]; intros Hs; [constructor |].
  cbn [app] in Hs. apply StronglySorted_inv in Hs. destruct Hs as [Hs HF].
  constructor; [now apply IH |].
  apply Forall_app in HF. tauto.
Qed.

End Lists.

(** A list in which every point differs from every later one. *)
Lemma distinct_of_sorted (h : Polygon) :
  StronglySorted (fun u v => ~ peq u v) h -> distinctVertices h.
Proof.
  intros Hs i j a b Hi Hj Hp.
  destruct (Nat.lt_trichotomy i j) as [H | [H | H]]; [exfalso | exact H | exfalso].
  - exact (StronglySorted_lookup _ _ Hs i j a b H Hi Hj Hp).
  - exact (StronglySorted_lookup _ _ Hs j i b a H Hj Hi (peq_sym _ _ Hp)).
Qed.

(** The two ends of an edge of a polygon that turns strictly differ. *)
Lemma turns_edges_differ (h : Polygon) :
  turnsConsistently h -> (2 <= length h)%nat ->
  forall u v, In (u, v) (cyclicEdges h) -> ~ peq u v.
Proof.
  intros Ht Hlen u v Huv [Ex Ey].
  destruct h as [| h0 [| h1 t]]; cbn in Hlen; try lia.
  rewrite <- cyclicTriples_firstEdge in Huv.
  apply in_map_iff in Huv. destruct Huv as ([[u' v'] w] & E & H).
  cbn in E. injection E as -> ->.
  specialize (Ht u v w H). unfold cross in Ht. nra.
Qed.

Section ClosedDistinct.

Variables (pts : list Point) (a m : Point) (us ls : list Point).
Hypothesis CC : ClosedChains pts a m us ls.
Hypothesis Hturns : turnsConsistently ((a :: us) ++ m :: ls).

(** The edges of the hull are those of the two chains.  Each chain is
    strictly sorted, the upper one forwards and the lower one backwards. *)
Lemma closed_edges :
  cyclicEdges ((a :: us) ++ m :: ls)
  = adjPairs (a :: us ++ [m]) ++ adjPairs (m :: ls ++ [a]).
Proof.
  unfold cyclicEdges.
  change (take 1 ((a :: us) ++ m :: ls)) with [a].
  rewrite <- app_assoc.
  change ((m :: ls) ++ [a]) with (m :: ls ++ [a]).
  now rewrite adjPairs_app_mid.
Qed.

Lemma closed_edges_differ u v :
  In (u, v) (adjPairs (a :: us ++ [m])) \/ In (u, v) (adjPairs (m :: ls ++ [a])) ->
  ~ peq u v.
Proof.
  intros H. apply (turns_edges_differ _ Hturns).
  - cbn. rewrite length_app. cbn. lia.
  - rewrite closed_edges. now apply in_or_app.
Qed.

Lemma closed_upper_sorted : StronglySorted lexlt (a :: us ++ [m]).
Proof.
  apply Sorted.Sorted_StronglySorted.
  - intros u v w. apply lexlt_trans.
  - apply adjPairs_Sorted. intros u v H. split.
    + exact (cc_sorted_U _ _ _ _ _ CC u v H).
    + apply closed_edges_differ. now left.
Qed.

Lemma closed_lower_sorted : StronglySorted (fun u v => lexlt v u) (m :: ls ++ [a]).
Proof.
  apply Sorted.Sorted_StronglySorted.
  - intros u v w H1 H2. exact (lexlt_trans _ _ _ H2 H1).
  - apply adjPairs_Sorted. intros u v H. split.
    + exact (cc_sorted_L _ _ _ _ _ CC u v H).
    + intros E. apply (closed_edges_differ u v); [now right | now apply peq_sym].
Qed.

Lemma closed_inner_apart u l : In u us -> In l ls -> ~ peq u l.
Proof.
  intros Hu Hl E.
  assert (Hm : In u (map middle (adjTriples (a :: us ++ [m]))))
    by now rewrite adjTriples_middle.
  apply in_map_iff in Hm. destruct Hm as ([[um u'] up] & Eu & Ht).
  cbn in Eu. subst u'.
  destruct (adjTriples_pairs _ _ _ _ Ht) as [P1 P2].
  destruct (adjPairs_before (ls ++ [a]) m l) as [lm Plm];
    [apply in_or_app; now left |].
  assert (Vlm : In lm pts).
  { apply (cc_sub_L _ _ _ _ _ CC). exact (proj1 (adjPairs_In _ _ _ Plm)). }
  assert (Vum : In um pts).
  { apply (cc_sub_U _ _ _ _ _ CC). exact (proj1 (adjPairs_In _ _ _ P1)). }
  apply (cone_apart um u up lm l).
  - split; [exact (cc_sorted_U _ _ _ _ _ CC um u P1) |].
    apply closed_edges_differ. now left.
  - split; [exact (cc_sorted_L _ _ _ _ _ CC lm l Plm) |].
    intros E'. apply (closed_edges_differ lm l); [now right | now apply peq_sym].
  - exact E.
  - exact (cc_turns_U _ _ _ _ _ CC um u up Ht).
  - exact (cc_below_U _ _ _ _ _ CC um u P1 lm Vlm).
  - exact (cc_below_U _ _ _ _ _ CC u up P2 lm Vlm).
  - exact (cc_below_L _ _ _ _ _ CC lm l Plm um Vum).
Qed.

(** The two chains, joined, list no point twice. *)
Lemma closed_distinct : distinctVertices ((a :: us) ++ m :: ls).
Proof.
  apply distinct_of_sorted.
  pose proof closed_upper_sorted as HU.
  pose proof closed_lower_sorted as HL.
  change (a :: us ++ [m]) with ((a :: us) ++ [m]) in HU.
  change (m :: ls ++ [a]) with ((m :: ls) ++ [a]) in HL.
  apply StronglySorted_app_intro.
  - intros x1 x2 H1 H2.
    destruct H2 as [<- | H2].
    + assert (K : lexlt x1 m).
      { apply (StronglySorted_app_cross _ _ _ _ _ HU); [exact H1 | now left]. }
      exact (proj2 K).
    + destruct H1 as [<- | H1].
      * assert (K : lexlt a x2).
        { apply (StronglySorted_app_cross _ _ _ x2 a HL); [now right | now left]. }
        exact (proj2 K).
      * now apply closed_inner_apart.
  - apply StronglySorted_app_l in HU.
    exact (StronglySorted_weaken _ _ _ (fun u v H => proj2 H) HU).
  - apply StronglySorted_app_l in HL.
    apply (StronglySorted_weaken _ _ _ (fun u v H E => proj2 H (peq_sym _ _ E))) in HL.
    exact HL.
Qed.

End ClosedDistinct.

(** The hull of a sorted array lists no point twice, is convex when it has
    three vertices or more, and starts with the first point of the
    array. *)
Lemma hullOfScans_distinct pts :
  StronglySorted lexle pts -> distinctVertices (hullOfScans pts).
Proof.
  intros Hs.
  assert (K1 : forall l : Polygon, (length l <= 1)%nat -> distinctVertices l).
  { intros l Hl i j a b Hi Hj _.
    apply lookup_lt_Some in Hi, Hj. lia. }
  destruct (Nat.le_gt_cases (length pts) 1) as [Hlen | Hlen].
  - unfold hullOfScans.
    replace (length pts <=? 1)%nat with true by (symmetry; now apply Nat.leb_le).
    now apply K1.
  - destruct (hullOfScans_sorted pts Hs Hlen)
      as (a & m & us & ls & _ & _ & CC & [(_ & _ & _ & ->) | (Hne & ->)]).
    + apply K1. cbn. lia.
    + destruct (nil_or_not us) as [Eu | Nu]; [destruct (nil_or_not ls) as [El | Nl] |].
      * subst us ls. destruct Hne as [H | [H | H]]; try contradiction.
        intros i j u v Hi Hj Hp.
        destruct i as [| [| i]], j as [| [| j]]; try reflexivity; try discriminate;
          cbn in Hi, Hj; injection Hi as <-; injection Hj as <-;
          exfalso; apply H; [exact Hp | now apply peq_sym].
      * apply (closed_distinct pts a m us ls CC).
        apply (closed_turns pts a m us ls CC). now right.
      * apply (closed_distinct pts a m us ls CC).
        apply (closed_turns pts a m us ls CC). now left.
Qed.

Lemma hullOfScans_convex pts :
  StronglySorted lexle pts -> (3 <= length (hullOfScans pts))%nat ->
  convexPolygon (hullOfScans pts).
Proof.
  intros Hs Hlen.
  destruct (hullOfScans_correct pts Hs) as (Hsub & Hin & _ & Ht).
  split; [| now apply Ht].
  intros v Hv. apply Hin, Hsub, Hv.
Qed.

Lemma hullOfScans_head pts :
  StronglySorted lexle pts -> head (hullOfScans pts) = head pts.
Proof.
  intros Hs.
  destruct (Nat.le_gt_cases (length pts) 1) as [Hlen | Hlen].
  - unfold hullOfScans.
    replace (length pts <=? 1)%nat with true by (symmetry; now apply Nat.leb_le).
    reflexivity.
  - destruct (hullOfScans_sorted pts Hs Hlen)
      as (a & m & us & ls & Ha & _ & _ & [(_ & _ & _ & ->) | (_ & ->)]);
      now rewrite Ha.
Qed.

Lemma sorted_head_least pts a :
  StronglySorted lexle pts -> head pts = Some a ->
  forall p, In p pts -> lexle a p.
Proof.
  intros Hs Ha p Hp. destruct pts as [| a' pts]; [discriminate |].
  injection Ha as ->. apply StronglySorted_inv in Hs. destruct Hs as [_ HF].
  destruct Hp as [<- | Hp]; [apply lexle_refl, peq_refl |].
  rewrite Forall_forall in HF. apply HF. now apply list_elem_of_In.
Qed.




End HullDistinct.



(** ** What the hull does not depend on *)

Section HullOrder.
Import Num NumFacts.

(** The comparator, the turn test and [===] answer the same on points with
    the same coordinates. *)
Lemma comparePoints_peq a a' b b' :
  peq a a' -> peq b b' -> comparePoints a b = comparePoints a' b'.
Proof.
  intros [Ax Ay] [Bx By]. unfold comparePoints, gt.
  rewrite (lt_proper _ _ _ _ Ax Bx), (lt_proper _ _ _ _ Bx Ax),
    (lt_proper _ _ _ _ Ay By), (lt_proper _ _ _ _ By Ay).
  reflexivity.
Qed.

Lemma nonLeftTurn_peq r r' q q' p p' :
  peq r r' -> peq q q' -> peq p p' -> nonLeftTurn r q p = nonLeftTurn r' q' p'.
Proof.
  intros Hr Hq Hp.
  pose proof (cross_peq r r' q q' p p' Hr Hq Hp) as E.
  destruct (nonLeftTurn r' q' p') eqn:E'.
  - apply nonLeftTurn_true in E'. apply nonLeftTurn_true. lra.
  - apply nonLeftTurn_false in E'. apply nonLeftTurn_false. lra.
Qed.

Lemma strictEq_peq a a' b b' :
  (a == a')%Q -> (b == b')%Q -> strictEq a b = strictEq a' b'.
Proof.
  intros Ha Hb. destruct (strictEq a' b') eqn:E.
  - apply strictEq_iff in E. apply strictEq_iff. lra.
  - apply strictEq_false_iff in E. apply strictEq_false_iff. lra.
Qed.

(** Arrays with the same coordinates at every index. *)
Lemma samePoints_refl l : samePoints l l.
Proof. induction l; constructor; [apply peq_refl | assumption]. Qed.

Lemma samePoints_trans l1 l2 l3 :
  samePoints l1 l2 -> samePoints l2 l3 -> samePoints l1 l3.
Proof.
  intros H. revert l3. induction H as [| a b l1 l2 Hab _ IH]; intros l3 H3.
  - inversion H3. constructor.
  - inversion H3 as [| b' c l2' l3' Hbc H' E1 E2]; subst.
    constructor; [exact (peq_trans _ _ _ Hab Hbc) | now apply IH].
Qed.

Lemma samePoints_length l l' : samePoints l l' -> length l = length l'.
Proof. induction 1; cbn; congruence. Qed.

Lemma samePoints_app l1 l1' l2 l2' :
  samePoints l1 l1' -> samePoints l2 l2' -> samePoints (l1 ++ l2) (l1' ++ l2').
Proof. intros H1 H2. induction H1; cbn; [exact H2 | now constructor]. Qed.

Lemma samePoints_rev l l' : samePoints l l' -> samePoints (rev l) (rev l').
Proof.
  induction 1 as [| a b l l' Hab _ IH]; [constructor |].
  cbn [rev]. apply samePoints_app; [exact IH |]. constructor; [exact Hab | constructor].
Qed.

Lemma samePoints_tl l l' : samePoints l l' -> samePoints (tl l) (tl l').
Proof. destruct 1; [constructor | assumption]. Qed.

(** Sorting: the order in which two elements are inserted matters only
    when they compare equal, and then they have the same coordinates. *)
Lemma sort_insert_same a a' l l' :
  peq a a' -> samePoints l l' ->
  samePoints (sort_insert comparePoints a l) (sort_insert comparePoints a' l').
Proof.
  intros Ha H. induction H as [| b b' l l' Hb H IH]; cbn [sort_insert].
  - constructor; [exact Ha | constructor].
  - rewrite (comparePoints_peq a a' b b' Ha Hb).
    destruct (comparePoints a' b' <=? 0)%Z.
    + constructor; [exact Ha |]. constructor; assumption.
    + constructor; assumption.
Qed.

Lemma sort_insert_swap a b l :
  samePoints (sort_insert comparePoints a (sort_insert comparePoints b l))
             (sort_insert comparePoints b (sort_insert comparePoints a l)).
Proof.
  induction l as [| c l IH].
  - cbn [sort_insert].
    destruct (comparePoints a b <=? 0)%Z eqn:Eab;
      destruct (comparePoints b a <=? 0)%Z eqn:Eba.
    + apply comparePoints_le in Eab, Eba.
      pose proof (lexle_antisym _ _ Eab Eba) as E.
      constructor; [exact E |]. constructor; [now apply peq_sym | constructor].
    + apply samePoints_refl.
    + apply samePoints_refl.
    + apply comparePoints_gt in Eab, Eba.
      pose proof (lexle_antisym _ _ Eab Eba) as E.
      constructor; [exact E |]. constructor; [now apply peq_sym | constructor].
  - cbn [sort_insert].
    destruct (comparePoints b c <=? 0)%Z eqn:Ebc;
      destruct (comparePoints a c <=? 0)%Z eqn:Eac; cbn [sort_insert];
      rewrite ?Ebc, ?Eac.
    + destruct (comparePoints a b <=? 0)%Z eqn:Eab;
        destruct (comparePoints b a <=? 0)%Z eqn:Eba.
      * apply comparePoints_le in Eab, Eba.
        pose proof (lexle_antisym _ _ Eab Eba) as E.
        constructor; [exact E |]. constructor; [now apply peq_sym |].
        apply samePoints_refl.
      * apply samePoints_refl.
      * rewrite ?Eac, ?Ebc. apply samePoints_refl.
      * apply comparePoints_gt in Eab, Eba.
        pose proof (lexle_antisym _ _ Eab Eba) as E.
        rewrite ?Eac, ?Ebc.
        constructor; [exact E |]. constructor; [now apply peq_sym |].
        apply samePoints_refl.
    + assert (Eab : (comparePoints a b <=? 0)%Z = false).
      { destruct (comparePoints a b <=? 0)%Z eqn:Eab; [| reflexivity].
        apply comparePoints_le in Eab, Ebc.
        pose proof (proj2 (comparePoints_le a c) (lexle_trans _ _ _ Eab Ebc)).
        congruence. }
      rewrite ?Eab, ?Eac, ?Ebc. apply samePoints_refl.
    + assert (Eba : (comparePoints b a <=? 0)%Z = false).
      { destruct (comparePoints b a <=? 0)%Z eqn:Eba; [| reflexivity].
        apply comparePoints_le in Eba, Eac.
        pose proof (proj2 (comparePoints_le b c) (lexle_trans _ _ _ Eba Eac)).
        congruence. }
      rewrite ?Eba, ?Ebc, ?Eac. apply samePoints_refl.
    + constructor; [apply peq_refl | exact IH].
Qed.

Lemma Array_sort_same l l' :
  Permutation l l' ->
  samePoints (Array_sort comparePoints l) (Array_sort comparePoints l').
Proof.
  induction 1 as [| a l l' _ IH | a b l | l1 l2 l3 _ IH1 _ IH2].
  - constructor.
  - cbn [Array_sort foldr]. apply sort_insert_same; [apply peq_refl | exact IH].
  - cbn [Array_sort foldr]. apply sort_insert_swap.
  - exact (samePoints_trans _ _ _ IH1 IH2).
Qed.

(** The scans of two arrays with the same coordinates. *)
Lemma popWhile_same stk stk' p p' :
  samePoints stk stk' -> peq p p' ->
  samePoints (popWhile stk p) (popWhile stk' p').
Proof.
  intros H Hp. induction H as [| q q' stk stk' Hq H IH]; [constructor |].
  destruct H as [| r r' stk stk' Hr H].
  - cbn. constructor; [exact Hq | constructor].
  - rewrite !popWhile_eq. rewrite (nonLeftTurn_peq r r' q q' p p' Hr Hq Hp).
    destruct (nonLeftTurn r' q' p').
    + exact IH.
    + constructor; [exact Hq |]. constructor; assumption.
Qed.

Lemma fold_scanStep_same pts pts' : forall stk stk',
  samePoints pts pts' -> samePoints stk stk' ->
  samePoints (fold_left scanStep pts stk) (fold_left scanStep pts' stk').
Proof.
  intros stk stk' H. revert stk stk'.
  induction H as [| p p' pts pts' Hp _ IH]; intros stk stk' Hs; [exact Hs |].
  cbn [fold_left]. apply IH. unfold scanStep.
  constructor; [exact Hp | now apply popWhile_same].
Qed.

Lemma scan_same pts pts' : samePoints pts pts' -> samePoints (scan pts) (scan pts').
Proof. intros H. apply fold_scanStep_same; [exact H | constructor]. Qed.

Lemma hullOfScans_same pts pts' :
  samePoints pts pts' -> samePoints (hullOfScans pts) (hullOfScans pts').
Proof.
  intros H. unfold hullOfScans.
  rewrite <- (samePoints_length _ _ H).
  destruct (length pts <=? 1)%nat; [exact H |].
  pose proof (samePoints_rev _ _ (samePoints_tl _ _ (scan_same _ _ H))) as HU.
  pose proof (samePoints_rev _ _
                (samePoints_tl _ _ (scan_same _ _ (samePoints_rev _ _ H)))) as HL.
  pose proof (samePoints_app _ _ _ _ HU HL) as HA.
  destruct HU as [| u u' U U' Hu HU]; [exact HA |].
  destruct HU as [| ? ? ? ? ? ?]; [| exact HA].
  destruct HL as [| l l' L L' Hl HL]; [exact HA |].
  destruct HL as [| ? ? ? ? ? ?]; [| exact HA].
  rewrite (strictEq_peq (x u) (x u') (x l) (x l') (proj1 Hu) (proj1 Hl)).
  rewrite (strictEq_peq (y u) (y u') (y l) (y l') (proj2 Hu) (proj2 Hl)).
  destruct (strictEq (x u') (x l') && strictEq (y u') (y l')); [| exact HA].
  constructor; [exact Hu | constructor].
Qed.

(** X9: the order of the input does not matter: for two arrays with the same
    points, each as many times, in any order, [getHull] returns hulls of the
    same length with the same coordinates at every index. *)
Theorem getHull_permutation (points points' : list Point) :
  Permutation points points' ->
  exists hull hull',
    getHull points = Some hull /\ getHull points' = Some hull'
    /\ samePoints hull hull'.
Proof.
  intros H. rewrite !getHull_scans. eexists. eexists.
  split; [reflexivity |]. split; [reflexivity |].
  apply hullOfScans_same, Array_sort_same, H.
Qed.

End HullOrder.

Lemma getHull_permutation_witness :
  let points := [ {| x := 2; y := 0 |}; {| x := 0; y := 0 |}; {| x := 1; y := 3 |};
                  {| x := 1; y := 1 |} ] in
  exists hull hull',
    getHull points = Some hull /\ getHull (rev points) = Some hull'
    /\ samePoints hull hull'.
Proof.
  intros points. apply getHull_permutation. apply Permutation_rev.
Defined.

Section HullTranslation.
Import Num NumFacts.
Variables dx dy : number.

Local Abbreviation T := (translate dx dy).

(** The sort and the scans after a move by [(dx, dy)]. *)
Lemma comparePoints_translate a b : comparePoints (T a) (T b) = comparePoints a b.
Proof.
  unfold comparePoints, translate, gt. cbn [x y].
  now rewrite !lt_translate.
Qed.

Lemma sort_insert_translate a l :
  sort_insert comparePoints (T a) (map T l) = map T (sort_insert comparePoints a l).
Proof.
  induction l as [| b l IH]; [reflexivity |].
  cbn [map sort_insert]. rewrite comparePoints_translate.
  destruct (comparePoints a b <=? 0)%Z; [reflexivity |].
  cbn [map]. now rewrite IH.
Qed.

Lemma Array_sort_translate l :
  Array_sort comparePoints (map T l) = map T (Array_sort comparePoints l).
Proof.
  induction l as [| a l IH]; [reflexivity |].
  cbn [map Array_sort foldr]. fold (Array_sort comparePoints (map T l)).
  fold (Array_sort comparePoints l).
  now rewrite IH, sort_insert_translate.
Qed.

Lemma nonLeftTurn_translate r q p :
  nonLeftTurn (T r) (T q) (T p) = nonLeftTurn r q p.
Proof.
  assert (E : (cross (T r) (T q) (T p) == cross r q p)%Q)
    by (unfold cross, translate; cbn [x y]; ring).
  destruct (nonLeftTurn r q p) eqn:E'.
  - apply nonLeftTurn_true in E'. apply nonLeftTurn_true. lra.
  - apply nonLeftTurn_false in E'. apply nonLeftTurn_false. lra.
Qed.

Lemma popWhile_translate stk p :
  popWhile (map T stk) (T p) = map T (popWhile stk p).
Proof.
  induction stk as [| q stk IH]; [reflexivity |].
  destruct stk as [| r stk]; [reflexivity |].
  cbn [map] in *. rewrite !popWhile_eq, nonLeftTurn_translate.
  destruct (nonLeftTurn r q p); [exact IH | reflexivity].
Qed.

Lemma fold_scanStep_translate pts : forall stk,
  fold_left scanStep (map T pts) (map T stk) = map T (fold_left scanStep pts stk).
Proof.
  induction pts as [| p pts IH]; intros stk; [reflexivity |].
  cbn [map fold_left]. rewrite <- IH. f_equal.
  unfold scanStep. cbn [map]. now rewrite popWhile_translate.
Qed.

Lemma scan_translate pts : scan (map T pts) = map T (scan pts).
Proof. exact (fold_scanStep_translate pts []). Qed.

Lemma strictEq_translate d a b : strictEq (a + d) (b + d) = strictEq a b.
Proof.
  destruct (strictEq a b) eqn:E.
  - apply strictEq_iff in E. apply strictEq_iff. lra.
  - apply strictEq_false_iff in E. apply strictEq_false_iff. lra.
Qed.

Lemma map_tl {A B : Type} (f : A -> B) (l : list A) : tl (map f l) = map f (tl l).
Proof. destruct l; reflexivity. Qed.

Lemma hullOfScans_translate pts :
  hullOfScans (map T pts) = map T (hullOfScans pts).
Proof.
  unfold hullOfScans. rewrite length_map.
  destruct (length pts <=? 1)%nat; [reflexivity |].
  rewrite <- map_rev, !scan_translate, !map_tl, <- !map_rev.
  destruct (rev (tl (scan pts))) as [| u [| u' U]];
    destruct (rev (tl (scan (rev pts)))) as [| l [| l' L]];
    rewrite ?map_app; cbn [map]; try reflexivity.
  unfold translate at 1 2 3 4. cbn [x y].
  rewrite !strictEq_translate.
  destruct (strictEq (x u) (x l) && strictEq (y u) (y l)); reflexivity.
Qed.


End HullTranslation.

(** ** The grace area of the tracker *)

(** A polygon that holds the four corners of a rectangle holds the
    rectangle. *)
Lemma onOrInside_rect (h : Polygon) (rect : DOMRect) :
  (forall c, In c (getPointsFromRect rect) -> onOrInside c h) ->
  forall p, inRect p rect -> onOrInside p h.
Proof.
  intros Hc p (HL & HR & HT & HB) a b Hab.
  pose proof (Hc _ (or_introl eq_refl) a b Hab) as H1.
  pose proof (Hc _ (or_intror (or_introl eq_refl)) a b Hab) as H2.
  pose proof (Hc _ (or_intror (or_intror (or_introl eq_refl))) a b Hab) as H3.
  pose proof (Hc _ (or_intror (or_intror (or_intror (or_introl eq_refl)))) a b Hab)
    as H4.
  unfold cross in *. cbn [x y] in *.
  destruct (Qlt_le_dec (x b) (x a)) as [Hx | Hx];
    destruct (Qlt_le_dec (y b) (y a)) as [Hy | Hy]; nra.
Qed.

Section RectangleInHull.
Local Open Scope Q_scope.

(** Three corners of a rectangle with an interior are not on one line. *)
Lemma corners_on_line a b (rect : DOMRect) :
  left rect < right rect -> top rect < bottom rect ->
  cross a b {| x := left rect; y := top rect |} == 0 ->
  cross a b {| x := right rect; y := top rect |} == 0 ->
  cross a b {| x := right rect; y := bottom rect |} == 0 ->
  peq a b.
Proof.
  unfold cross, peq. cbn [x y]. intros HL HT H1 H2 H3.
  assert (E1 : (y b - y a) * (right rect - left rect) == 0) by lra.
  assert (E2 : (x b - x a) * (bottom rect - top rect) == 0) by lra.
  split; nra.
Qed.

(** A point of a rectangle is a weighted mean of its corners: strictly
    inside the rectangle, it is strictly inside every edge that has no
    corner on its outer side. *)
Lemma rect_weights a b (rect : DOMRect) p :
  (right rect - left rect) * (bottom rect - top rect) * cross a b p
  == (right rect - x p) * (bottom rect - y p) * cross a b {| x := left rect; y := top rect |}
     + (x p - left rect) * (bottom rect - y p) * cross a b {| x := right rect; y := top rect |}
     + (x p - left rect) * (y p - top rect) * cross a b {| x := right rect; y := bottom rect |}
     + (right rect - x p) * (y p - top rect) * cross a b {| x := left rect; y := bottom rect |}.
Proof. unfold cross. cbn [x y]. ring. Qed.

Lemma weights_zero (w w1 w2 w3 w4 g g1 g2 g3 g4 : Q) :
  w * g == w1 * g1 + w2 * g2 + w3 * g3 + w4 * g4 ->
  0 < w -> 0 < w1 -> 0 < w2 -> 0 < w3 -> 0 < w4 ->
  0 <= g -> g1 <= 0 -> g2 <= 0 -> g3 <= 0 -> g4 <= 0 ->
  g1 == 0 /\ g2 == 0 /\ g3 == 0.
Proof.
  intros E W W1 W2 W3 W4 H H1 H2 H3 H4.
  assert (Z : 0 <= w * g) by nra.
  assert (Z1 : w1 * g1 <= 0) by nra.
  assert (Z2 : w2 * g2 <= 0) by nra.
  assert (Z3 : w3 * g3 <= 0) by nra.
  assert (Z4 : w4 * g4 <= 0) by nra.
  repeat split; nra.
Qed.

Lemma rect_interior_edge a b (rect : DOMRect) p :
  strictlyInside p rect -> ~ peq a b ->
  (forall c, In c (getPointsFromRect rect) -> cross a b c <= 0) ->
  cross a b p < 0.
Proof.
  intros (HL & HR & HT & HB) Hab Hc.
  pose proof (Hc _ (or_introl eq_refl)) as H1.
  pose proof (Hc _ (or_intror (or_introl eq_refl))) as H2.
  pose proof (Hc _ (or_intror (or_intror (or_introl eq_refl)))) as H3.
  pose proof (Hc _ (or_intror (or_intror (or_intror (or_introl eq_refl))))) as H4.
  destruct (Qlt_le_dec (cross a b p) 0) as [H | H]; [exact H | exfalso].
  destruct (weights_zero _ _ _ _ _ _ _ _ _ _ (rect_weights a b rect p))
    as (G1 & G2 & G3); try assumption; try nra.
  apply Hab. apply (corners_on_line a b rect); [lra | lra | exact G1 | exact G2 | exact G3].
Qed.

(** The hull of points that include the four corners of a rectangle with
    an interior has three vertices or more. *)
Lemma hull_of_corners (pts : list Point) (rect : DOMRect) :
  (forall c, In c (getPointsFromRect rect) -> In c pts) ->
  left rect < right rect -> top rect < bottom rect ->
  (3 <= length (hullOfScans (Array_sort comparePoints pts)))%nat.
Proof.
  intros Hc HL HT.
  set (S := Array_sort comparePoints pts).
  pose proof (Array_sort_sorted pts) as Hs. fold S in Hs.
  destruct (hullOfScans_correct S Hs) as (_ & Hin & Hbetween & _).
  pose proof (hullOfScans_distinct S Hs) as Hd.
  assert (K : forall c, In c (getPointsFromRect rect) -> In c S).
  { intros c H. apply Array_sort_In. now apply Hc. }
  pose proof (K _ (or_introl eq_refl)) as K1.
  pose proof (K _ (or_intror (or_introl eq_refl))) as K2.
  pose proof (K _ (or_intror (or_intror (or_introl eq_refl)))) as K3.
  destruct (hullOfScans S) as [| a [| m [| c l]]]; [exfalso | exfalso | exfalso | cbn; lia].
  - destruct (Hbetween _ K1) as (a & _ & [] & _).
  - destruct (Hbetween _ K1) as (a1 & b1 & [<- | []] & [<- | []] & L1 & L1').
    destruct (Hbetween _ K2) as (a2 & b2 & [<- | []] & [<- | []] & L2 & L2').
    destruct (lexle_antisym _ _ L1 L1') as [E1 _].
    destruct (lexle_antisym _ _ L2 L2') as [E2 _].
    cbn [x] in E1, E2. lra.
  - assert (Z : forall p, In p S -> cross a m p == 0).
    { intros p Hp.
      assert (H1 : cross a m p <= 0) by (apply (Hin p Hp); now left).
      assert (H2 : cross m a p <= 0) by (apply (Hin p Hp); right; now left).
      rewrite cross_flip in H2. lra. }
    assert (E : peq a m).
    { apply (corners_on_line a m rect HL HT); apply Z; assumption. }
    specialize (Hd 0%nat 1%nat a m eq_refl eq_refl E). discriminate.
Qed.

End RectangleInHull.

Section TrackerMore.

Variable node : Type.
Variable element : Type.
Variable isHTMLElement : node -> option element.
Variable isElementOrSVGElement : node -> bool.

Local Abbreviation dispatch :=
  (step node element isHTMLElement isElementOrSVGElement).
Local Abbreviation dispatchAll :=
  (run node element isHTMLElement isElementOrSVGElement).

(** What a [pointerleave] of the trigger does while both nodes are there. *)
Lemma trigger_leave_hull
    (dom : Dom node element) (e : PointerEvent node) (s : State element)
    (t c ct : element) :
  triggerNode s = Some t -> contentNode s = Some c ->
  isHTMLElement (currentTarget e) = Some ct ->
  let exitPoint := {| x := clientX e; y := clientY e |} in
  let rect := getBoundingClientRect dom c in
  exists side,
    getExitSideFromRect exitPoint (getBoundingClientRect dom ct) = Ok side
    /\ dispatch dom (TriggerPointerLeave e) s
       = Ok ({| triggerNode := Some t; contentNode := Some c;
                pointerGraceArea :=
                  Some (hullOfScans
                          (Array_sort comparePoints
                             (getPaddedExitPoints exitPoint side None
                              ++ getPointsFromRect rect)));
                isPointerInTransit := {| value := true; pending := true |} |},
             0%nat).
Proof.
  intros Ht Hc Hct exitPoint rect.
  assert (Hside : exists side,
             getExitSideFromRect exitPoint (getBoundingClientRect dom ct) = Ok side).
  { destruct (getExitSideFromRect_cases exitPoint (getBoundingClientRect dom ct))
      as [(E & _) | [(E & _) | [(E & _) | (E & _)]]]; eexists; exact E. }
  destruct Hside as [side Hside]. exists side. split; [exact Hside |].
  cbn [step]. rewrite Ht, Hc. unfold handleCreateGraceArea.
  rewrite Hct. fold exitPoint. rewrite Hside. fold rect.
  rewrite getHull_scans, Ht, Hc. reflexivity.
Qed.



(** One event: it does not throw, it fires the exit notifier at most once,
    and when it fires, no polygon is left. *)
Lemma step_exits dom ev s :
  exists s' n,
    dispatch dom ev s = Ok (s', n)
    /\ (n + stored s' <= stored s + (if isTriggerLeave ev then 1 else 0))%nat.
Proof.
  unfold stored.
  destruct ev as [e | e | e | | m | m]; cbn [step isTriggerLeave].
  - destruct (triggerNode s), (contentNode s);
      try (eexists; eexists; split; [reflexivity | lia]).
    unfold handleCreateGraceArea.
    destruct (isHTMLElement (currentTarget e)) as [ct |];
      [| eexists; eexists; split; [reflexivity | lia]].
    match goal with
    | |- context [getExitSideFromRect ?p ?r] =>
        destruct (getExitSideFromRect_cases p r)
          as [(-> & _) | [(-> & _) | [(-> & _) | (-> & _)]]]
    end;
      rewrite getHull_scans; eexists; eexists;
      (split; [reflexivity |]); cbn [pointerGraceArea];
      destruct (pointerGraceArea s); lia.
  - destruct (triggerNode s), (contentNode s);
      eexists; eexists; (split; [reflexivity |]);
      cbn [pointerGraceArea handleRemoveGraceArea];
      destruct (pointerGraceArea s); lia.
  - destruct (pointerGraceArea s) as [polygon |] eqn:E;
      [| eexists; eexists; split; [reflexivity | rewrite E; lia]].
    unfold handleTrackPointerGrace. rewrite E.
    destruct (negb (isElementOrSVGElement (target e)));
      [eexists; eexists; split; [reflexivity | rewrite E; lia] |].
    match goal with
    | |- context [isPointInPolygon ?p ?l] =>
        destruct (isPointInPolygon_total p l) as [b ->]
    end.
    destruct (hasEnteredTarget dom e s), (negb b);
      eexists; eexists; (split; [reflexivity |]);
      cbn [pointerGraceArea handleRemoveGraceArea]; rewrite ?E; lia.
  - eexists; eexists; split; [reflexivity | cbn [pointerGraceArea]; lia].
  - eexists; eexists; split; [reflexivity | cbn [pointerGraceArea]; lia].
  - eexists; eexists; split; [reflexivity | cbn [pointerGraceArea]; lia].
Qed.

(** X13: no sequence of events makes a handler throw, and the exit notifier
    fires at most once for each polygon that is stored: the number of
    notifications, plus one if a polygon is left at the end, is at most the
    number of [pointerleave] events of the trigger, plus one if a polygon
    was stored at the start. *)
Theorem exit_notifications_bounded
    (evs : list (Dom node element * Event node element)) (s : State element) :
  exists s' n,
    dispatchAll evs s = Ok (s', n)
    /\ (n + stored s' <= stored s + triggerLeaves evs)%nat.
Proof.
  revert s. induction evs as [| [dom ev] evs IH]; intros s;
    cbn [run triggerLeaves].
  - exists s, 0%nat. split; [reflexivity | lia].
  - destruct (step_exits dom ev s) as (s1 & n1 & -> & H1).
    destruct (IH s1) as (s2 & n2 & -> & H2).
    exists s2, (n1 + n2)%nat. split; [reflexivity | lia].
Qed.

(** A polygon without repeated points whose vertices are among the points
    of a list is not longer than the list. *)
Lemma distinct_length (g pts : list Point) :
  distinctVertices g -> (forall v, In v g -> In v pts) ->
  (length g <= length pts)%nat.
Proof.
  intros Hd Hsub. apply NoDup_incl_length; [| exact Hsub].
  apply NoDup_ListNoDup, NoDup_alt. intros i j v Hi Hj. exact (Hd i j v v Hi Hj (peq_refl v)).
Qed.

(** What [handleCreateGraceArea] stores is the hull of six points. *)
Lemma getPaddedExitPoints_length exitPoint side padding :
  length (getPaddedExitPoints exitPoint side padding) = 2%nat.
Proof. destruct side; reflexivity. Qed.

Lemma getHull_hullOfSix exitPoint side rect graceArea :
  getHull (getPaddedExitPoints exitPoint side None ++ getPointsFromRect rect)
  = Some graceArea ->
  hullOfSix graceArea.
Proof.
  rewrite getHull_scans. intros E. injection E as <-.
  set (pts := getPaddedExitPoints exitPoint side None ++ getPointsFromRect rect).
  pose proof (Array_sort_sorted pts) as Hs.
  pose proof (hullOfScans_distinct _ Hs) as Hd.
  split; [exact Hd |]. split.
  - replace 6%nat with (length (Array_sort comparePoints pts)).
    + apply distinct_length; [exact Hd |].
      exact (proj1 (hullOfScans_correct _ Hs)).
    + rewrite Array_sort_length. unfold pts.
      rewrite length_app, getPaddedExitPoints_length. reflexivity.
  - now apply hullOfScans_convex.
Qed.

(** An event stores a hull or leaves the polygon as it was. *)
Lemma step_keeps_hull dom ev s s' n :
  (forall g, pointerGraceArea s = Some g -> hullOfSix g) ->
  dispatch dom ev s = Ok (s', n) ->
  forall g, pointerGraceArea s' = Some g -> hullOfSix g.
Proof.
  intros Hinv Hstep.
  destruct ev as [e | e | e | | m | m]; cbn [step] in Hstep.
  - destruct (triggerNode s), (contentNode s);
      try (injection Hstep as <- <-; exact Hinv).
    unfold handleCreateGraceArea in Hstep.
    destruct (isHTMLElement (currentTarget e));
      [| injection Hstep as <- <-; exact Hinv].
    destruct (getExitSideFromRect _ _) as [side |]; [| discriminate].
    destruct (getHull _) as [graceArea |] eqn:Eh; [| discriminate].
    injection Hstep as <- <-. cbn [pointerGraceArea].
    intros g E. injection E as <-. exact (getHull_hullOfSix _ _ _ _ Eh).
  - destruct (triggerNode s), (contentNode s);
      injection Hstep as <- <-; try exact Hinv; cbn; discriminate.
  - destruct (pointerGraceArea s) as [polygon |] eqn:E;
      [| injection Hstep as <- <-; rewrite E; exact Hinv].
    unfold handleTrackPointerGrace in Hstep. rewrite E in Hstep.
    destruct (negb (isElementOrSVGElement (target e)));
      [injection Hstep as <- <-; rewrite E; exact Hinv |].
    destruct (isPointInPolygon _ _) as [inside |]; [| discriminate].
    destruct (hasEnteredTarget dom e s), (negb inside);
      injection Hstep as <- <-; try (rewrite E; exact Hinv); cbn; discriminate.
  - injection Hstep as <- <-. exact Hinv.
  - injection Hstep as <- <-. exact Hinv.
  - injection Hstep as <- <-. exact Hinv.
Qed.

Lemma run_keeps_hull evs : forall s s' n,
  (forall g, pointerGraceArea s = Some g -> hullOfSix g) ->
  dispatchAll evs s = Ok (s', n) ->
  forall g, pointerGraceArea s' = Some g -> hullOfSix g.
Proof.
  induction evs as [| [dom ev] evs IH]; intros s s' n Hinv Hrun;
    cbn [run] in Hrun.
  - injection Hrun as <- <-. exact Hinv.
  - destruct (dispatch dom ev s) as [[s1 n1] |] eqn:E1; [| discriminate].
    destruct (dispatchAll evs s1) as [[s2 n2] |] eqn:E2; [| discriminate].
    injection Hrun as <- <-.
    apply (IH s1 s2 n2); [| exact E2].
    exact (step_keeps_hull dom ev s s1 n1 Hinv E1).
Qed.


End TrackerMore.




(** ** [getHullPresorted] on the store *)

(** X15: [getHullPresorted] returns an array that did not exist before the
    call, also when the array it is given has at most one element: it
    returns a copy then, not its argument.  The argument and every other
    array keep their elements. *)
Theorem getHullPresorted_returns_new_array
    (h : Imp.store) (points : Imp.ref) (pts : list Point) :
  h !! points = Some pts ->
  exists r h' hull,
    Imp.getHullPresorted points h = Some (r, h')
    /\ r <> points
    /\ h !! r = None
    /\ h' !! r = Some hull
    /\ getHullPresorted pts = Some hull
    /\ h' !! points = Some pts
    /\ preserved h h'.
Proof.
  intros Hp.
  destruct (ImpFacts.runs_getHullPresorted points pts (hullOfScans pts) h Hp
              (getHullPresorted_scans pts))
    as (r & h' & Hrun & Hr & Hfresh & Hpres).
  exists r, h', (hullOfScans pts).
  split; [exact Hrun |]. split; [| split; [| split; [| split; [| split]]]].
  - intros E. rewrite E in Hfresh. congruence.
  - exact Hfresh.
  - exact Hr.
  - apply getHullPresorted_scans.
  - now apply Hpres.
  - exact Hpres.
Qed.

Lemma getHullPresorted_returns_new_array_witness :
  let pts := [ {| x := 1; y := 2 |} ] in
  let h : Imp.store := {[ 7%nat := pts ]} in
  exists r h',
    Imp.getHullPresorted 7%nat h = Some (r, h')
    /\ r <> 7%nat
    /\ h' !! r = Some pts
    /\ h' !! 7%nat = Some pts.
Proof.
  intros pts h.
  destruct (getHullPresorted_returns_new_array h 7%nat pts)
    as (r & h' & hull & H1 & H2 & _ & H3 & H4 & H5 & _).
  - reflexivity.
  - exists r, h'. cbn in H4. injection H4 as <-.
    repeat split; assumption.
Defined.
